(** * memex: capture processing pipeline and hybrid search

    A shallow embedding of [lib/textProcessing.js]: the OCR text
    sanitizer ([cleanExtractedText]), the temporal extractor
    ([extractTemporalInfo], [calculateConfidence]), the text combiner
    ([combineTextForEmbedding]), the processing state machine
    ([processCapture]) and the hybrid search merger ([hybridSearch]);
    with them the endpoint that runs the pipeline
    ([pages/api/process-capture.js]), its client ([lib/api.js]) and the
    parsing of the tags of a new capture ([App.tsx]).

    External capabilities (the Vision OCR client, the chrono date parser,
    the embedding service, the Supabase client and the wall clock) are
    parameters of the model: the theorems quantify over everything they
    may answer. Numbers are IEEE 754 doubles (primitive floats). *)

From Stdlib Require Import ZArith NArith Floats String Ascii List Bool Lia.
From stdpp Require Import base option list sorting strings gmap.
Import ListNotations.

Set Default Proof Using "Type".
#[local] Set Warnings "-clear-no-such-hyp".

(* ===================================================================== *)
(** ** JavaScript strings *)
(* ===================================================================== *)

(** A JavaScript string is a sequence of UTF-16 code units. *)
Module JsString.

Definition jsstring := list N.

(** A string literal of the source, given in ASCII. *)
Definition lit (s : string) : jsstring :=
  map N_of_ascii (list_ascii_of_string s).

Definition LF : N := 10.
Definition TAB : N := 9.
Definition SP : N := 32.

Definition between (lo hi c : N) : bool := (lo <=? c)%N && (c <=? hi)%N.

Definition is_digit (c : N) : bool := between 48 57 c.
Definition is_upper (c : N) : bool := between 65 90 c.
Definition is_lower (c : N) : bool := between 97 122 c.

(** [\w]: [A-Za-z0-9_]. *)
Definition is_word (c : N) : bool :=
  is_upper c || is_lower c || is_digit c || (c =? 95)%N.

(** ECMAScript LineTerminator: LF, CR, U+2028, U+2029. *)
Definition is_line_terminator (c : N) : bool :=
  (c =? 10)%N || (c =? 13)%N || (c =? 8232)%N || (c =? 8233)%N.

(** ECMAScript WhiteSpace and LineTerminator, the set shared by [\s]
    and [String.prototype.trim]. *)
Definition is_space (c : N) : bool :=
  between 9 13 c || (c =? 32)%N || (c =? 160)%N || (c =? 5760)%N
  || between 8192 8202 c || (c =? 8232)%N || (c =? 8233)%N
  || (c =? 8239)%N || (c =? 8287)%N || (c =? 12288)%N || (c =? 65279)%N.

(** [toUpperCase] restricted to what a case-insensitive match against an
    ASCII pattern letter can see. *)
Definition ascii_upper (c : N) : N := if is_lower c then (c - 32)%N else c.
Definition ascii_lower (c : N) : N := if is_upper c then (c + 32)%N else c.

(** [String.prototype.split(sep)[0]] for a one-character separator: the
    text before the first occurrence of [sep]. *)
Fixpoint before (sep : N) (s : jsstring) : jsstring :=
  match s with
  | [] => []
  | c :: s' => if (c =? sep)%N then [] else c :: before sep s'
  end.

Fixpoint trimStart (s : jsstring) : jsstring :=
  match s with
  | c :: s' => if is_space c then trimStart s' else s
  | [] => []
  end.

Definition trimEnd (s : jsstring) : jsstring := rev (trimStart (rev s)).

(** [String.prototype.trim]. *)
Definition trim (s : jsstring) : jsstring := trimEnd (trimStart s).

(** [Array.prototype.join] on an array of strings. *)
Fixpoint join (sep : jsstring) (parts : list jsstring) : jsstring :=
  match parts with
  | [] => []
  | [p] => p
  | p :: rest => p ++ sep ++ join sep rest
  end.

Fixpoint starts_with (p s : jsstring) : bool :=
  match p, s with
  | [], _ => true
  | a :: p', b :: s' => (a =? b)%N && starts_with p' s'
  | _ :: _, [] => false
  end.

(** [String.prototype.includes]. *)
Fixpoint includes (p s : jsstring) : bool :=
  starts_with p s ||
  match s with
  | [] => false
  | _ :: s' => includes p s'
  end.

(** Value of a run of decimal digits ([parseInt] on a digits-only
    string). *)
Definition parseInt (s : jsstring) : N :=
  fold_left (fun acc c => (10 * acc + (c - 48))%N) s 0%N.

(** JavaScript truthiness of a possibly null string: null, undefined
    and the empty string are falsy. *)
Definition truthy (o : option jsstring) : bool :=
  match o with
  | Some (_ :: _) => true
  | _ => false
  end.

End JsString.
Import JsString.

(* ===================================================================== *)
(** ** Regular expressions *)
(* ===================================================================== *)

(** The fragment of ECMAScript regular expressions the source uses, with
    the backtracking semantics of the language: ordered alternation,
    greedy and lazy quantifiers, positive lookahead, [^], [$] and [\b].
    Every quantifier of the source applies to a single-character atom, so
    [Rep] quantifies a character set. *)
Module Regex.

Inductive cset : Type :=
| CChar (c : N)                 (* a literal character *)
| CCharI (c : N)                (* a literal character under the i flag *)
| CDigit                        (* \d *)
| CSpace                        (* \s *)
| CWord                         (* \w *)
| CAny                          (* . under the s flag *)
| CDot                          (* . without the s flag *)
| CRange (lo hi : N)            (* [lo-hi] *)
| CUnion (a b : cset).          (* [ab] *)

Inductive regex : Type :=
| Eps
| Cls (c : cset)
| Seq (a b : regex)
| Alt (a b : regex)
| Rep (c : cset) (lazy : bool) (min : nat) (max : option nat)
| Ahead (a : regex)             (* (?=a) *)
| Eol (multiline : bool)        (* $ *)
| Bol (multiline : bool)        (* ^ *)
| WordB.                        (* \b *)

Fixpoint accepts (cs : cset) (c : N) : bool :=
  match cs with
  | CChar x => (x =? c)%N
  | CCharI x => (ascii_upper x =? ascii_upper c)%N && (c <? 128)%N
  | CDigit => is_digit c
  | CSpace => is_space c
  | CWord => is_word c
  | CAny => true
  | CDot => negb (is_line_terminator c)
  | CRange lo hi => between lo hi c
  | CUnion a b => accepts a c || accepts b c
  end.

(** A continuation receives the number of code units consumed so far,
    the code unit just before the current position (if any) and the rest
    of the input; it answers the length of the whole match. *)
Definition cont := nat -> option N -> jsstring -> option nat.

Definition no_more (max : option nat) : bool :=
  match max with Some O => true | _ => false end.

Fixpoint rep (cs : cset) (lazy : bool) (min : nat) (max : option nat)
    (k : cont) (n : nat) (prev : option N) (s : jsstring) {struct s}
    : option nat :=
  match min with
  | S m =>
      match s with
      | c :: s' =>
          if accepts cs c && negb (no_more max)
          then rep cs lazy m (Nat.pred <$> max) k (S n) (Some c) s'
          else None
      | [] => None
      end
  | O =>
      if no_more max then k n prev s
      else if lazy then
        match k n prev s with
        | Some r => Some r
        | None =>
            match s with
            | c :: s' =>
                if accepts cs c
                then rep cs lazy O (Nat.pred <$> max) k (S n) (Some c) s'
                else None
            | [] => None
            end
        end
      else
        match
          match s with
          | c :: s' =>
              if accepts cs c
              then rep cs lazy O (Nat.pred <$> max) k (S n) (Some c) s'
              else None
          | [] => None
          end
        with
        | Some r => Some r
        | None => k n prev s
        end
  end.

Definition word_before (prev : option N) : bool :=
  match prev with Some c => is_word c | None => false end.

Definition word_after (s : jsstring) : bool :=
  match s with c :: _ => is_word c | [] => false end.

Definition at_eol (multiline : bool) (s : jsstring) : bool :=
  match s with
  | [] => true
  | c :: _ => multiline && is_line_terminator c
  end.

Definition at_bol (multiline : bool) (prev : option N) : bool :=
  match prev with
  | None => true
  | Some c => multiline && is_line_terminator c
  end.

Fixpoint run (r : regex) (k : cont) (n : nat) (prev : option N)
    (s : jsstring) {struct r} : option nat :=
  match r with
  | Eps => k n prev s
  | Cls cs =>
      match s with
      | c :: s' => if accepts cs c then k (S n) (Some c) s' else None
      | [] => None
      end
  | Seq a b => run a (run b k) n prev s
  | Alt a b =>
      match run a k n prev s with
      | Some r => Some r
      | None => run b k n prev s
      end
  | Rep cs lazy min max => rep cs lazy min max k n prev s
  | Ahead a =>
      match run a (fun m _ _ => Some m) n prev s with
      | Some _ => k n prev s
      | None => None
      end
  | Eol m => if at_eol m s then k n prev s else None
  | Bol m => if at_bol m prev then k n prev s else None
  | WordB => if xorb (word_before prev) (word_after s) then k n prev s else None
  end.

(** Length of the match of [r] that starts at the current position. *)
Definition match_here (r : regex) (prev : option N) (s : jsstring)
    : option nat :=
  run r (fun m _ _ => Some m) O prev s.

(** [RegExp.prototype.test] / a truthy [String.prototype.match] for a
    regular expression without the g flag: is there a match anywhere? *)
Fixpoint search (r : regex) (prev : option N) (s : jsstring) : bool :=
  match match_here r prev s with
  | Some _ => true
  | None =>
      match s with
      | [] => false
      | c :: s' => search r (Some c) s'
      end
  end.

Definition test (r : regex) (s : jsstring) : bool := search r None s.

(** [String.prototype.replace] with a global regular expression and a
    replacer function: matches are found left to right, each search
    resuming where the previous match ended (one code unit further after
    an empty match); [skip] counts the code units of the current match
    still to be dropped. *)
Fixpoint replace_from (r : regex) (f : jsstring -> jsstring) (skip : nat)
    (prev : option N) (s : jsstring) {struct s} : jsstring :=
  match skip with
  | S n =>
      match s with
      | c :: s' => replace_from r f n (Some c) s'
      | [] => []
      end
  | O =>
      match match_here r prev s with
      | Some len =>
          f (take len s) ++
          match s with
          | c :: s' =>
              match len with
              | O => c :: replace_from r f O (Some c) s'
              | S n => replace_from r f n (Some c) s'
              end
          | [] => []
          end
      | None =>
          match s with
          | c :: s' => c :: replace_from r f O (Some c) s'
          | [] => []
          end
      end
  end.

Definition replace (r : regex) (f : jsstring -> jsstring) (s : jsstring)
    : jsstring :=
  replace_from r f O None s.

Definition replace_with (r : regex) (by_ : jsstring) (s : jsstring)
    : jsstring :=
  replace r (fun _ => by_) s.

(** [String.prototype.matchAll] with a global regular expression: every
    match with the index it starts at, left to right. *)
Fixpoint matchAll_from (r : regex) (skip : nat) (i : nat) (prev : option N)
    (s : jsstring) {struct s} : list (jsstring * nat) :=
  match skip with
  | S n =>
      match s with
      | c :: s' => matchAll_from r n (S i) (Some c) s'
      | [] => []
      end
  | O =>
      match match_here r prev s with
      | Some len =>
          (take len s, i) ::
          match s with
          | c :: s' => matchAll_from r (Nat.pred len) (S i) (Some c) s'
          | [] => []
          end
      | None =>
          match s with
          | c :: s' => matchAll_from r O (S i) (Some c) s'
          | [] => []
          end
      end
  end.

Definition matchAll (r : regex) (s : jsstring) : list (jsstring * nat) :=
  matchAll_from r O O None s.

(** *** Pattern syntax *)

Definition chars (s : string) : regex :=
  fold_right (fun c r => Seq (Cls (CChar c)) r) Eps (lit s).

Definition charsI (s : string) : regex :=
  fold_right (fun c r => Seq (Cls (CCharI c)) r) Eps (lit s).

Definition cat (rs : list regex) : regex := fold_right Seq Eps rs.

Fixpoint alt (r : regex) (rs : list regex) : regex :=
  match rs with
  | [] => r
  | r' :: rest => Alt r (alt r' rest)
  end.

Definition star (cs : cset) : regex := Rep cs false 0 None.
Definition plus (cs : cset) : regex := Rep cs false 1 None.
Definition opt (cs : cset) : regex := Rep cs false 0 (Some 1).
Definition lazy_star (cs : cset) : regex := Rep cs true 0 None.
Definition times (cs : cset) (lo hi : nat) : regex := Rep cs false lo (Some hi).
Definition at_least (cs : cset) (lo : nat) : regex := Rep cs false lo None.

End Regex.
Import Regex.

(* ===================================================================== *)
(** ** Text sanitizer *)
(* ===================================================================== *)

Module Sanitizer.

(** The lookahead [(?=\n\n|\n[A-Z]|$)] that ends most removal
    patterns; none of them has the m flag, so [$] is the end of input. *)
Definition block_end : regex :=
  Ahead (alt (Seq (Cls (CChar LF)) (Cls (CChar LF)))
             [Seq (Cls (CChar LF)) (Cls (CRange 65 90)); Eol false]).

(** [/<head>.*?(?=\n\n|\n[A-Z]|$)/gs] *)
Definition to_block_end (head : regex) : regex :=
  cat [head; lazy_star CAny; block_end].

Definition keywords : regex :=
  alt (chars "return")
      [chars "const"; chars "let"; chars "var"; chars "function";
       chars "async"; chars "await"; chars "if"; chars "else"; chars "try";
       chars "catch"; chars "throw"; chars "new"; chars "Error"].

Definition blank : cset := CUnion (CChar SP) (CChar TAB).

(** [/\d+\s+\d+\s+/] followed by [tail]. *)
Definition number_pair (tail : regex) : regex :=
  cat [plus CDigit; plus CSpace; plus CDigit; plus CSpace; tail].

Definition return_kw : regex := chars "return".
Definition return_date : regex := cat [chars "return"; plus CSpace; chars "date:"].

(** The content-removal patterns, in source order; each match is
    replaced by the empty string. *)
Definition removal_rules : list regex :=
  [ (* /src\/lib\/api\.js.*?processCaptureAPI/gs *)
    cat [chars "src/lib/api.js"; lazy_star CAny; chars "processCaptureAPI"];
    (* /src\/.*?\.(js|tsx?)\s*\(\d+:\d+\)/g *)
    cat [chars "src/"; lazy_star CDot; chars ".";
         Alt (chars "js") (Seq (chars "ts") (opt (CChar 120)));
         star CSpace; chars "("; plus CDigit; chars ":"; plus CDigit;
         chars ")"];
    to_block_end (chars "Call Stack");
    to_block_end (chars "async handleProcessCapture");
    (* /if \(response\.ok\)\s*\{.*?\}/gs *)
    cat [chars "if (response.ok)"; star CSpace; chars "{"; lazy_star CAny;
         chars "}"];
    to_block_end (chars "throw new Error");
    to_block_end (chars "Processing failed");
    to_block_end (chars "Capture not found");
    to_block_end (chars "Error details:");
    to_block_end (chars "API call failed:");
    (* /console\.(log|error|warn|info).*?(?=...)/gs *)
    to_block_end
      (Seq (chars "console.")
           (alt (chars "log") [chars "error"; chars "warn"; chars "info"]));
    (* /at \w+.*?(?=...)/gs *)
    to_block_end (Seq (chars "at ") (plus CWord));
    to_block_end (chars "Uncaught");
    number_pair return_date;
    number_pair return_kw;
    number_pair Eps;
    to_block_end return_date;
    (* /\d+\s*\/\s*\d+\s*\/\s*\d+/g *)
    cat [plus CDigit; star CSpace; chars "/"; star CSpace; plus CDigit;
         star CSpace; chars "/"; star CSpace; plus CDigit];
    (* /\b\d{1,3}\s+\d{1,3}\b/g *)
    cat [WordB; times CDigit 1 3; plus CSpace; times CDigit 1 3; WordB];
    (* /\b(return|const|...|Error)\b.*?(?=...)/gs *)
    to_block_end (cat [WordB; keywords; WordB]) ].

(** [/\b\d{4}\b/g] and its replacer: a year in [1900, 2100] is
    kept, any other four-digit number is removed. *)
Definition four_digits : regex := cat [WordB; times CDigit 4 4; WordB].

Definition keep_year (m : jsstring) : jsstring :=
  let year := parseInt m in
  if (1900 <=? year)%N && (year <=? 2100)%N then m else [].

Definition remove_content (s : jsstring) : jsstring :=
  replace four_digits keep_year
    (fold_left (fun acc r => replace_with r [] acc) removal_rules s).

(** The whitespace passes, in source order:
    [/\n{3,}/g], [/[ \t]+$/gm], [/^[ \t]+$/gm], [/\n\s*\n\s*\n/g]. *)
Definition many_newlines : regex := at_least (CChar LF) 3.
Definition trailing_blanks : regex := cat [plus blank; Eol true].
Definition blank_line : regex := cat [Bol true; plus blank; Eol true].
Definition spaced_newlines : regex :=
  cat [Cls (CChar LF); star CSpace; Cls (CChar LF); star CSpace;
       Cls (CChar LF)].

Definition normalize_whitespace (s : jsstring) : jsstring :=
  trim
    (replace_with spaced_newlines [LF; LF]
       (replace_with blank_line []
          (replace_with trailing_blanks []
             (replace_with many_newlines [LF; LF] s)))).

(** [cleanExtractedText]: the argument is a string here, so the guard
    [!rawText || typeof rawText !== "string"] is the empty-string test. *)
Definition cleanExtractedText (rawText : jsstring) : jsstring :=
  match rawText with
  | [] => []
  | _ :: _ => normalize_whitespace (remove_content rawText)
  end.

End Sanitizer.
Import Sanitizer.


(* ===================================================================== *)
(** ** Temporal extractor *)
(* ===================================================================== *)

#[local] Set Warnings "-inexact-float".

Module Temporal.

(** Results of a throwing computation; an error carries its message. *)
Inductive outcome (A : Type) : Type :=
| Ok (a : A)
| Throw (message : jsstring).
Arguments Ok {A} a.
Arguments Throw {A} message.

(** A [Date] as the code observes it: [toISOString] throws a RangeError
    on an invalid date ([None] here). *)
Record JsDate : Type := {
  toISOString : option jsstring;
  toTimeString : jsstring
}.

(** One result of [chrono.parse]: the matched text, where it starts,
    the date of its [start] components, and the hour among them. The
    parser keeps an hour it read in the text as a known value; a result
    in whose text it read none has the hour it implies (noon), so that
    every result has an hour. *)
Record ChronoResult : Type := {
  text : jsstring;
  index : nat;
  start_date : JsDate;
  start_known_hour : option Z;
  start_implied_hour : Z
}.

(** [start.get("hour")]: the known value, else the implied one. *)
Definition start_get_hour (r : ChronoResult) : option Z :=
  match start_known_hour r with
  | Some hour => Some hour
  | None => Some (start_implied_hour r)
  end.

Record ContextEntry : Type := { ctx_text : jsstring; ctx_index : nat }.

(** The [temporalContext] object: its properties in insertion order
    (every key holds a letter, so none is an array index and property
    enumeration follows insertion). *)
Definition context := list (jsstring * ContextEntry).

(** [context[key] = entry]: an existing property keeps its place. *)
Fixpoint context_set (key : jsstring) (entry : ContextEntry) (ctx : context)
    : context :=
  match ctx with
  | [] => [(key, entry)]
  | (k, e) :: rest =>
      if decide (k = key) then (k, entry) :: rest
      else (k, e) :: context_set key entry rest
  end.

Record TemporalInfo : Type := {
  extractedDate : option jsstring;
  extractedTime : option jsstring;
  extractedDatetime : option JsDate;
  confidence : float;
  rawMatches : list (jsstring * nat);
  temporalContext : context
}.

Definition weekdaysI : list regex :=
  [charsI "monday"; charsI "tuesday"; charsI "wednesday"; charsI "thursday";
   charsI "friday"; charsI "saturday"; charsI "sunday"].

(** [TEMPORAL_CONTEXT_PATTERNS], all with the flags gi. *)
Definition TEMPORAL_CONTEXT_PATTERNS : list regex :=
  [ cat [WordB;
         alt (charsI "today")
           [charsI "yesterday"; charsI "tomorrow"; charsI "tonight";
            charsI "this morning"; charsI "this afternoon";
            charsI "this evening"];
         WordB];
    cat [WordB; charsI "last ";
         alt (charsI "week")
           ([charsI "month"; charsI "year"; charsI "night"] ++ weekdaysI);
         WordB];
    cat [WordB; charsI "next ";
         alt (charsI "week") ([charsI "month"; charsI "year"] ++ weekdaysI);
         WordB];
    cat [WordB; plus CDigit; star CSpace;
         alt (Seq (charsI "day") (opt (CCharI 115)))
           [Seq (charsI "week") (opt (CCharI 115));
            Seq (charsI "month") (opt (CCharI 115))];
         star CSpace; Alt (charsI "ago") (charsI "from now"); WordB];
    cat [WordB;
         alt (charsI "morning")
           [charsI "afternoon"; charsI "evening"; charsI "night"];
         star CSpace;
         alt (charsI "pages")
           [charsI "journal"; charsI "notes"; charsI "thoughts";
            charsI "reflection"];
         WordB] ].

(** [match[0].toLowerCase().replace(/\s+/g, "_")]; a match of the
    patterns above holds ASCII letters, digits and white space only, on
    which [toLowerCase] is [ascii_lower]. *)
Definition context_key (m : jsstring) : jsstring :=
  replace_with (plus CSpace) (lit "_") (map ascii_lower m).

Definition extractTemporalContext (text : jsstring) : context :=
  fold_left
    (fun ctx pattern =>
       fold_left
         (fun ctx '(m, i) =>
            context_set (context_key m) {| ctx_text := m; ctx_index := i |} ctx)
         (matchAll pattern text) ctx)
    TEMPORAL_CONTEXT_PATTERNS [].

(** *** Confidence *)

(** [Math.max] and [Math.min] on two numbers. *)
Definition Math_max (a b : float) : float :=
  if is_nan a || is_nan b then nan
  else if (a <? b)%float then b
  else if (b <? a)%float then a
  else if is_zero a then (a + b)%float else a.

Definition Math_min (a b : float) : float :=
  if is_nan a || is_nan b then nan
  else if (a <? b)%float then a
  else if (b <? a)%float then b
  else if is_zero a then (- (- a + - b))%float else a.

Definition month_names : regex :=
  alt (charsI "January")
    [charsI "February"; charsI "March"; charsI "April"; charsI "May";
     charsI "June"; charsI "July"; charsI "August"; charsI "September";
     charsI "October"; charsI "November"; charsI "December"].

(** The five tests of [calculateConfidence] on a chrono result. *)
Definition has_year (r : ChronoResult) : bool :=
  test (times CDigit 4 4) (text r).
Definition has_month_name (r : ChronoResult) : bool :=
  test (cat [WordB; month_names; WordB]) (text r).
Definition has_hour (r : ChronoResult) : bool :=
  match start_get_hour r with Some _ => true | None => false end.
Definition is_short (r : ChronoResult) : bool :=
  (length (text r) <? 5)%nat.
Definition is_relative (r : ChronoResult) : bool :=
  test (cat [WordB;
             alt (charsI "today") [charsI "yesterday"; charsI "tomorrow"];
             WordB]) (text r).

Definition calculateConfidence (chronoResult : ChronoResult) (text : jsstring)
    : float :=
  let confidence := 0.8%float in
  let confidence :=
    if has_year chronoResult then (confidence + 0.1)%float else confidence in
  let confidence :=
    if has_month_name chronoResult then (confidence + 0.05)%float
    else confidence in
  let confidence :=
    if has_hour chronoResult then (confidence + 0.05)%float else confidence in
  let confidence :=
    if is_short chronoResult then (confidence - 0.2)%float else confidence in
  let confidence :=
    if is_relative chronoResult then (confidence - 0.1)%float
    else confidence in
  Math_min 1.0 (Math_max 0.0 confidence).

(** *** [extractTemporalInfo] *)

(** The body of the [try] block once [chrono.parse] has answered; a
    [Throw] is what the [catch] turns into [null]. *)
Definition with_best_match (bestMatch : ChronoResult) (text : jsstring)
    : outcome TemporalInfo :=
  match toISOString (start_date bestMatch) with
  | None => Throw (lit "Invalid time value")
  | Some iso =>
      Ok {| extractedDatetime := Some (start_date bestMatch);
            extractedDate := Some (before 84 iso);
            extractedTime :=
              if has_hour bestMatch
              then Some (before 32 (toTimeString (start_date bestMatch)))
              else None;
            confidence := calculateConfidence bestMatch text;
            rawMatches := [(Temporal.text bestMatch, index bestMatch)];
            temporalContext := [] |}
  end.

Definition no_match : TemporalInfo :=
  {| extractedDate := None; extractedTime := None;
     extractedDatetime := None; confidence := 0%float; rawMatches := [];
     temporalContext := [] |}.

Definition set_context (ctx : context) (r : TemporalInfo) : TemporalInfo :=
  {| extractedDate := extractedDate r; extractedTime := extractedTime r;
     extractedDatetime := extractedDatetime r; confidence := confidence r;
     rawMatches := rawMatches r; temporalContext := ctx |}.

(** [chrono] is [chrono.parse(text, captureDate)] with the reference
    date already supplied. *)
Definition extractTemporalInfo
    (chrono : jsstring -> outcome (list ChronoResult)) (text : jsstring)
    : option TemporalInfo :=
  match text with
  | [] => None
  | _ :: _ =>
      match chrono text with
      | Throw _ => None
      | Ok chronoResults =>
          let found :=
            match chronoResults with
            | bestMatch :: _ => with_best_match bestMatch text
            | [] => Ok no_match
            end in
          match found with
          | Throw _ => None
          | Ok results =>
              let results := set_context (extractTemporalContext text) results in
              if truthy (extractedDate results)
                 || truthy (extractedTime results)
                 || (0 <? length (temporalContext results))%nat
              then Some results else None
          end
      end
  end.

End Temporal.
Import Temporal.

(* ===================================================================== *)
(** ** Text combiner *)
(* ===================================================================== *)

Module Combiner.

(** [parts.push(x)] when the condition holds. *)
Definition push_if (cond : bool) (x : jsstring) (parts : list jsstring)
    : list jsstring :=
  if cond then parts ++ [x] else parts.

(** [note] and [extractedText] may be null or undefined; [tags] and
    [temporalContext] default to the empty array and the empty object
    when undefined and may be null ([None] covers both, as both leave the
    section out). *)
Definition combineTextForEmbedding (note extractedText : option jsstring)
    (tags : option (list jsstring)) (temporalContext : option context)
    : jsstring :=
  let parts := [] in
  let parts :=
    push_if (truthy note && truthy (trim <$> note))
      (lit "Note: " ++ trim (default [] note)) parts in
  let parts :=
    push_if (truthy extractedText && truthy (trim <$> extractedText))
      (lit "Content: " ++ trim (default [] extractedText)) parts in
  let parts :=
    push_if (match tags with Some ts => (0 <? length ts)%nat | None => false end)
      (lit "Tags: " ++ join (lit ", ") (default [] tags)) parts in
  let parts :=
    push_if (match temporalContext with
             | Some ctx => (0 <? length ctx)%nat
             | None => false
             end)
      (lit "Temporal context: " ++
       join (lit " ") (map (fun kv => ctx_text (snd kv)) (default [] temporalContext)))
      parts in
  join [LF; LF] parts.

End Combiner.
Import Combiner.

(* ===================================================================== *)
(** ** Capture processing state machine *)
(* ===================================================================== *)

Module Pipeline.

(** Values of the columns of a capture record. *)
Inductive value : Type :=
| VStr (s : jsstring)
| VNum (x : float)
| VVector (v : list float)
| VContext (c : context)
| VTags (ts : list jsstring)
| VNull.

(** What the storage answers to [supabase.from("captures").update(..)]:
    the write is applied, or the call resolves with [{ error }], or the
    promise rejects. A write that is not accepted leaves the record as
    it was. *)
Inductive reply : Type :=
| Accepted
| Refused (message : jsstring)
| Rejected (message : jsstring).

(** The external collaborators of one invocation. *)
Record Env : Type := {
  db_update : nat -> reply;          (* answer to the n-th update call *)
  textDetection : jsstring -> outcome (list (option jsstring));
                                     (* descriptions of the annotations *)
  chrono_parse : jsstring -> jsstring -> outcome (list ChronoResult);
  embeddings_create : jsstring -> outcome (list float);
  now : nat -> jsstring              (* n-th [new Date().toISOString()] *)
}.

(** The capture record, the update calls issued so far (oldest first)
    and the number of clock readings. *)
Record World : Type := {
  row : gmap string value;
  updates : list (gmap string value);
  dates : nat
}.

(** State and exceptions. *)
Definition M (A : Type) : Type := World -> outcome A * World.

Definition ret {A} (a : A) : M A := fun w => (Ok a, w).
Definition throw {A} (e : jsstring) : M A := fun w => (Throw e, w).
Definition bind {A B} (m : M A) (k : A -> M B) : M B :=
  fun w =>
    match m w with
    | (Ok a, w') => k a w'
    | (Throw e, w') => (Throw e, w')
    end.
Definition try_catch {A} (m : M A) (handler : jsstring -> M A) : M A :=
  fun w =>
    match m w with
    | (Ok a, w') => (Ok a, w')
    | (Throw e, w') => handler e w'
    end.

Notation "'let!' x ':=' m 'in' k" := (bind m (fun x => k))
  (at level 10, x name, m at level 200, k at level 200).

Definition new_Date (env : Env) : M jsstring :=
  fun w =>
    (Ok (now env (dates w)),
     {| row := row w; updates := updates w; dates := S (dates w) |}).

(** [await supabase.from("captures").update(patch).eq("id", captureId)]:
    the result is the [error] field of the answer. Only the listed
    columns change. *)
Definition update (env : Env) (patch : gmap string value)
    : M (option jsstring) :=
  fun w =>
    let issued := updates w ++ [patch] in
    match db_update env (length (updates w)) with
    | Accepted =>
        (Ok None,
         {| row := patch ∪ row w; updates := issued; dates := dates w |})
    | Refused e =>
        (Ok (Some e), {| row := row w; updates := issued; dates := dates w |})
    | Rejected e =>
        (Throw e, {| row := row w; updates := issued; dates := dates w |})
    end.

Definition lift {A} (o : outcome A) : M A := fun w => (o, w).

(** [textDetection] answers the descriptions of the text annotations
    (none when the image holds no text). *)
Definition extractTextFromImage
    (textDetection : jsstring -> outcome (list (option jsstring)))
    (imageUrl : option jsstring) : outcome jsstring :=
  match imageUrl with
  | Some (c :: u) =>
      match textDetection (c :: u) with
      | Throw e => Throw (lit "Google Vision OCR failed: " ++ e)
      | Ok [] => Ok []
      | Ok (Some fullText :: _) => Ok (cleanExtractedText fullText)
      | Ok (None :: _) => Ok []
      end
  | _ => Throw (lit "No image URL provided")
  end.

Definition generateEmbedding
    (embeddings_create : jsstring -> outcome (list float)) (text : jsstring)
    : outcome (list float) :=
  if (length (trim text) =? 0)%nat
  then Throw (lit "No text provided for embedding generation")
  else
    match embeddings_create (take (N.to_nat 8000) text) with
    | Throw e => Throw (lit "Embedding generation failed: " ++ e)
    | Ok embedding => Ok embedding
    end.

Record Result : Type := {
  success : bool;
  result_text : jsstring;
  hasEmbedding : bool;
  result_temporal : option TemporalInfo
}.

(** [[note, extractedText].filter(Boolean)] *)
Definition filter_Boolean (parts : list (option jsstring)) : list jsstring :=
  omap (fun p => if truthy p then p else None) parts.

Definition number_truthy (x : float) : bool := negb (is_zero x || is_nan x).

Definition set_if (cond : bool) (column : string) (v : value)
    (data : gmap string value) : gmap string value :=
  if cond then <[column := v]> data else data.

(** The temporal columns added to [updateData]; [toISOString] of the
    extracted datetime may throw. *)
Definition add_temporal (temporalInfo : option TemporalInfo)
    (updateData : gmap string value) : M (gmap string value) :=
  match temporalInfo with
  | None => ret updateData
  | Some info =>
      let updateData :=
        set_if (truthy (extractedDate info)) "extracted_date"
          (VStr (default [] (extractedDate info))) updateData in
      let updateData :=
        set_if (truthy (extractedTime info)) "extracted_time"
          (VStr (default [] (extractedTime info))) updateData in
      let! updateData :=
        match extractedDatetime info with
        | None => ret updateData
        | Some d =>
            match toISOString d with
            | Some iso => ret (<["extracted_datetime" := VStr iso]> updateData)
            | None => throw (lit "Invalid time value")
            end
        end in
      let updateData :=
        set_if (number_truthy (confidence info)) "date_confidence"
          (VNum (confidence info)) updateData in
      ret (set_if (0 <? length (temporalContext info))%nat "temporal_context"
             (VContext (temporalContext info)) updateData)
  end.

Definition processing_patch : gmap string value :=
  {[ "processing_status" := VStr (lit "processing") ]}.

Definition failed_patch (processed_at : jsstring) : gmap string value :=
  <["processing_status" := VStr (lit "failed")]>
    {[ "processed_at" := VStr processed_at ]}.

Definition processCapture (env : Env) (imageUrl note : option jsstring)
    (tags : option (list jsstring)) : M Result :=
  try_catch
    (let! updateError := update env processing_patch in
     let! _ :=
       match updateError with
       | Some e => throw (lit "Failed to update processing status: " ++ e)
       | None => ret tt
       end in
     (* Step 1 *)
     let! extractedText :=
       (if truthy imageUrl
        then lift (extractTextFromImage (textDetection env) imageUrl)
        else ret []) in
     (* Step 2 *)
     let allText :=
       join [LF; LF] (filter_Boolean [note; Some extractedText]) in
     let! captureDate := new_Date env in
     let temporalInfo :=
       extractTemporalInfo (fun t => chrono_parse env t captureDate) allText in
     (* Step 3 *)
     let combinedText :=
       combineTextForEmbedding note (Some extractedText) tags
         (temporalContext <$> temporalInfo) in
     (* Step 4 *)
     let! embedding :=
       (if (0 <? length (trim combinedText))%nat
        then try_catch
               (let! e := lift (generateEmbedding (embeddings_create env)
                                  combinedText) in
                ret (Some e))
               (fun _ => ret None)
        else ret None) in
     (* Step 5 *)
     let! processed_at := new_Date env in
     let updateData : gmap string value :=
       <["extracted_text" := VStr extractedText]>
         (<["processing_status" := VStr (lit "completed")]>
            {[ "processed_at" := VStr processed_at ]}) in
     let updateData :=
       match embedding with
       | Some e => <["embedding" := VVector e]> updateData
       | None => updateData
       end in
     let! updateData := add_temporal temporalInfo updateData in
     let! error := update env updateData in
     match error with
     | Some e => throw e
     | None =>
         ret {| success := true; result_text := extractedText;
                hasEmbedding := bool_decide (is_Some embedding);
                result_temporal := temporalInfo |}
     end)
    (fun error =>
       let! processed_at := new_Date env in
       let! _ := update env (failed_patch processed_at) in
       throw error).

End Pipeline.
Import Pipeline.

(* ===================================================================== *)
(** ** Hybrid search *)
(* ===================================================================== *)

(** Relevance scores, similarities and the threshold are JavaScript
    numbers, that is doubles; the limits are integers, and an integer
    enters the arithmetic as the double nearest to it. *)
Module Search.

(** [Number(z)] for an integer [z]: exact below [2^53] in absolute
    value, rounded to nearest above, infinite from [2^1024] on. *)
Definition to_number (z : Z) : float :=
  SF2Prim (binary_normalize prec emax z 0 false).

Record Capture : Type := {
  id : jsstring;
  columns : gmap string value
}.

(** A row answered by the [match_captures] procedure. *)
Record SemanticHit : Type := {
  hit : Capture;
  similarity : float
}.

Inductive SearchType : Type := semantic | fulltext.

(** An entry of the merged list: the row it was spread from
    ([from_similarity] is the row's own [similarity] property, present on
    semantic rows only) with [searchType] and [relevanceScore] added. *)
Record SearchResult : Type := {
  capture : Capture;
  from_similarity : option float;
  searchType : SearchType;
  relevanceScore : float
}.

(** [first_failure] is, of two searches that both fail after their
    requests were sent, the one whose rejection settles first. *)
Record SearchEnv : Type := {
  embed_query : jsstring -> outcome (list float);
  match_captures :
    list float -> float -> Z -> jsstring -> outcome (list SemanticHit);
  textSearch : jsstring -> jsstring -> outcome (list Capture);
  first_failure : jsstring -> jsstring -> SearchType
}.

Record Options : Type := {
  semanticLimit : option Z;
  fullTextLimit : option Z;
  semanticThreshold : option float
}.

Definition semanticSearch (env : SearchEnv) (query userId : jsstring)
    (limit : Z) (threshold : float) : outcome (list SemanticHit) :=
  match generateEmbedding (embed_query env) query with
  | Throw e => Throw (lit "Semantic search failed: " ++ e)
  | Ok queryEmbedding =>
      match match_captures env queryEmbedding threshold limit userId with
      | Throw e => Throw (lit "Semantic search failed: " ++ e)
      | Ok data => Ok data
      end
  end.

Definition fullTextSearch (env : SearchEnv) (query userId : jsstring)
    : outcome (list Capture) :=
  match textSearch env query userId with
  | Throw e => Throw (lit "Full-text search failed: " ++ e)
  | Ok data => Ok data
  end.

(** A [Map] keyed by capture id, in insertion order. *)
Definition Map := list (jsstring * SearchResult).

Definition Map_has (key : jsstring) (m : Map) : bool :=
  existsb (fun kv => bool_decide (fst kv = key)) m.

(** [Map.prototype.set]: an existing key keeps its place. *)
Fixpoint Map_set (key : jsstring) (v : SearchResult) (m : Map) : Map :=
  match m with
  | [] => [(key, v)]
  | (k, old) :: rest =>
      if decide (k = key) then (k, v) :: rest
      else (k, old) :: Map_set key v rest
  end.

Definition Map_values (m : Map) : list SearchResult := map snd m.

(** [Array.prototype.slice(0, n)] for an integer [n]: a negative [n]
    counts from the end. *)
Definition slice_to {A} (n : Z) (l : list A) : list A :=
  if (n <? 0)%Z then take (Z.to_nat (Z.max (Z.of_nat (length l) + n) 0)) l
  else take (Z.to_nat n) l.

(** [Array.prototype.sort] with a comparator: [a] stays before [b]
    unless [cmp a b > 0] (a comparator that answers NaN answers [+0]);
    the sort is stable. With a comparator that is not consistent, which
    here takes a NaN score, the language leaves the order to the
    implementation. *)
Fixpoint sort_insert {A} (cmp : A -> A -> float) (x : A) (l : list A)
    : list A :=
  match l with
  | [] => [x]
  | y :: l' =>
      if (0 <? cmp x y)%float then y :: sort_insert cmp x l' else x :: l
  end.

Definition Array_sort {A} (cmp : A -> A -> float) (l : list A) : list A :=
  fold_right (sort_insert cmp) [] l.

(** The comparator of the final sort:
    [(a, b) => b.relevanceScore - a.relevanceScore]. *)
Definition relevance_cmp (a b : SearchResult) : float :=
  (relevanceScore b - relevanceScore a)%float.

Definition add_semantic (combinedResults : Map) (result : SemanticHit) : Map :=
  Map_set (id (hit result))
    {| capture := hit result;
       from_similarity := Some (similarity result);
       searchType := semantic;
       relevanceScore := similarity result |}
    combinedResults.

Definition add_fulltext (fullTextLimit : Z) (combinedResults : Map)
    (entry : nat * Capture) : Map :=
  let '(index, result) := entry in
  if Map_has (id result) combinedResults then combinedResults
  else
    Map_set (id result)
      {| capture := result;
         from_similarity := None;
         searchType := fulltext;
         relevanceScore :=
           (1 - to_number (Z.of_nat index) / to_number fullTextLimit)%float |}
      combinedResults.

(** The body of [hybridSearch] once both searches have answered. *)
Definition merge (fullTextLimit : Z) (semanticResults : list SemanticHit)
    (fullTextResults : list Capture) : list SearchResult :=
  let combinedResults := fold_left add_semantic semanticResults [] in
  let combinedResults :=
    fold_left (add_fulltext fullTextLimit)
      (imap (fun index result => (index, result))
         (slice_to fullTextLimit fullTextResults))
      combinedResults in
  Array_sort relevance_cmp (Map_values combinedResults).

(** [Promise.all] rejects with the rejection that settles first. A
    blank query makes the semantic search reject before any request is
    sent, so that its rejection comes first; otherwise, when both
    searches fail, the environment tells which rejection does. *)
Definition hybridSearch (env : SearchEnv) (query userId : jsstring)
    (options : Options) : outcome (list SearchResult) :=
  let semanticLimit := default 5%Z (semanticLimit options) in
  let fullTextLimit := default 5%Z (fullTextLimit options) in
  let semanticThreshold := default 0.7%float (semanticThreshold options) in
  match semanticSearch env query userId semanticLimit semanticThreshold,
        fullTextSearch env query userId with
  | Ok semanticResults, Ok fullTextResults =>
      Ok (merge fullTextLimit semanticResults fullTextResults)
  | Throw e, Ok _ => Throw (lit "Hybrid search failed: " ++ e)
  | Ok _, Throw e => Throw (lit "Hybrid search failed: " ++ e)
  | Throw semanticError, Throw fullTextError =>
      if (length (trim query) =? 0)%nat
      then Throw (lit "Hybrid search failed: " ++ semanticError)
      else
        match first_failure env query userId with
        | semantic => Throw (lit "Hybrid search failed: " ++ semanticError)
        | fulltext => Throw (lit "Hybrid search failed: " ++ fullTextError)
        end
  end.

End Search.
Import Search.

(* ===================================================================== *)
(** ** The processing endpoint ([pages/api/process-capture.js]) *)
(* ===================================================================== *)

(** The request carries its method and the two fields the handler reads
    from the JSON body, each a string when present. The [captures] table
    is the record of [World]; the query [.eq("id", ..).eq("user_id", ..)
    .single()] finds it when both columns agree. The stack trace the
    handler adds to an internal error in development is not represented. *)
Module Endpoint.

Record Request : Type := {
  method : jsstring;
  body_captureId : option jsstring;
  body_userId : option jsstring
}.

(** The JSON object of a response: the properties the handler sets. *)
Record Json : Type := {
  json_success : option bool;
  json_error : option jsstring;
  json_details : option jsstring;
  json_message : option jsstring;
  json_status : option jsstring;
  json_captureId : option jsstring;
  json_userId : option jsstring;
  json_extractedText : option value;
  json_hasEmbedding : option bool;
  json_temporalInfo : option TemporalInfo
}.

Record Response : Type := {
  statusCode : nat;
  json : Json
}.

Definition no_properties : Json :=
  {| json_success := None; json_error := None; json_details := None;
     json_message := None; json_status := None; json_captureId := None;
     json_userId := None; json_extractedText := None;
     json_hasEmbedding := None; json_temporalInfo := None |}.

(** [{ error }] *)
Definition error_object (error : jsstring) : Json :=
  {| json_success := None; json_error := Some error; json_details := None;
     json_message := None; json_status := None; json_captureId := None;
     json_userId := None; json_extractedText := None;
     json_hasEmbedding := None; json_temporalInfo := None |}.

(** The storage answers the query ([Accepted]), resolves it with an
    error, or rejects; [no_rows] is the message of its error when no
    single row matches. *)
Record ApiEnv : Type := {
  pipeline : Env;
  select_single : reply;
  no_rows : jsstring
}.

Record Fetched : Type := {
  data : option (gmap string value);
  fetchError : option jsstring        (* the message of the error *)
}.

(** [v === s] for a column value. *)
Definition is_string (v : option value) (s : jsstring) : bool :=
  match v with
  | Some (VStr t) => bool_decide (t = s)
  | _ => false
  end.

Definition single (api : ApiEnv) (captureId userId : jsstring) : M Fetched :=
  fun w =>
    match select_single api with
    | Rejected e => (Throw e, w)
    | Refused e => (Ok {| data := None; fetchError := Some e |}, w)
    | Accepted =>
        if is_string (row w !! "id") captureId
           && is_string (row w !! "user_id") userId
        then (Ok {| data := Some (row w); fetchError := None |}, w)
        else (Ok {| data := None; fetchError := Some (no_rows api) |}, w)
    end.

(** [!!v] for a column value. *)
Definition value_truthy (v : option value) : bool :=
  match v with
  | None | Some VNull => false
  | Some (VStr s) => truthy (Some s)
  | Some (VNum x) => number_truthy x
  | Some (VVector _) | Some (VContext _) | Some (VTags _) => true
  end.

(** A text column: a string or null. *)
Definition text_column (capture : gmap string value) (column : string)
    : option jsstring :=
  match capture !! column with
  | Some (VStr s) => Some s
  | _ => None
  end.

Definition tags_column (capture : gmap string value)
    : option (list jsstring) :=
  match capture !! "tags" with
  | Some (VTags ts) => Some ts
  | _ => None
  end.

(** [res.status(code).json(body)] *)
Definition respond (code : nat) (body : Json) : M Response :=
  ret {| statusCode := code; json := body |}.

Definition handler (api : ApiEnv) (req : Request) : M Response :=
  if negb (bool_decide (method req = lit "POST"))
  then respond 405 (error_object (lit "Method not allowed"))
  else
    try_catch
      (let captureId := body_captureId req in
       let userId := body_userId req in
       if negb (truthy captureId)
       then respond 400 (error_object (lit "Capture ID is required"))
       else if negb (truthy userId)
       then respond 400 (error_object (lit "User ID is required"))
       else
         let! fetched :=
           single api (default [] captureId) (default [] userId) in
         match fetchError fetched, data fetched with
         | None, Some capture =>
             if is_string (capture !! "processing_status") (lit "completed")
             then
               respond 200
                 {| json_success := Some true; json_error := None;
                    json_details := None;
                    json_message := Some (lit "Capture already processed");
                    json_status := None; json_captureId := captureId;
                    json_userId := None;
                    json_extractedText := capture !! "extracted_text";
                    json_hasEmbedding :=
                      Some (value_truthy (capture !! "embedding"));
                    json_temporalInfo := None |}
             else if is_string (capture !! "processing_status")
                       (lit "processing")
             then
               respond 202
                 {| json_success := Some false; json_error := None;
                    json_details := None;
                    json_message :=
                      Some (lit "Capture is currently being processed");
                    json_status := Some (lit "processing");
                    json_captureId := captureId; json_userId := None;
                    json_extractedText := None; json_hasEmbedding := None;
                    json_temporalInfo := None |}
             else
               let! result :=
                 processCapture (pipeline api)
                   (text_column capture "media_url")
                   (text_column capture "note") (tags_column capture) in
               respond 200
                 {| json_success := Some true; json_error := None;
                    json_details := None; json_message := None;
                    json_status := None; json_captureId := captureId;
                    json_userId := None;
                    json_extractedText := Some (VStr (result_text result));
                    json_hasEmbedding := Some (hasEmbedding result);
                    json_temporalInfo := result_temporal result |}
         | fetchError, _ =>
             respond 404
               {| json_success := None;
                  json_error := Some (lit "Capture not found");
                  json_details :=
                    Some (if truthy fetchError then default [] fetchError
                          else lit "No capture found with the given ID and user ID");
                  json_message := None; json_status := None;
                  json_captureId := captureId; json_userId := userId;
                  json_extractedText := None; json_hasEmbedding := None;
                  json_temporalInfo := None |}
         end)
      (fun error =>
         respond 500
           {| json_success := None;
              json_error := Some (lit "Processing failed");
              json_details := Some error; json_message := None;
              json_status := None; json_captureId := None;
              json_userId := None; json_extractedText := None;
              json_hasEmbedding := None; json_temporalInfo := None |}).

End Endpoint.
Import Endpoint.

(* ===================================================================== *)
(** ** The client of the endpoint ([lib/api.js]) *)
(* ===================================================================== *)

(** [fetch] is the round trip to the endpoint with the method [POST] and
    the body [{ captureId, userId }]: it answers a response, or rejects
    (the network fails, the body is not JSON). *)
Module Client.

(** [response.ok] *)
Definition ok (response : Response) : bool :=
  (200 <=? statusCode response)%nat && (statusCode response <=? 299)%nat.

(** [a || b] on strings *)
Definition or_else (a : option jsstring) (b : jsstring) : jsstring :=
  if truthy a then default [] a else b.

Definition processCaptureAPI
    (fetch : jsstring -> jsstring -> outcome Response)
    (captureId userId : jsstring) : outcome Json :=
  match fetch captureId userId with
  | Throw e => Throw e
  | Ok response =>
      let data := json response in
      if negb (ok response)
      then Throw (or_else (json_error data)
                    (or_else (json_details data) (lit "Processing failed")))
      else Ok data
  end.

(** The answer to the query for the pending captures: their ids. *)
Record PendingQuery : Type := {
  pendingCaptures : option (list jsstring);
  query_error : option jsstring
}.

Record Entry : Type := {
  entry_captureId : jsstring;
  entry_success : bool;
  entry_error : option jsstring
}.

Record Report : Type := {
  processed : nat;
  failed : option nat;
  total : option nat;
  report_message : option jsstring;
  results : list Entry
}.

Definition fulfilled {A} (r : outcome A) : bool :=
  match r with Ok _ => true | Throw _ => false end.

(** [call id] stands for [processCaptureAPI(id, userId)];
    [Promise.allSettled] keeps every outcome, in the order of the ids. *)
Definition processAllPendingCaptures (query : outcome PendingQuery)
    (call : jsstring -> outcome Json) : outcome Report :=
  match query with
  | Throw e => Throw e
  | Ok q =>
      match query_error q with
      | Some e => Throw e
      | None =>
          match pendingCaptures q with
          | None | Some [] =>
              Ok {| processed := 0; failed := None; total := None;
                    report_message :=
                      Some (lit "No pending captures to process");
                    results := [] |}
          | Some pendingCaptures =>
              let settled := map call pendingCaptures in
              let successful := length (filter (λ r, fulfilled r = true) settled) in
              let failed := length (filter (λ r, fulfilled r = false) settled) in
              Ok {| processed := successful; failed := Some failed;
                    total := Some (length pendingCaptures);
                    report_message := None;
                    results :=
                      imap (fun index result =>
                              {| entry_captureId :=
                                   default [] (pendingCaptures !! index);
                                 entry_success := fulfilled result;
                                 entry_error :=
                                   match result with
                                   | Throw reason => Some reason
                                   | Ok _ => None
                                   end |})
                        settled |}
          end
      end
  end.

End Client.
Import Client.

(* ===================================================================== *)
(** ** The tags of a new capture ([App.tsx], [saveCapture]) *)
(* ===================================================================== *)

Module App.

Definition COMMA : N := 44.

(** [s.split(",")] *)
Fixpoint split (sep : N) (s : jsstring) : list jsstring :=
  match s with
  | [] => [[]]
  | c :: s' =>
      if (c =? sep)%N then [] :: split sep s'
      else
        match split sep s' with
        | piece :: pieces => (c :: piece) :: pieces
        | [] => [[c]]
        end
  end.

(** [tags.split(",").map((tag) => tag.trim()).filter(Boolean)] *)
Definition parse_tags (tags : jsstring) : list jsstring :=
  filter_Boolean (map (fun tag => Some (trim tag)) (split COMMA tags)).

End App.
Import App.

(* ===================================================================== *)
(** ** Specification-side definitions *)
(* ===================================================================== *)

(** The value a [Map] holds for a key. *)
Fixpoint Map_get (key : jsstring) (m : Map) : option SearchResult :=
  match m with
  | [] => None
  | (k, v) :: rest => if decide (k = key) then Some v else Map_get key rest
  end.

(** The entry a semantic row is stored as. *)
Definition semantic_entry (r : SemanticHit) : SearchResult :=
  {| capture := hit r; from_similarity := Some (similarity r);
     searchType := semantic; relevanceScore := similarity r |}.

(** The entry a full-text row of rank [i] is stored as. *)
Definition fulltext_entry (fullTextLimit : Z) (i : nat) (c : Capture)
    : SearchResult :=
  {| capture := c; from_similarity := None; searchType := fulltext;
     relevanceScore :=
       (1 - to_number (Z.of_nat i) / to_number fullTextLimit)%float |}.

(** The full-text rows the merge looks at, each with its rank. *)
Definition ranked (fullTextLimit : Z) (fullTextResults : list Capture)
    : list (nat * Capture) :=
  imap (fun index result => (index, result))
    (slice_to fullTextLimit fullTextResults).

(** What the merged list holds for a capture id: the last semantic row
    with that id, or else the first full-text row with it among those the
    merge looks at. *)
Definition merged_entry (fullTextLimit : Z) (sem : list SemanticHit)
    (ft : list Capture) (key : jsstring) : option SearchResult :=
  match last (filter (λ r, id (hit r) = key) sem) with
  | Some r => Some (semantic_entry r)
  | None =>
      (λ e : nat * Capture, fulltext_entry fullTextLimit e.1 e.2) <$>
      head (filter (λ e : nat * Capture, id e.2 = key) (ranked fullTextLimit ft))
  end.

(** The columns step 6 of the algorithm persists, as the specification
    lists them: the extracted text (always), the status [completed], the
    processed timestamp, the embedding (only if produced) and each temporal
    field (only if the temporal extractor produced it). *)
Definition produced_text (s : option jsstring) : option value :=
  match s with
  | Some (c :: s') => Some (VStr (c :: s'))
  | _ => None
  end.










(** The sections of the specification's combiner: a source that is
    absent or empty gives no section. *)
Definition present_text (s : option jsstring) : option jsstring :=
  match s with
  | Some t => match trim t with [] => None | c :: t' => Some (c :: t') end
  | None => None
  end.

Definition present_list {A} (l : option (list A)) : option (list A) :=
  match l with
  | Some (x :: l') => Some (x :: l')
  | _ => None
  end.

Definition labeled (label : string) (content : option jsstring)
    : option jsstring :=
  (λ c, lit label ++ c) <$> content.

Definition spec_sections (note extractedText : option jsstring)
    (tags : option (list jsstring)) (temporalContext : option context)
    : list (option jsstring) :=
  [ labeled "Note: " (present_text note);
    labeled "Content: " (present_text extractedText);
    labeled "Tags: " (join (lit ", ") <$> present_list tags);
    labeled "Temporal context: "
      ((λ ctx : context, join (lit " ") (map (λ kv, ctx_text (snd kv)) ctx))
       <$> present_list temporalContext) ].

(** *** Measures of white space

    The quantities the white-space passes are described by: the length of
    the run of characters of a class at the head of a text, the number of
    line feeds in its leading white-space run and the place of the last
    one, and the two properties the passes establish. *)

Definition is_blank (c : N) : bool := accepts blank c.
Definition is_LF (c : N) : bool := accepts (CChar LF) c.

Fixpoint lead (p : N → bool) (s : jsstring) : nat :=
  match s with
  | c :: s' => if p c then S (lead p s') else 0
  | [] => 0
  end.

Fixpoint lf_count (s : jsstring) : nat :=
  match s with
  | c :: s' =>
      if is_space c then (if is_LF c then 1 else 0) + lf_count s' else 0
  | [] => 0
  end.

Fixpoint last_lf (s : jsstring) : option nat :=
  match s with
  | c :: s' =>
      if is_space c then
        match last_lf s' with
        | Some j => Some (S j)
        | None => if is_LF c then Some 0 else None
        end
      else None
  | [] => None
  end.

(** No blank or tab stands in front of a line terminator or of the end. *)
Fixpoint trail_free (s : jsstring) : bool :=
  match s with
  | [] => true
  | c :: s' => negb (is_blank c && at_eol true s') && trail_free s'
  end.

(** No line feed is followed, within white space, by two more. *)
Fixpoint sparse (s : jsstring) : bool :=
  match s with
  | [] => true
  | c :: s' => negb (is_LF c && (2 <=? lf_count s')) && sparse s'
  end.

(** A pattern whose matches do not look at the preceding character. *)
Definition prev_free (r : regex) : Prop :=
  ∀ p1 p2 s, match_here r p1 s = match_here r p2 s.

(** *** Concrete inputs *)

(** The rendered text of the end-to-end scenario. *)
Definition invoice_text : jsstring :=
  lit "Invoice #1023" ++ [LF] ++ lit "Date: 03/14/2024" ++ [LF]
  ++ lit "Total: $45.00".

(** A text whose sanitized form still holds a number pair. *)
Definition number_pair_text : jsstring :=
  lit "12 if foo" ++ [LF; LF] ++ lit "34 x".

Definition march_date : JsDate :=
  {| toISOString := Some (lit "2024-03-03T12:00:00.000Z");
     toTimeString := lit "12:00:00 GMT+0000 (Coordinated Universal Time)" |}.

Definition march_match : ChronoResult :=
  {| text := lit "March 3, 2024"; index := 9; start_date := march_date;
     start_known_hour := None; start_implied_hour := 12 |}.

Definition demo_capture (name : string) : Capture :=
  {| id := lit name; columns := ∅ |}.

Definition demo_semantic : list SemanticHit :=
  [ {| hit := demo_capture "a"; similarity := 0.9 |};
    {| hit := demo_capture "b"; similarity := 0.75 |} ].

Definition demo_fulltext : list Capture :=
  [ demo_capture "b"; demo_capture "c"; demo_capture "d" ].

Definition demo_search : SearchEnv :=
  {| embed_query := λ _, Ok [];
     match_captures := λ _ _ _ _, Ok demo_semantic;
     textSearch := λ _ _, Ok demo_fulltext;
     first_failure := λ _ _, semantic |}.

Definition demo_options : Options :=
  {| semanticLimit := None; fullTextLimit := Some 2%Z;
     semanticThreshold := None |}.

(** A search in which only the text search finds rows, and the limits
    [-1] that a caller may pass (the search endpoint does for
    [limit = -2]). *)
Definition three_rows : list Capture :=
  [demo_capture "p"; demo_capture "q"; demo_capture "r"].

Definition text_only_search : SearchEnv :=
  {| embed_query := λ _, Ok [];
     match_captures := λ _ _ _ _, Ok [];
     textSearch := λ _ _, Ok three_rows;
     first_failure := λ _ _, semantic |}.

Definition negative_options : Options :=
  {| semanticLimit := Some (-1)%Z; fullTextLimit := Some (-1)%Z;
     semanticThreshold := None |}.

(** A capture that was processed before: it holds a text and an
    embedding. *)
Definition demo_world : World :=
  {| row :=
       <["processing_status" := VStr (lit "failed")]>
         (<["extracted_text" := VStr (lit "old text")]>
            {[ "embedding" := VVector [0.5%float] ]});
     updates := []; dates := 0 |}.

Definition demo_clock (n : nat) : jsstring :=
  lit "2024-03-14T09:00:0" ++ [(48 + N.of_nat n)%N] ++ lit ".000Z".

(** OCR fails; the storage accepts every write. *)
Definition ocr_down : Env :=
  {| db_update := λ _, Accepted;
     textDetection := λ _, Throw (lit "quota exceeded");
     chrono_parse := λ _ _, Ok [];
     embeddings_create := λ _, Ok [];
     now := demo_clock |}.

(** OCR reads the invoice; the embedding service fails. *)
Definition embedding_down : Env :=
  {| db_update := λ _, Accepted;
     textDetection := λ _, Ok [Some invoice_text];
     chrono_parse := λ _ _, Ok [];
     embeddings_create := λ _, Throw (lit "rate limited");
     now := demo_clock |}.

(** The storage refuses the first write and accepts the later ones. *)
Definition first_write_refused : Env :=
  {| db_update := λ n, match n with O => Refused (lit "timeout") | _ => Accepted end;
     textDetection := λ _, Ok [];
     chrono_parse := λ _ _, Ok [];
     embeddings_create := λ _, Ok [];
     now := demo_clock |}.

(** The temporal columns, each only if the extractor produced it. *)
Definition temporal_value (info : option TemporalInfo) (column : string)
    : option value :=
  match info with
  | None => None
  | Some i =>
      if decide (column = "extracted_date")
      then produced_text (extractedDate i)
      else if decide (column = "extracted_time")
      then produced_text (extractedTime i)
      else if decide (column = "extracted_datetime")
      then
        match extractedDatetime i with
        | Some d => VStr <$> toISOString d
        | None => None
        end
      else if decide (column = "date_confidence")
      then
        if number_truthy (confidence i) then Some (VNum (confidence i))
        else None
      else if decide (column = "temporal_context")
      then
        match temporalContext i with
        | [] => None
        | ctx => Some (VContext ctx)
        end
      else None
  end.

Definition step6_value (text processed_at : jsstring)
    (embedding : option (list float)) (info : option TemporalInfo)
    (column : string) : option value :=
  if decide (column = "extracted_text") then Some (VStr text)
  else if decide (column = "processing_status")
  then Some (VStr (lit "completed"))
  else if decide (column = "processed_at") then Some (VStr processed_at)
  else if decide (column = "embedding") then VVector <$> embedding
  else temporal_value info column.

(** The text OCR yields for a capture: empty when there is no image. *)
Definition ocr_text (env : Env) (imageUrl : option jsstring) : outcome jsstring :=
  if truthy imageUrl then extractTextFromImage (textDetection env) imageUrl
  else Ok [].

(** The temporal information [processCapture] derives once OCR has
    yielded [text], the clock reading [captureDate] being the reference. *)
Definition temporal_of (env : Env) (note : option jsstring) (text : jsstring)
    (captureDate : jsstring) : option TemporalInfo :=
  extractTemporalInfo (fun t => chrono_parse env t captureDate)
    (join [LF; LF] (filter_Boolean [note; Some text])).

(** Descending order of relevance: [b.relevanceScore <= a.relevanceScore]
    as the language compares doubles. *)
Definition by_relevance (a b : SearchResult) : Prop :=
  (relevanceScore b <=? relevanceScore a)%float = true.

(** The place of a double on the line of the integers: its value in
    units of the least positive double, the infinities beyond every
    finite one. Both zeros, and NaN, stand at 0. *)
Definition SFrank (f : spec_float) : Z :=
  match f with
  | S754_zero _ | S754_nan => 0
  | S754_infinity s => cond_Zopp s (2 ^ 2200)
  | S754_finite s m e => cond_Zopp s (Zpos m * 2 ^ (e + 1074))
  end.

Definition rank (x : float) : Z := SFrank (Prim2SF x).

(** No similarity of a semantic answer is NaN; no score of a list of
    results is. *)
Definition similarities_are_numbers (semanticResults : list SemanticHit)
    : Prop :=
  Forall (λ r, is_nan (similarity r) = false) semanticResults.

Definition scores_are_numbers (results : list SearchResult) : Prop :=
  Forall (λ e, is_nan (relevanceScore e) = false) results.

(** Every value of the map is filed under the id of its capture, and no
    key occurs twice. *)
Definition Map_wf (m : Map) : Prop :=
  NoDup (map fst m) ∧ ∀ k v, (k, v) ∈ m → id (capture v) = k.


(* ===================================================================== *)
(** ** Further specification-side definitions *)
(* ===================================================================== *)

(** The two loops of [extractTemporalContext]: one match, then all the
    matches of one pattern. *)
Definition add_match (ctx : context) (mi : jsstring * nat) : context :=
  let '(m, i) := mi in
  context_set (context_key m) {| ctx_text := m; ctx_index := i |} ctx.

Definition add_pattern (text : jsstring) (ctx : context) (pattern : regex)
    : context :=
  fold_left add_match (matchAll pattern text) ctx.

(** What the context object keeps true: no key twice, every entry filed
    under the key of its text, and every text found at its index. *)
Definition context_ok (text : jsstring) (ctx : context) : Prop :=
  NoDup (map fst ctx) ∧
  ∀ k e, (k, e) ∈ ctx →
    k = context_key (ctx_text e) ∧
    take (length (ctx_text e)) (drop (ctx_index e) text) = ctx_text e.

(** A section starts with the first letter of its label. *)
Definition starts_with_letter (s : jsstring) : Prop :=
  ∃ c rest, s = c :: rest ∧ is_space c = false.

(** The white-space normal form the sanitizer ends in. *)
Definition normal_text (s : jsstring) : Prop :=
  trim s = s ∧ includes [LF; LF; LF] s = false ∧
  includes [SP; LF] s = false ∧ includes [TAB; LF] s = false.

(** The [catch] block of [processCapture]. *)
Definition catch_block (env : Env) (error : jsstring) : M Result :=
  let! processed_at := new_Date env in
  let! _ := update env (failed_patch processed_at) in
  throw error.

(** The embedding step 4 of [processCapture] ends with: none when there is
    nothing to embed or when the generation throws. *)
Definition embedding_of (env : Env) (combinedText : jsstring)
    : option (list float) :=
  if (0 <? length (trim combinedText))%nat then
    match generateEmbedding (embeddings_create env) combinedText with
    | Ok e => Some e
    | Throw _ => None
    end
  else None.

(** The text [processCapture] combines for the embedding. *)
Definition combined_of (env : Env) (note : option jsstring)
    (tags : option (list jsstring)) (text captureDate : jsstring) : jsstring :=
  combineTextForEmbedding note (Some text) tags
    (temporalContext <$> temporal_of env note text captureDate).

(** The columns the pipeline writes. *)
Definition pipeline_columns : list string :=
  ["processing_status"; "processed_at"; "extracted_text"; "embedding";
   "extracted_date"; "extracted_time"; "extracted_datetime";
   "date_confidence"; "temporal_context"]%string.

(** [data] is the patch step 6 builds once OCR has yielded [text]. *)
Definition final_patch (env : Env) (note : option jsstring)
    (tags : option (list jsstring)) (w : World) (text : jsstring)
    (data : gmap string value) : Prop :=
  ∀ column,
    data !! column =
    step6_value text (now env (S (dates w)))
      (embedding_of env (combined_of env note tags text (now env (dates w))))
      (temporal_of env note text (now env (dates w))) column.

(** The writes a run issues after the first: none, or the patch of
    step 6. *)
Definition later_writes (env : Env) (imageUrl note : option jsstring)
    (tags : option (list jsstring)) (w : World)
    (patches : list (gmap string value)) : Prop :=
  patches = [] ∨
  ∃ text data, patches = [data] ∧ ocr_text env imageUrl = Ok text ∧
               final_patch env note tags w text data.

(** The ways a run of [processCapture] ends: its outcome, the writes it
    issued and what they left in the record. *)
Inductive run_shape (env : Env) (imageUrl note : option jsstring)
    (tags : option (list jsstring)) (w : World)
    : outcome Result → World → Prop :=
  | run_completed text data :
      ocr_text env imageUrl = Ok text →
      final_patch env note tags w text data →
      run_shape env imageUrl note tags w
        (Ok {| success := true; result_text := text;
               hasEmbedding :=
                 bool_decide
                   (is_Some
                      (embedding_of env
                         (combined_of env note tags text (now env (dates w)))));
               result_temporal :=
                 temporal_of env note text (now env (dates w)) |})
        {| row := data ∪ (processing_patch ∪ row w);
           updates := updates w ++ [processing_patch; data];
           dates := S (S (dates w)) |}
  | run_failed e patches base ts clock :
      later_writes env imageUrl note tags w patches →
      (base = row w ∨ base = processing_patch ∪ row w) →
      run_shape env imageUrl note tags w (Throw e)
        {| row := failed_patch ts ∪ base;
           updates :=
             updates w ++ [processing_patch] ++ patches ++ [failed_patch ts];
           dates := clock |}
  | run_failed_unrecorded e patches base ts clock :
      later_writes env imageUrl note tags w patches →
      (base = row w ∨ base = processing_patch ∪ row w) →
      run_shape env imageUrl note tags w (Throw e)
        {| row := base;
           updates :=
             updates w ++ [processing_patch] ++ patches ++ [failed_patch ts];
           dates := clock |}.

(** A tag as [parse_tags] yields them. *)
Definition tag_ok (tag : jsstring) : Prop :=
  tag ≠ [] ∧ trim tag = tag ∧ COMMA ∉ tag.

(** The request [processCaptureAPI] sends. *)
Definition post (captureId userId : jsstring) : Request :=
  {| method := lit "POST"; body_captureId := Some captureId;
     body_userId := Some userId |}.

(** *** Further inputs *)

(** Every service answers; the date parser finds the date of the note. *)
Definition all_up : Env :=
  {| db_update := λ _, Accepted;
     textDetection := λ _, Ok [Some invoice_text];
     chrono_parse := λ _ _, Ok [march_match];
     embeddings_create := λ _, Ok [0.25%float];
     now := demo_clock |}.

(** The storage refuses the second write and accepts the others. *)
Definition final_write_refused : Env :=
  {| db_update :=
       λ n, match n with 1 => Refused (lit "conflict") | _ => Accepted end;
     textDetection := λ _, Ok [Some invoice_text];
     chrono_parse := λ _ _, Ok [march_match];
     embeddings_create := λ _, Ok [0.25%float];
     now := demo_clock |}.

(** A capture of user ["u1"] with an image and a note, in the given
    processing status. *)
Definition stored_world (status : string) : World :=
  {| row :=
       <["id" := VStr (lit "c1")]>
         (<["user_id" := VStr (lit "u1")]>
            (<["media_url" := VStr (lit "https://cdn/img.png")]>
               (<["note" := VStr (lit "Lunch on March 3, 2024")]>
                  {[ "processing_status" := VStr (lit status) ]})));
     updates := []; dates := 0 |}.

Definition demo_api : ApiEnv :=
  {| pipeline := all_up; select_single := Accepted;
     no_rows := lit "no rows" |}.

(** The world a run of the pipeline on the stored capture ends in, and
    the patch of its last write. *)
Definition processed_world : World :=
  (processCapture all_up (Some (lit "https://cdn/img.png"))
     (Some (lit "Lunch on March 3, 2024")) None (stored_world "pending")).2.

Definition last_patch : gmap string value :=
  default ∅ (last (updates processed_world)).

(** The storage accepts the first write; afterwards it is out of reach. *)
Definition storage_lost : Env :=
  {| db_update :=
       λ n, match n with 0 => Accepted | _ => Rejected (lit "offline") end;
     textDetection := λ _, Ok [Some invoice_text];
     chrono_parse := λ _ _, Ok [march_match];
     embeddings_create := λ _, Ok [0.25%float];
     now := demo_clock |}.

(* ===================================================================== *)
(** ** The model on known inputs *)
(* ===================================================================== *)

(** ["abc".replace(/b*/g, "-")] is ["-a--c-"]: an empty match is replaced
    and the search resumes one code unit further. *)
Example replace_empty_matches :
  replace_with (star (CChar 98)) (lit "-") (lit "abc") = lit "-a--c-".
Proof. by vm_compute. Qed.

(** A lazy quantifier stops at the first place the rest matches. *)
Example replace_lazy :
  replace_with (cat [lazy_star CAny; chars "b"]) (lit "-") (lit "aabab")
  = lit "--".
Proof. by vm_compute. Qed.

(** [\d{1,3}\b] backtracks over the digits it took. *)
Example replace_bounded :
  replace_with (cat [times CDigit 1 3; WordB]) (lit "-") (lit "1234 12 1")
  = lit "1- - -".
Proof. by vm_compute. Qed.

(** The examples of the specification: an in-range year and the words
    around it are kept, a console call is removed. *)
Example sanitize_keeps_meeting :
  cleanExtractedText (lit "Meeting on 2023-04-01 about project")
  = lit "Meeting on 2023-04-01 about project".
Proof. by vm_compute. Qed.

Example sanitize_drops_console_log :
  cleanExtractedText (lit "see console.log('x') here") = lit "see".
Proof. by vm_compute. Qed.

Example sanitize_empty : cleanExtractedText [] = [].
Proof. reflexivity. Qed.

Example context_of_appointment :
  extractTemporalContext (lit "Doctor appointment tomorrow at 3pm")
  = [(lit "tomorrow", {| ctx_text := lit "tomorrow"; ctx_index := 19 |})].
Proof. by vm_compute. Qed.

(** [slice(0, n)]: the first [n] rows, all of them when there are fewer,
    and all but the last [-n] for a negative [n]. *)
Example slice_to_examples :
  slice_to 2 [1; 2; 3] = [1; 2] ∧ slice_to 5 [1; 2; 3] = [1; 2; 3] ∧
  slice_to 0 [1; 2; 3] = [] ∧ slice_to (-1) [1; 2; 3] = [1; 2].
Proof. by vm_compute. Qed.

(** Integers as doubles, and a positional score as the division and the
    subtraction round it. *)
Example to_number_examples :
  to_number 5 = 5%float ∧ to_number (-1) = (-1)%float ∧
  to_number (2 ^ 53 + 1) = 9007199254740992%float ∧
  to_number (2 ^ 1024) = infinity ∧
  (1 - to_number 4 / to_number 5 = 0.19999999999999996)%float ∧
  (1 - to_number 4 / to_number 5 <? 0.2)%float = true.
Proof. by vm_compute. Qed.

(** The merge in doubles: the full-text row of rank 4 under a limit of 5
    scores [0.19999999999999996] and sorts after a semantic row of
    similarity [0.19999999999999998]. *)
Example merge_in_doubles :
  map (λ e, id (capture e))
    (merge 5
       [{| hit := demo_capture "s"; similarity := 0.19999999999999998 |}]
       [demo_capture "p"; demo_capture "q"; demo_capture "r";
        demo_capture "t"; demo_capture "e"])
  = [lit "p"; lit "q"; lit "r"; lit "t"; lit "s"; lit "e"].
Proof. by vm_compute. Qed.

(** A stable sort: entries of equal score keep their order. *)
Example sort_is_stable :
  map (λ e, id (capture e))
    (Array_sort relevance_cmp
       [fulltext_entry 1 0 (demo_capture "p");
        semantic_entry {| hit := demo_capture "q"; similarity := 1 |};
        fulltext_entry 2 1 (demo_capture "r")])
  = [lit "p"; lit "q"; lit "r"].
Proof. by vm_compute. Qed.

(* ===================================================================== *)
(** ** Sanitizer: the white-space passes *)
(* ===================================================================== *)

Section Repetition.

Variable cs : cset.

Lemma rep_greedy_guarded (P : jsstring → bool) min n prev s :
  (∀ c t, accepts cs c = true → P (c :: t) = false) →
  rep cs false min None (λ m _ t, if P t then Some m else None) n prev s
  = if (min <=? lead (accepts cs) s) && P (drop (lead (accepts cs) s) s)
    then Some (n + lead (accepts cs) s) else None.
Proof.
  intros HP. revert min n prev.
  induction s as [|c s IH]; intros min n prev; simpl.
  - destruct min; simpl; [|done]. rewrite Nat.add_0_r. done.
  - destruct (accepts cs c) eqn:Hc; simpl.
    + destruct min as [|m]; simpl.
      * rewrite IH. simpl.
        destruct (P (drop _ s)); [f_equal; lia|]. by rewrite HP.
      * rewrite IH. change (S m <=? S ?x) with (m <=? x).
        destruct (_ && _); [f_equal; lia | done].
    + destruct min as [|m]; simpl; [|done]. by rewrite Nat.add_0_r.
Qed.

Lemma rep_greedy_total min n prev s :
  rep cs false min None (λ m _ _, Some m) n prev s
  = if min <=? lead (accepts cs) s then Some (n + lead (accepts cs) s)
    else None.
Proof.
  revert min n prev. induction s as [|c s IH]; intros min n prev; simpl.
  - destruct min; simpl; [|done]. by rewrite Nat.add_0_r.
  - destruct (accepts cs c) eqn:Hc; simpl.
    + destruct min as [|m]; simpl.
      * rewrite IH. simpl. f_equal; lia.
      * rewrite IH. change (S m <=? S ?x) with (m <=? x).
        destruct (_ <=? _); [f_equal; lia | done].
    + destruct min as [|m]; simpl; [|done]. by rewrite Nat.add_0_r.
Qed.

End Repetition.

Section Matches.

Lemma match_many_newlines prev s :
  match_here many_newlines prev s
  = if 3 <=? lead is_LF s then Some (lead is_LF s) else None.
Proof. apply (rep_greedy_total (CChar LF) 3 0 prev s). Qed.

Lemma blank_not_eol c t : is_blank c = true → at_eol true (c :: t) = false.
Proof.
  unfold is_blank, blank. cbn [accepts].
  intros [H|H]%orb_true_iff; apply N.eqb_eq in H; by subst.
Qed.

Lemma match_trailing_blanks prev s :
  match_here trailing_blanks prev s
  = if (1 <=? lead is_blank s) && at_eol true (drop (lead is_blank s) s)
    then Some (lead is_blank s) else None.
Proof.
  apply (rep_greedy_guarded blank (at_eol true) 1 0 prev s), blank_not_eol.
Qed.

Lemma match_blank_line prev s :
  match_here blank_line prev s
  = if at_bol true prev then match_here trailing_blanks prev s else None.
Proof. reflexivity. Qed.

End Matches.

Section SpacedNewlines.

Let final : cont := fun m _ _ => Some m.
Let K2 : cont := run (Seq (Cls (CChar LF)) Eps) final.
Let K1 : cont :=
  run (cat [Cls (CChar LF); star CSpace; Cls (CChar LF)]) final.

Lemma LF_is_space c : is_LF c = true → is_space c = true.
Proof. unfold is_LF. cbn [accepts]. intros <-%N.eqb_eq. done. Qed.

Lemma last_lf_None s : last_lf s = None ↔ lf_count s = 0.
Proof.
  induction s as [|c s IH]; simpl; [done|].
  destruct (is_space c); [|done].
  destruct (last_lf s), (is_LF c); simpl; split; try done; try lia.
  - intros H. assert (lf_count s = 0) as H0 by lia.
    by apply IH in H0.
  - intros _. by apply IH.
Qed.

Lemma star_then_LF n prev s :
  rep CSpace false 0 None K2 n prev s = (λ j, n + j + 1) <$> last_lf s.
Proof.
  revert n prev. induction s as [|c s IH]; intros n prev; [done|].
  cbn [rep no_more fmap option_fmap option_map last_lf accepts].
  destruct (is_space c) eqn:Hsp.
  - rewrite IH. destruct (last_lf s) as [j|]; simpl; [f_equal; lia|].
    unfold K2, final. cbn [run accepts]. change (LF =? c)%N with (is_LF c).
    destruct (is_LF c); simpl; [f_equal; lia | done].
  - unfold K2, final. cbn [run accepts]. change (LF =? c)%N with (is_LF c).
    destruct (is_LF c) eqn:Hlf; [|done].
    apply LF_is_space in Hlf. congruence.
Qed.

Lemma star_LF_star_LF n prev s :
  rep CSpace false 0 None K1 n prev s
  = if 2 <=? lf_count s then (λ j, n + j + 1) <$> last_lf s else None.
Proof.
  revert n prev. induction s as [|c s IH]; intros n prev; [done|].
  cbn [rep no_more last_lf lf_count accepts].
  destruct (is_space c) eqn:Hsp.
  - rewrite IH. destruct (2 <=? lf_count s) eqn:Hcount.
    + apply Nat.leb_le in Hcount.
      destruct (last_lf s) as [j|] eqn:Hlast.
      * rewrite (proj2 (Nat.leb_le 2 _)) by lia. simpl. f_equal; lia.
      * apply last_lf_None in Hlast. lia.
    + apply Nat.leb_gt in Hcount.
      unfold K1, final. cbn [run cat fold_right star accepts]. change (LF =? c)%N with (is_LF c).
      destruct (is_LF c) eqn:Hlf.
      * fold final. fold K2. rewrite star_then_LF.
        destruct (last_lf s) as [j|] eqn:Hlast.
        -- assert (lf_count s ≠ 0) by (rewrite <- last_lf_None; congruence).
           rewrite (proj2 (Nat.leb_le 2 _)) by lia. simpl. f_equal; lia.
        -- apply last_lf_None in Hlast.
           rewrite (proj2 (Nat.leb_gt 2 _)) by lia. done.
      * rewrite (proj2 (Nat.leb_gt 2 _)) by lia. done.
  - unfold K1, final. cbn [run cat fold_right star accepts]. change (LF =? c)%N with (is_LF c).
    destruct (is_LF c) eqn:Hlf; [|done].
    apply LF_is_space in Hlf. congruence.
Qed.

Lemma match_spaced_newlines prev s :
  match_here spaced_newlines prev s
  = match s with
    | c :: s' =>
        if is_LF c && (2 <=? lf_count s')
        then (λ j, j + 2) <$> last_lf s' else None
    | [] => None
    end.
Proof.
  destruct s as [|c s]; [done|].
  unfold match_here, spaced_newlines.
  cbn [run cat fold_right star accepts]. change (LF =? c)%N with (is_LF c).
  destruct (is_LF c); [|done]. simpl andb.
  change (rep CSpace false 0 None K1 1 (Some c) s = 
          if 2 <=? lf_count s then (λ j, j + 2) <$> last_lf s else None).
  rewrite star_LF_star_LF. destruct (2 <=? lf_count s); [|done].
  destruct (last_lf s); simpl; [f_equal; lia | done].
Qed.

End SpacedNewlines.

Section Replace.

Variables (r : regex) (f : jsstring → jsstring).

(** Where the pattern matches nowhere, nothing is replaced. *)
Lemma replace_quiet (Q : jsstring → bool) :
  (∀ c s, Q (c :: s) = true → Q s = true) →
  (∀ prev s, Q s = true → match_here r prev s = None) →
  ∀ s prev, Q s = true → replace_from r f 0 prev s = s.
Proof.
  intros Hsuffix Hquiet s. induction s as [|c s IH]; intros prev HQ; simpl.
  - by rewrite Hquiet.
  - rewrite Hquiet by done. f_equal. apply IH. by eapply Hsuffix.
Qed.

Hypothesis r_prev_free : prev_free r.

Lemma replace_from_prev s k p1 p2 :
  replace_from r f k p1 s = replace_from r f k p2 s.
Proof using r_prev_free.
  revert k p1 p2. induction s as [|c s IH]; intros k p1 p2.
  - destruct k; simpl; [|done]. by rewrite (r_prev_free p1 p2).
  - destruct k; simpl; [|done]. by rewrite (r_prev_free p1 p2).
Qed.

Lemma replace_from_skip s k prev :
  k ≤ length s →
  replace_from r f k prev s = replace_from r f 0 prev (drop k s).
Proof using r_prev_free.
  revert k prev. induction s as [|c s IH]; intros k prev Hk.
  - simpl in Hk. by replace k with 0 by lia.
  - destruct k as [|k]; [done|]. simpl in *. rewrite IH by lia.
    apply replace_from_prev.
Qed.

(** One step of the replacement at the head of the input. *)
Lemma replace_cons c s :
  replace r f (c :: s)
  = match match_here r None (c :: s) with
    | Some (S n) =>
        if decide (n ≤ length s)
        then f (take (S n) (c :: s)) ++ replace r f (drop n s)
        else f (take (S n) (c :: s)) ++ replace_from r f n (Some c) s
    | Some O => f [] ++ c :: replace r f s
    | None => c :: replace r f s
    end.
Proof using r_prev_free.
  unfold replace. simpl. destruct (match_here r None (c :: s)) as [[|n]|].
  - simpl. do 2 f_equal. apply replace_from_prev.
  - case_decide; [|done]. f_equal. rewrite replace_from_skip by done.
    apply replace_from_prev.
  - f_equal. apply replace_from_prev.
Qed.

End Replace.

Section Measures.

Lemma lead_LF_count s : lead is_LF s ≤ lf_count s.
Proof.
  induction s as [|c s IH]; simpl; [done|].
  destruct (is_LF c) eqn:Hlf; [|lia].
  rewrite (LF_is_space c Hlf). lia.
Qed.

Lemma lead_le_length p s : lead p s ≤ length s.
Proof. induction s as [|c s IH]; simpl; [done|]. destruct (p c); simpl; lia. Qed.

Lemma last_lf_lt s j : last_lf s = Some j → j < length s.
Proof.
  revert j. induction s as [|c s IH]; intros j; simpl; [done|].
  destruct (is_space c); [|done].
  destruct (last_lf s) as [i|].
  - intros [= <-]. specialize (IH i eq_refl). lia.
  - destruct (is_LF c); [|done]. intros [= <-]. lia.
Qed.

(** After the last line feed of a white-space run, the run holds no
    line feed. *)
Lemma lf_count_after_last s j :
  last_lf s = Some j → lf_count (drop (S j) s) = 0.
Proof.
  revert j. induction s as [|c s IH]; intros j; simpl; [done|].
  destruct (is_space c); [|done].
  destruct (last_lf s) as [i|] eqn:Hlast.
  - intros [= <-]. by apply IH.
  - destruct (is_LF c); [|done]. intros [= <-]. rewrite drop_0.
    by apply last_lf_None.
Qed.

Lemma trail_free_suffix c s : trail_free (c :: s) = true → trail_free s = true.
Proof. simpl. by intros [_ ?]%andb_true_iff. Qed.

Lemma sparse_suffix c s : sparse (c :: s) = true → sparse s = true.
Proof. simpl. by intros [_ ?]%andb_true_iff. Qed.

Lemma trail_free_drop n s : trail_free s = true → trail_free (drop n s) = true.
Proof.
  revert s. induction n as [|n IH]; intros s; [by rewrite drop_0|].
  destruct s as [|c s]; [done|]. intros H%trail_free_suffix. by apply IH.
Qed.

End Measures.

Section Quiet.

Lemma sparse_no_many_newlines prev s :
  sparse s = true → match_here many_newlines prev s = None.
Proof.
  intros Hs. rewrite match_many_newlines.
  destruct (3 <=? lead is_LF s) eqn:Hlead; [|done].
  apply Nat.leb_le in Hlead.
  destruct s as [|c s]; [simpl in Hlead; lia|].
  cbn [lead] in Hlead. cbn [sparse] in Hs.
  destruct (is_LF c) eqn:Hlf; [|lia].
  pose proof (lead_LF_count s).
  rewrite (proj2 (Nat.leb_le 2 (lf_count s))) in Hs by lia. done.
Qed.

Lemma trail_free_no_trailing_blanks prev s :
  trail_free s = true → match_here trailing_blanks prev s = None.
Proof.
  intros Hs. rewrite match_trailing_blanks.
  enough ((1 <=? lead is_blank s)
          && at_eol true (drop (lead is_blank s) s) = false) as -> by done.
  induction s as [|c s IH]; [done|].
  cbn [lead]. destruct (is_blank c) eqn:Hb; [|done].
  cbn [trail_free] in Hs. rewrite Hb in Hs.
  apply andb_true_iff in Hs as [Heol Hs]. specialize (IH Hs).
  cbn [drop]. destruct (lead is_blank s) as [|l] eqn:Hl.
  - rewrite drop_0. simpl in *. by destruct (at_eol true s).
  - simpl in *. done.
Qed.

Lemma trail_free_no_blank_line prev s :
  trail_free s = true → match_here blank_line prev s = None.
Proof.
  intros Hs. rewrite match_blank_line.
  destruct (at_bol true prev); [|done].
  by apply trail_free_no_trailing_blanks.
Qed.

Lemma sparse_no_spaced_newlines prev s :
  sparse s = true → match_here spaced_newlines prev s = None.
Proof.
  intros Hs. rewrite match_spaced_newlines.
  destruct s as [|c s]; [done|]. cbn [sparse] in Hs.
  by destruct (is_LF c && (2 <=? lf_count s)).
Qed.

End Quiet.

Section Outputs.

Lemma trailing_blanks_prev_free : prev_free trailing_blanks.
Proof. intros p1 p2 s. by rewrite !match_trailing_blanks. Qed.

Lemma spaced_newlines_prev_free : prev_free spaced_newlines.
Proof. intros p1 p2 s. by rewrite !match_spaced_newlines. Qed.

Let strip (s : jsstring) : jsstring := replace_with trailing_blanks [] s.
Let squeeze (s : jsstring) : jsstring :=
  replace_with spaced_newlines [LF; LF] s.

Lemma strip_cons c s :
  strip (c :: s)
  = if (1 <=? lead is_blank (c :: s))
       && at_eol true (drop (lead is_blank (c :: s)) (c :: s))
    then strip (drop (lead is_blank (c :: s)) (c :: s))
    else c :: strip s.
Proof.
  unfold strip, replace_with.
  rewrite (replace_cons _ _ trailing_blanks_prev_free).
  rewrite match_trailing_blanks.
  destruct (_ && _) eqn:Hcond; [|done].
  pose proof (lead_le_length is_blank (c :: s)) as Hlen.
  destruct (lead is_blank (c :: s)) as [|n]; [done|].
  simpl in Hlen. rewrite decide_True by lia. done.
Qed.

Lemma squeeze_cons c s :
  squeeze (c :: s)
  = if is_LF c && (2 <=? lf_count s)
    then match last_lf s with
         | Some j => LF :: LF :: squeeze (drop (S j) s)
         | None => c :: squeeze s
         end
    else c :: squeeze s.
Proof.
  unfold squeeze, replace_with.
  rewrite (replace_cons _ _ spaced_newlines_prev_free).
  rewrite match_spaced_newlines.
  destruct (_ && _) eqn:Hcond; [|done].
  destruct (last_lf s) as [j|] eqn:Hlast; [|done]. simpl.
  apply last_lf_lt in Hlast.
  replace (j + 2) with (S (S j)) by lia.
  rewrite decide_True by lia. done.
Qed.

(** Stripping leaves no blank in front of a line end. *)
Lemma strip_trail_free s : trail_free (strip s) = true.
Proof.
  remember (length s) as n eqn:Hn. revert s Hn.
  induction n as [n IH] using lt_wf_ind. intros s ->.
  destruct s as [|c s]; [done|]. rewrite strip_cons.
  destruct (_ && _) eqn:Hcond.
  - apply andb_true_iff in Hcond as [Hlead _]. apply Nat.leb_le in Hlead.
    eapply IH; [|done]. rewrite length_drop. simpl in *. lia.
  - cbn [trail_free]. rewrite (IH (length s)) by (simpl; lia || done).
    rewrite andb_true_r. destruct (is_blank c) eqn:Hb; [|done]. simpl.
    cbn [lead] in Hcond. rewrite Hb in Hcond. simpl in Hcond.
    destruct s as [|d s]; [done|]. rewrite strip_cons.
    cbn [lead] in *. destruct (is_blank d) eqn:Hd.
    + simpl in Hcond. simpl. rewrite Hcond.
      by rewrite (blank_not_eol d).
    + simpl in *. by rewrite Hcond.
Qed.

Lemma LF_not_space_false c : is_space c = false → is_LF c = false.
Proof.
  intros Hsp. destruct (is_LF c) eqn:Hlf; [|done].
  apply LF_is_space in Hlf. congruence.
Qed.

(** A white-space run with at most two line feeds is left alone. *)
Lemma squeeze_lf_count s : lf_count s ≤ 2 → lf_count (squeeze s) = lf_count s.
Proof.
  induction s as [|c s IH]; intros Hle; [done|].
  rewrite squeeze_cons. cbn [lf_count] in *.
  destruct (is_space c) eqn:Hsp.
  - destruct (is_LF c) eqn:Hlf; cbn [andb] in *.
    + rewrite (proj2 (Nat.leb_gt 2 (lf_count s))) by lia.
      cbn [lf_count]. rewrite Hsp, Hlf, IH by lia. done.
    + cbn [lf_count]. rewrite Hsp, Hlf, IH by lia. done.
  - rewrite (LF_not_space_false c Hsp). cbn [andb lf_count]. by rewrite Hsp.
Qed.

Lemma is_LF_LF : is_LF LF = true.
Proof. done. Qed.

Lemma last_lf_is_Some s : 1 ≤ lf_count s → is_Some (last_lf s).
Proof.
  intros H. destruct (last_lf s) eqn:Hl; [done|].
  apply last_lf_None in Hl. lia.
Qed.

(** Squeezing leaves no line feed followed by two more in its
    white-space run. *)
Lemma squeeze_sparse s : sparse (squeeze s) = true.
Proof.
  remember (length s) as n eqn:Hn. revert s Hn.
  induction n as [n IH] using lt_wf_ind. intros s ->.
  destruct s as [|c s]; [done|]. rewrite squeeze_cons.
  destruct (is_LF c && (2 <=? lf_count s)) eqn:Hcond.
  - apply andb_true_iff in Hcond as [Hlf Hcount].
    apply Nat.leb_le in Hcount.
    destruct (last_lf_is_Some s) as [j Hj]; [lia|]. rewrite Hj.
    pose proof (lf_count_after_last s j Hj) as Hafter.
    pose proof (last_lf_lt s j Hj) as Hlt.
    assert (lf_count (squeeze (drop (S j) s)) = 0) as Hzero
      by (rewrite squeeze_lf_count; lia).
    cbn [sparse lf_count]. rewrite Hzero.
    rewrite (IH (length (drop (S j) s)))
      by (rewrite ?length_drop; simpl; lia || done).
    by destruct (is_space LF).
  - cbn [sparse].
    rewrite (IH (length s)) by (simpl; lia || done).
    rewrite andb_true_r. destruct (is_LF c); [|done]. cbn [andb] in *.
    apply Nat.leb_gt in Hcond.
    rewrite squeeze_lf_count by lia.
    by rewrite (proj2 (Nat.leb_gt 2 (lf_count s))).
Qed.

Lemma is_LF_eol c s : is_LF c = true → at_eol true (c :: s) = true.
Proof. unfold is_LF. cbn [accepts]. by intros <-%N.eqb_eq. Qed.

Lemma squeeze_at_eol s : at_eol true (squeeze s) = at_eol true s.
Proof.
  destruct s as [|c s]; [done|]. rewrite squeeze_cons.
  destruct (is_LF c && (2 <=? lf_count s)) eqn:Hcond; [|done].
  apply andb_true_iff in Hcond as [Hlf _].
  destruct (last_lf s); [|done]. by rewrite (is_LF_eol c).
Qed.

Lemma squeeze_trail_free s :
  trail_free s = true → trail_free (squeeze s) = true.
Proof.
  remember (length s) as n eqn:Hn. revert s Hn.
  induction n as [n IH] using lt_wf_ind. intros s -> Hs.
  destruct s as [|c s]; [done|]. rewrite squeeze_cons.
  pose proof (trail_free_suffix c s Hs) as Hs'.
  assert (trail_free (c :: squeeze s) = true) as Hcopy.
  { cbn [trail_free] in *. rewrite squeeze_at_eol.
    apply andb_true_iff in Hs as [-> _]. simpl.
    apply (IH (length s)); simpl; lia || done. }
  destruct (is_LF c && (2 <=? lf_count s)) eqn:Hcond; [|done].
  destruct (last_lf s) as [j|] eqn:Hj; [|done].
  pose proof (last_lf_lt s j Hj) as Hlt.
  cbn [trail_free]. simpl.
  apply (IH (length (drop (S j) s))); [|done|by apply trail_free_drop].
  rewrite length_drop. simpl. lia.
Qed.

End Outputs.

Section Trim.

Lemma trimStart_head c s t : trimStart s = c :: t → is_space c = false.
Proof.
  induction s as [|d s IH]; simpl; [done|].
  destruct (is_space d) eqn:Hd; [done|]. by intros [= <- <-].
Qed.

Lemma trimStart_nonspace c s : is_space c = false → trimStart (c :: s) = c :: s.
Proof. simpl. by intros ->. Qed.

Lemma trimStart_idem s : trimStart (trimStart s) = trimStart s.
Proof.
  destruct (trimStart s) as [|c t] eqn:Hs; [done|].
  apply trimStart_nonspace. by eapply trimStart_head.
Qed.

Lemma trimStart_app_nonspace s c :
  is_space c = false → trimStart (s ++ [c]) = trimStart s ++ [c].
Proof.
  intros Hc. induction s as [|d s IH]; simpl; [by rewrite Hc|].
  by destruct (is_space d).
Qed.

Lemma trimEnd_cons_nonspace c s :
  is_space c = false → trimEnd (c :: s) = c :: trimEnd s.
Proof.
  intros Hc. unfold trimEnd. simpl.
  by rewrite trimStart_app_nonspace, rev_unit.
Qed.

Lemma trimEnd_idem s : trimEnd (trimEnd s) = trimEnd s.
Proof. unfold trimEnd. by rewrite rev_involutive, trimStart_idem. Qed.

Lemma trim_idem s : trim (trim s) = trim s.
Proof.
  unfold trim. destruct (trimStart s) as [|c t] eqn:Hs; [done|].
  pose proof (trimStart_head c s t Hs) as Hc.
  rewrite (trimEnd_cons_nonspace c t Hc), (trimStart_nonspace _ _ Hc).
  by rewrite <- (trimEnd_cons_nonspace c t Hc), trimEnd_idem.
Qed.

(** [trimStart] drops a white-space prefix. *)
Lemma trimStart_suffix (Q : jsstring → bool) s :
  (∀ c t, Q (c :: t) = true → Q t = true) →
  Q s = true → Q (trimStart s) = true.
Proof.
  intros Hsuffix. induction s as [|c s IH]; simpl; [done|].
  destruct (is_space c); [|done]. intros H. by eapply IH, Hsuffix.
Qed.

(** [trimEnd] drops a suffix and what it leaves does not end in white
    space. *)
Lemma trimEnd_split s :
  ∃ w, s = trimEnd s ++ w ∧
       (trimEnd s = [] ∨ ∃ p c, trimEnd s = p ++ [c] ∧ is_space c = false).
Proof.
  unfold trimEnd.
  assert (∃ w, rev s = w ++ trimStart (rev s)) as [w Hw].
  { generalize (rev s). intros l. induction l as [|c l [w IH]]; simpl.
    - by exists [].
    - destruct (is_space c); [|by exists []].
      exists (c :: w). simpl. by f_equal. }
  exists (rev w). split.
  - by rewrite <- rev_app_distr, <- Hw, rev_involutive.
  - destruct (trimStart (rev s)) as [|c t] eqn:Ht; [by left|]. right.
    exists (rev t), c. split; [done|]. by eapply trimStart_head.
Qed.

Lemma blank_is_space c : is_blank c = true → is_space c = true.
Proof.
  unfold is_blank, blank. cbn [accepts].
  intros [H|H]%orb_true_iff; apply N.eqb_eq in H; by subst.
Qed.

Lemma at_eol_app c p w : at_eol true ((p ++ [c]) ++ w) = at_eol true (p ++ [c]).
Proof. by destruct p. Qed.

Lemma trail_free_prefix p c w :
  is_space c = false →
  trail_free ((p ++ [c]) ++ w) = true → trail_free (p ++ [c]) = true.
Proof.
  intros Hc. induction p as [|d p IH].
  - intros _. simpl. destruct (is_blank c) eqn:Hb; [|done].
    apply blank_is_space in Hb. congruence.
  - cbn [app trail_free]. rewrite at_eol_app.
    intros [-> H]%andb_true_iff. by rewrite IH.
Qed.

Lemma lf_count_app p w : lf_count p ≤ lf_count (p ++ w).
Proof.
  induction p as [|c p IH]; simpl; [lia|]. destruct (is_space c); lia.
Qed.

Lemma sparse_prefix p w : sparse (p ++ w) = true → sparse p = true.
Proof.
  induction p as [|c p IH]; [done|]. cbn [app sparse].
  intros [Hc Hp]%andb_true_iff. rewrite (IH Hp), andb_true_r.
  destruct (is_LF c); [|done]. cbn [andb] in *.
  pose proof (lf_count_app p w).
  destruct (2 <=? lf_count p) eqn:Hle; [|done].
  apply Nat.leb_le in Hle.
  by rewrite (proj2 (Nat.leb_le 2 (lf_count (p ++ w)))) in Hc by lia.
Qed.

Lemma trim_trail_free s : trail_free s = true → trail_free (trim s) = true.
Proof.
  intros Hs. unfold trim.
  pose proof (trimStart_suffix trail_free s trail_free_suffix Hs) as Hstart.
  destruct (trimEnd_split (trimStart s)) as (w & Hw & [->|(p & c & Hp & Hc)]);
    [done|].
  rewrite Hp in *. rewrite Hw in Hstart. by eapply trail_free_prefix.
Qed.

Lemma trim_sparse s : sparse s = true → sparse (trim s) = true.
Proof.
  intros Hs. unfold trim.
  pose proof (trimStart_suffix sparse s sparse_suffix Hs) as Hstart.
  destruct (trimEnd_split (trimStart s)) as (w & Hw & _).
  rewrite Hw in Hstart. by eapply sparse_prefix.
Qed.

End Trim.

Section NormalForm.

(** A text that has no blank in front of a line end, no line feed
    followed by two more in its white-space run, and no white space at
    either end is a fixed point of the white-space passes. *)
Lemma normalize_whitespace_fixed y :
  trail_free y = true → sparse y = true → trim y = y →
  normalize_whitespace y = y.
Proof.
  intros Htrail Hsparse Htrim. unfold normalize_whitespace, replace_with, replace.
  rewrite (replace_quiet many_newlines _ sparse sparse_suffix
             sparse_no_many_newlines) by done.
  rewrite (replace_quiet trailing_blanks _ trail_free trail_free_suffix
             trail_free_no_trailing_blanks) by done.
  rewrite (replace_quiet blank_line _ trail_free trail_free_suffix
             trail_free_no_blank_line) by done.
  rewrite (replace_quiet spaced_newlines _ sparse sparse_suffix
             sparse_no_spaced_newlines) by done.
  done.
Qed.

Lemma normalize_whitespace_normal s :
  trail_free (normalize_whitespace s) = true ∧
  sparse (normalize_whitespace s) = true ∧
  trim (normalize_whitespace s) = normalize_whitespace s.
Proof.
  unfold normalize_whitespace.
  set (a := replace_with many_newlines [LF; LF] s).
  pose proof (strip_trail_free a) as Hb.
  set (b := replace_with trailing_blanks [] a) in *.
  assert (replace_with blank_line [] b = b) as ->.
  { apply (replace_quiet blank_line _ trail_free trail_free_suffix
             trail_free_no_blank_line); done. }
  split_and!.
  - by apply trim_trail_free, squeeze_trail_free.
  - apply trim_sparse, squeeze_sparse.
  - apply trim_idem.
Qed.

(** The white-space normalization is idempotent. *)
Lemma normalize_whitespace_idempotent s :
  normalize_whitespace (normalize_whitespace s) = normalize_whitespace s.
Proof.
  destruct (normalize_whitespace_normal s) as (H1 & H2 & H3).
  by apply normalize_whitespace_fixed.
Qed.

(** C7 (as the code has it). Sanitizing twice gives the same text as
    sanitizing once for every input on whose sanitized text the
    content-removal passes find nothing more to remove; the white-space
    normalization that ends the sanitizer is idempotent on every text. *)
Theorem sanitizer_idempotent_when_stable x :
  remove_content (cleanExtractedText x) = cleanExtractedText x →
  cleanExtractedText (cleanExtractedText x) = cleanExtractedText x.
Proof.
  intros Hstable. destruct x as [|c x]; [done|].
  unfold cleanExtractedText at 1.
  destruct (cleanExtractedText (c :: x)) as [|d y] eqn:Hy; [done|].
  rewrite Hstable. rewrite <- Hy. unfold cleanExtractedText.
  apply normalize_whitespace_idempotent.
Qed.

End NormalForm.

(* ===================================================================== *)
(** ** Hybrid search: proofs *)
(* ===================================================================== *)

Section MapFacts.

Implicit Types (m : Map) (key k : jsstring) (v : SearchResult).

Lemma Map_has_elem key m : Map_has key m = true ↔ key ∈ map fst m.
Proof.
  unfold Map_has. induction m as [|[k v] m IH]; simpl.
  - split; [discriminate | by intros ?%elem_of_nil].
  - rewrite orb_true_iff, IH, bool_decide_eq_true, elem_of_cons. naive_solver.
Qed.

Lemma Map_has_false key m : Map_has key m = false ↔ key ∉ map fst m.
Proof. rewrite <- Map_has_elem. destruct (Map_has key m); naive_solver. Qed.

Lemma Map_set_keys key v m :
  map fst (Map_set key v m) =
  if Map_has key m then map fst m else map fst m ++ [key].
Proof.
  induction m as [|[k old] m IH]; simpl; [done|].
  unfold Map_has in *. simpl. destruct (decide (k = key)) as [->|Hne]; simpl.
  - by rewrite bool_decide_eq_true_2.
  - rewrite bool_decide_eq_false_2 by done. simpl. rewrite IH.
    by destruct (existsb _ m).
Qed.

Lemma Map_get_set key k v m :
  Map_get k (Map_set key v m) = if decide (key = k) then Some v else Map_get k m.
Proof.
  induction m as [|[k' old] m IH]; simpl.
  - destruct (decide (key = k)); done.
  - destruct (decide (k' = key)) as [->|Hne]; simpl.
    + destruct (decide (key = k)); done.
    + destruct (decide (k' = k)) as [->|?]; [|done].
      by rewrite decide_False by congruence.
Qed.

Lemma Map_get_None key m : Map_get key m = None ↔ key ∉ map fst m.
Proof.
  induction m as [|[k v] m IH]; simpl.
  - split; [intros _; apply not_elem_of_nil | done].
  - rewrite not_elem_of_cons. destruct (decide (k = key)); naive_solver.
Qed.

Lemma Map_get_elem key v m :
  NoDup (map fst m) → (key, v) ∈ m ↔ Map_get key m = Some v.
Proof.
  induction m as [|[k old] m IH]; simpl; intros Hnd.
  - split; [by intros ?%elem_of_nil | done].
  - apply NoDup_cons in Hnd as [Hk Hnd]. rewrite elem_of_cons.
    destruct (decide (k = key)) as [->|Hne].
    + split; [intros [[= ->]|Hin]; [done|] | intros [= ->]; by left].
      destruct Hk. apply list_elem_of_fmap. by exists (key, v).
    + rewrite <- IH by done. naive_solver.
Qed.

Lemma Map_set_elem key v m k' v' :
  (k', v') ∈ Map_set key v m → (k', v') = (key, v) ∨ (k', v') ∈ m.
Proof.
  induction m as [|[k old] m IH]; simpl.
  - rewrite list_elem_of_singleton. by left.
  - destruct (decide (k = key)); rewrite !elem_of_cons; naive_solver.
Qed.

Lemma Map_set_wf v m : Map_wf m → Map_wf (Map_set (id (capture v)) v m).
Proof.
  intros [Hnd Hid]. split.
  - rewrite Map_set_keys. destruct (Map_has _ m) eqn:Hhas; [done|].
    apply NoDup_app. split_and!; [done| |apply NoDup_singleton].
    intros k Hk ->%list_elem_of_singleton. by apply Map_has_false in Hhas.
  - intros k' v' [[= -> ->]|Hin]%Map_set_elem; [done | by apply Hid].
Qed.

Lemma Map_set_length key v m :
  length (Map_set key v m) = if Map_has key m then length m else S (length m).
Proof.
  rewrite <- !(length_map fst), Map_set_keys.
  destruct (Map_has key m); [done|]. rewrite length_app. simpl. lia.
Qed.

End MapFacts.

Section MergeFacts.

Variable fullTextLimit : Z.

Lemma add_semantic_wf m r : Map_wf m → Map_wf (add_semantic m r).
Proof. intros Hwf. by apply (Map_set_wf (semantic_entry r)). Qed.

Lemma add_fulltext_wf m e : Map_wf m → Map_wf (add_fulltext fullTextLimit m e).
Proof.
  intros Hwf. destruct e as [i c]. unfold add_fulltext.
  destruct (Map_has (id c) m); [done|].
  by apply (Map_set_wf (fulltext_entry fullTextLimit i c)).
Qed.

Lemma fold_semantic_wf sem m :
  Map_wf m → Map_wf (fold_left add_semantic sem m).
Proof.
  revert m. induction sem as [|r sem IH]; intros m Hwf; simpl; [done|].
  by apply IH, add_semantic_wf.
Qed.

Lemma fold_fulltext_wf l m :
  Map_wf m → Map_wf (fold_left (add_fulltext fullTextLimit) l m).
Proof.
  revert m. induction l as [|e l IH]; intros m Hwf; simpl; [done|].
  by apply IH, add_fulltext_wf.
Qed.

(** The semantic pass leaves under each id the last row that carries it. *)
Lemma fold_semantic_get key sem m :
  Map_get key (fold_left add_semantic sem m) =
  match last (filter (λ r, id (hit r) = key) sem) with
  | Some r => Some (semantic_entry r)
  | None => Map_get key m
  end.
Proof.
  revert m. induction sem as [|r sem IH]; intros m; simpl; [done|].
  rewrite IH. unfold add_semantic at 1. rewrite Map_get_set.
  fold (semantic_entry r). rewrite filter_cons.
  destruct (decide (id (hit r) = key)) as [Heq|Hne].
  - destruct (filter _ sem) as [|r' rest] eqn:Hf; [done|].
    rewrite last_cons_cons.
    destruct (last (r' :: rest)) eqn:Hlast; [done|].
    by apply last_None in Hlast.
  - done.
Qed.

Lemma fold_semantic_length sem m :
  length (fold_left add_semantic sem m) ≤ length m + length sem.
Proof.
  revert m. induction sem as [|r sem IH]; intros m; simpl; [lia|].
  etrans; [apply IH|]. unfold add_semantic. rewrite Map_set_length.
  destruct (Map_has _ m); lia.
Qed.

(** The full-text pass keeps what the map holds and files each new id
    under the first row that carries it. *)
Lemma fold_fulltext_get key l m :
  Map_get key (fold_left (add_fulltext fullTextLimit) l m) =
  match Map_get key m with
  | Some v => Some v
  | None =>
      (λ e, fulltext_entry fullTextLimit e.1 e.2) <$>
      head (filter (λ e : nat * Capture, id e.2 = key) l)
  end.
Proof.
  revert m. induction l as [|[i c] l IH]; intros m; simpl.
  - by destruct (Map_get key m).
  - rewrite IH. rewrite filter_cons. simpl.
    destruct (Map_has (id c) m) eqn:Hhas.
    + destruct (Map_get key m) eqn:Hget; [done|].
      destruct (decide (id c = key)) as [Heq|Hne]; [|done].
      apply Map_has_elem in Hhas. apply Map_get_None in Hget.
      by rewrite Heq in Hhas.
    + rewrite Map_get_set. fold (fulltext_entry fullTextLimit i c).
      destruct (decide (id c = key)) as [Heq|Hne]; [|done].
      apply Map_has_false, Map_get_None in Hhas.
      rewrite Heq in Hhas. by rewrite Hhas.
Qed.

Lemma fold_fulltext_length l m :
  length (fold_left (add_fulltext fullTextLimit) l m) ≤ length m + length l.
Proof.
  revert m. induction l as [|[i c] l IH]; intros m; simpl; [lia|].
  etrans; [apply IH|]. destruct (Map_has (id c) m); [lia|].
  rewrite Map_set_length. destruct (Map_has _ m); lia.
Qed.

End MergeFacts.

(* ===================================================================== *)
(** ** Doubles: order, subtraction and division *)
(* ===================================================================== *)

Section Doubles.

Local Open Scope Z_scope.

(** *** The number of binary digits *)

Lemma digits2_pos_bounds (m : positive) :
  2 ^ (Zpos (digits2_pos m) - 1) <= Zpos m < 2 ^ Zpos (digits2_pos m).
Proof.
  induction m as [m IH|m IH|]; cbn [digits2_pos].
  - rewrite Pos2Z.inj_succ.
    replace (Z.succ (Zpos (digits2_pos m)) - 1) with (Z.succ (Zpos (digits2_pos m) - 1)) by lia.
    rewrite !Z.pow_succ_r by lia. lia.
  - rewrite Pos2Z.inj_succ.
    replace (Z.succ (Zpos (digits2_pos m)) - 1) with (Z.succ (Zpos (digits2_pos m) - 1)) by lia.
    rewrite !Z.pow_succ_r by lia. lia.
  - simpl. lia.
Qed.

Lemma Zdigits2_bounds (m : Z) :
  0 < m → 2 ^ (Zdigits2 m - 1) <= m < 2 ^ Zdigits2 m.
Proof. destruct m as [|p|p]; [lia| |lia]. intros _. apply digits2_pos_bounds. Qed.

Lemma Zdigits2_pos (m : Z) : 0 < m → 0 < Zdigits2 m.
Proof. destruct m; simpl; lia. Qed.

Lemma Zdigits2_unique (m d : Z) :
  2 ^ (d - 1) <= m < 2 ^ d → 0 < d → Zdigits2 m = d.
Proof.
  intros [Hlo Hhi] Hd.
  assert (0 < m) as Hm by (pose proof (Z.pow_pos_nonneg 2 (d - 1)); lia).
  destruct (Zdigits2_bounds m Hm) as [Hlo' Hhi'].
  pose proof (Zdigits2_pos m Hm) as Hpos.
  destruct (Z.lt_trichotomy (Zdigits2 m) d) as [Hlt|[Heq|Hgt]]; [|done|].
  - assert (2 ^ Zdigits2 m <= 2 ^ (d - 1)) by (apply Z.pow_le_mono_r; lia). lia.
  - assert (2 ^ d <= 2 ^ (Zdigits2 m - 1)) by (apply Z.pow_le_mono_r; lia). lia.
Qed.

Lemma Zdigits2_shiftl (m k : Z) :
  0 < m → 0 <= k → Zdigits2 (m * 2 ^ k) = Zdigits2 m + k.
Proof.
  intros Hm Hk. destruct (Zdigits2_bounds m Hm) as [Hlo Hhi].
  pose proof (Zdigits2_pos m Hm) as Hpos.
  apply Zdigits2_unique; [|lia].
  replace (Zdigits2 m + k - 1) with (Zdigits2 m - 1 + k) by lia.
  rewrite !Z.pow_add_r by lia.
  pose proof (Z.pow_pos_nonneg 2 k). nia.
Qed.

Lemma Zdigits2_shiftr (m k : Z) :
  0 < m → 0 <= k < Zdigits2 m → Zdigits2 (m / 2 ^ k) = Zdigits2 m - k.
Proof.
  intros Hm Hk. destruct (Zdigits2_bounds m Hm) as [Hlo Hhi].
  pose proof (Z.pow_pos_nonneg 2 k ltac:(lia) ltac:(lia)) as Hpow.
  apply Zdigits2_unique; [|lia]. split.
  - apply Z.div_le_lower_bound; [lia|].
    rewrite <- Z.pow_add_r by lia.
    by replace (k + (Zdigits2 m - k - 1)) with (Zdigits2 m - 1) by lia.
  - apply Z.div_lt_upper_bound; [lia|].
    rewrite <- Z.pow_add_r by lia.
    by replace (k + (Zdigits2 m - k)) with (Zdigits2 m) by lia.
Qed.

(** *** Shifts *)

Lemma shr_1_m (mrs : shr_record) :
  0 <= shr_m mrs → shr_m (shr_1 mrs) = shr_m mrs / 2.
Proof.
  destruct mrs as [m r s]. cbn [shr_m]. intros Hm.
  destruct m as [|[p|p|]|p]; cbn [shr_1 shr_m]; try lia; try done.
  - apply Z.div_unique with 1; lia.
  - apply Z.div_unique with 0; lia.
Qed.

Lemma pow2_xO (p : positive) : 2 ^ Zpos p~0 = 2 ^ Zpos p * 2 ^ Zpos p.
Proof. rewrite <- Z.pow_add_r by lia. f_equal. lia. Qed.

Lemma pow2_xI (p : positive) : 2 ^ Zpos p~1 = 2 * (2 ^ Zpos p * 2 ^ Zpos p).
Proof.
  rewrite <- Z.pow_add_r, <- Z.pow_succ_r by lia. f_equal. lia.
Qed.

Lemma iter_shr_1_m (p : positive) (mrs : shr_record) :
  0 <= shr_m mrs →
  shr_m (SpecFloat.iter_pos shr_1 p mrs) = shr_m mrs / 2 ^ Zpos p.
Proof.
  revert mrs. induction p as [p IH|p IH|]; intros mrs Hm;
    cbn [SpecFloat.iter_pos].
  - assert (0 < 2 ^ Zpos p) as Hpow by (apply Z.pow_pos_nonneg; lia).
    assert (0 <= shr_m (shr_1 mrs)) as H1
      by (rewrite shr_1_m by done; apply Z.div_pos; lia).
    assert (0 <= shr_m (SpecFloat.iter_pos shr_1 p (shr_1 mrs))) as H2
      by (rewrite IH by done; apply Z.div_pos; lia).
    rewrite IH, IH, shr_1_m by done.
    rewrite !Z.div_div by lia. by rewrite pow2_xI.
  - assert (0 < 2 ^ Zpos p) as Hpow by (apply Z.pow_pos_nonneg; lia).
    assert (0 <= shr_m (SpecFloat.iter_pos shr_1 p mrs)) as H2
      by (rewrite IH by done; apply Z.div_pos; lia).
    rewrite IH, IH by done.
    rewrite !Z.div_div by lia. by rewrite pow2_xO.
  - by rewrite shr_1_m.
Qed.

Lemma shr_record_of_loc_m m l : shr_m (shr_record_of_loc m l) = m.
Proof. by destruct l as [|[]]. Qed.

Lemma shl_align_m (m : positive) (e e' : Z) :
  e' <= e →
  Zpos (fst (shl_align m e e')) = Zpos m * 2 ^ (e - e') ∧
  snd (shl_align m e e') = e'.
Proof.
  intros He. unfold shl_align.
  destruct (e' - e) as [|d|d] eqn:Hd; [|lia|].
  - assert (e' = e) as -> by lia. rewrite Z.sub_diag. simpl. lia.
  - cbn [fst snd]. split; [|done].
    replace (e - e') with (Zpos d) by lia.
    change (Pos.iter xO m d) with (shift_pos d m).
    rewrite shift_pos_correct.
    change (Z.pow_pos 2 d) with (2 ^ Zpos d). lia.
Qed.

Lemma shl_align_id (m : positive) (e e' : Z) :
  e <= e' → shl_align m e e' = (m, e).
Proof.
  intros He. unfold shl_align. destruct (e' - e) as [|d|d] eqn:Hd; try done. lia.
Qed.


(** *** Rounding *)

Lemma fexp_eq (x : Z) : fexp prec emax x = Z.max (x - 53) (-1074).
Proof. reflexivity. Qed.

Lemma Zdigits2_le (m m' : Z) : 0 < m → m <= m' → Zdigits2 m <= Zdigits2 m'.
Proof.
  intros Hm Hle.
  destruct (Zdigits2_bounds m Hm) as [Hlo _].
  destruct (Zdigits2_bounds m' ltac:(lia)) as [_ Hhi].
  destruct (Z.le_gt_cases (Zdigits2 m) (Zdigits2 m')) as [|Hgt]; [done|].
  assert (2 ^ Zdigits2 m' <= 2 ^ (Zdigits2 m - 1))
    by (apply Z.pow_le_mono_r; lia).
  lia.
Qed.

Lemma Zdigits2_succ (m : Z) : 0 < m → Zdigits2 (m + 1) <= Zdigits2 m + 1.
Proof.
  intros Hm.
  destruct (Zdigits2_bounds m Hm) as [_ Hhi].
  destruct (Zdigits2_bounds (m + 1) ltac:(lia)) as [Hlo _].
  pose proof (Zdigits2_pos m Hm).
  destruct (Z.le_gt_cases (Zdigits2 (m + 1)) (Zdigits2 m + 1)) as [|Hgt]; [done|].
  assert (2 ^ (Zdigits2 m + 1) <= 2 ^ (Zdigits2 (m + 1) - 1))
    by (apply Z.pow_le_mono_r; lia).
  rewrite Z.pow_add_r in * by lia. lia.
Qed.

Lemma round_nearest_even_cases (m : Z) (l : location) :
  round_nearest_even m l = m ∨ round_nearest_even m l = m + 1.
Proof. destruct l as [|[]]; simpl; auto. destruct (Z.even m); auto. Qed.

(** Shifting a mantissa to the exponent its size asks for leaves a
    mantissa that is not zero and is in canonical form. *)
Lemma shr_fexp_canonical (m e : Z) (l : location) :
  0 < m → -1074 <= e → e <= fexp prec emax (Zdigits2 m + e) →
  0 < shr_m (fst (shr_fexp prec emax m e l)) ∧
  snd (shr_fexp prec emax m e l) = fexp prec emax (Zdigits2 m + e) ∧
  fexp prec emax
    (Zdigits2 (shr_m (fst (shr_fexp prec emax m e l)))
     + snd (shr_fexp prec emax m e l))
  = snd (shr_fexp prec emax m e l).
Proof.
  intros Hm He Ht. unfold shr_fexp, shr.
  pose proof (Zdigits2_pos m Hm) as Hd.
  destruct (fexp prec emax (Zdigits2 m + e) - e) as [|p|p] eqn:Hn; [|
    |lia]; cbn [fst snd].
  - rewrite shr_record_of_loc_m.
    assert (fexp prec emax (Zdigits2 m + e) = e) as Heq by lia.
    by rewrite Heq.
  - rewrite iter_shr_1_m, shr_record_of_loc_m
      by (rewrite shr_record_of_loc_m; lia).
    rewrite fexp_eq in Hn, Ht |- *.
    assert (Zpos p = Zdigits2 m - 53) as Hp by lia.
    assert (Zdigits2 (m / 2 ^ Zpos p) = 53) as Hdigits.
    { rewrite Zdigits2_shiftr by lia. lia. }
    split_and!.
    + pose proof (Zdigits2_bounds (m / 2 ^ Zpos p)) as Hb.
      destruct (Z.le_gt_cases (m / 2 ^ Zpos p) 0) as [Hle|]; [|done].
      assert (0 <= m / 2 ^ Zpos p)
        by (apply Z.div_pos; [lia|apply Z.pow_pos_nonneg; lia]).
      assert (m / 2 ^ Zpos p = 0) as H0 by lia.
      rewrite H0 in Hdigits. done.
    + lia.
    + rewrite Hdigits, fexp_eq. lia.
Qed.

(** The result of rounding a positive mantissa at an exponent that is
    not below the least one. *)
Lemma binary_round_aux_spec (s : bool) (m e : Z) (l : location) :
  0 < m → -1074 <= e → e <= fexp prec emax (Zdigits2 m + e) →
  ∃ (m' : positive) (e' : Z),
    fexp prec emax (Zdigits2 m + e) <= e'
    ∧ e' <= fexp prec emax (Zdigits2 m + e) + 1 ∧
    canonical_mantissa prec emax m' e' = true ∧
    binary_round_aux prec emax s m e l
    = if e' <=? 971 then S754_finite s m' e' else S754_infinity s.
Proof.
  intros Hm He Ht. unfold binary_round_aux.
  destruct (shr_fexp_canonical m e l Hm He Ht) as (Hm1 & He1 & Hc1).
  destruct (shr_fexp prec emax m e l) as [mrs1 e1]. cbn [fst snd] in *.
  set (m2 := round_nearest_even (shr_m mrs1) (loc_of_shr_record mrs1)).
  assert (shr_m mrs1 <= m2 <= shr_m mrs1 + 1) as Hm2
    by (destruct (round_nearest_even_cases (shr_m mrs1)
                    (loc_of_shr_record mrs1)); lia).
  assert (-1074 <= e1) as He1' by (rewrite He1, fexp_eq; lia).
  assert (Zdigits2 (shr_m mrs1) <= Zdigits2 m2) as Hd2
    by (apply Zdigits2_le; lia).
  assert (Zdigits2 m2 <= Zdigits2 (shr_m mrs1) + 1) as Hd2'.
  { etrans; [|apply Zdigits2_succ; lia]. apply Zdigits2_le; lia. }
  assert (e1 <= fexp prec emax (Zdigits2 m2 + e1)) as Ht2
    by (rewrite fexp_eq in Hc1 |- *; lia).
  destruct (shr_fexp_canonical m2 e1 loc_Exact ltac:(lia) He1' Ht2)
    as (Hm3 & He3 & Hc3).
  destruct (shr_fexp prec emax m2 e1 loc_Exact) as [mrs3 e3].
  cbn [fst snd] in *.
  destruct (shr_m mrs3) as [|m'|] eqn:Hm'; [lia| |lia].
  exists m', e3. split_and!.
  - rewrite He3, <- He1, !fexp_eq in *. lia.
  - rewrite He3, <- He1, !fexp_eq in *. lia.
  - unfold canonical_mantissa. apply Z.eqb_eq. exact Hc3.
  - reflexivity.
Qed.

Lemma binary_round_spec (s : bool) (m : positive) (e : Z) :
  -1074 <= e →
  ∃ (m' : positive) (e' : Z),
    e' <= fexp prec emax (Zpos (digits2_pos m) + e) + 1 ∧
    canonical_mantissa prec emax m' e' = true ∧
    binary_round prec emax s m e
    = if e' <=? 971 then S754_finite s m' e' else S754_infinity s.
Proof.
  intros He. unfold binary_round.
  set (t := fexp prec emax (Zpos (digits2_pos m) + e)).
  destruct (Z.le_gt_cases e t) as [Hle|Hgt].
  - rewrite shl_align_id by done.
    destruct (binary_round_aux_spec s (Zpos m) e loc_Exact)
      as (m' & e' & _ & Hhi & Hc & ->); [lia|done|done|].
    by exists m', e'.
  - destruct (shl_align_m m e t ltac:(lia)) as [Hmz Hez].
    destruct (shl_align m e t) as [mz ez]. cbn [fst snd] in *. subst ez.
    assert (Zdigits2 (Zpos mz) + t = Zpos (digits2_pos m) + e) as Hd.
    { rewrite Hmz, Zdigits2_shiftl by lia. simpl. lia. }
    destruct (binary_round_aux_spec s (Zpos mz) t loc_Exact)
      as (m' & e' & _ & Hhi & Hc & ->).
    + lia.
    + unfold t. rewrite fexp_eq. lia.
    + rewrite Hd. fold t. lia.
    + rewrite Hd in Hhi. by exists m', e'.
Qed.


(** *** Integers as numbers *)

Lemma binary_round_valid (s : bool) (m : positive) (e : Z) :
  -1074 <= e → valid_binary (binary_round prec emax s m e) = true.
Proof.
  intros He. destruct (binary_round_spec s m e He) as (m' & e' & _ & Hc & ->).
  destruct (e' <=? 971) eqn:Hle; [|done].
  unfold valid_binary. cbn [SpecFloat.valid_binary]. unfold bounded.
  rewrite Hc. exact Hle.
Qed.

Lemma Prim2SF_to_number (z : Z) :
  Prim2SF (to_number z) = binary_normalize prec emax z 0 false.
Proof.
  unfold to_number. apply Prim2SF_SF2Prim.
  destruct z as [|p|p]; [done| |]; apply binary_round_valid; lia.
Qed.

(** An integer that is not zero is a number that is neither zero nor
    NaN, of the same sign. *)
Lemma to_number_cases (z : Z) :
  z ≠ 0 →
  Prim2SF (to_number z) = S754_infinity (z <? 0) ∨
  ∃ m e, Prim2SF (to_number z) = S754_finite (z <? 0) m e.
Proof.
  intros Hz. rewrite Prim2SF_to_number.
  destruct z as [|p|p]; [done| |]; cbn [binary_normalize];
    [destruct (binary_round_spec false p 0 ltac:(lia)) as (m & e & _ & _ & ->)
    |destruct (binary_round_spec true p 0 ltac:(lia)) as (m & e & _ & _ & ->)];
    (destruct (e <=? 971); [right; by exists m, e|by left]).
Qed.

(** An integer below [2^63] is a finite number. *)
Lemma to_number_finite (z : Z) :
  0 < z < 2 ^ 63 → ∃ m e, Prim2SF (to_number z) = S754_finite false m e.
Proof.
  intros Hz. rewrite Prim2SF_to_number.
  destruct z as [|p|p]; [lia| |lia]. cbn [binary_normalize].
  destruct (binary_round_spec false p 0 ltac:(lia)) as (m & e & He & _ & ->).
  assert (Zpos (digits2_pos p) <= 63) as Hd.
  { destruct (digits2_pos_bounds p) as [Hlo _].
    destruct (Z.le_gt_cases (Zpos (digits2_pos p)) 63) as [|Hgt]; [done|].
    assert (2 ^ 63 <= 2 ^ (Zpos (digits2_pos p) - 1))
      by (apply Z.pow_le_mono_r; lia).
    lia. }
  rewrite fexp_eq in He.
  rewrite (proj2 (Z.leb_le e 971)) by lia. by exists m, e.
Qed.

(** *** Order *)

Lemma bounded_inv (m : positive) (e : Z) :
  bounded prec emax m e = true →
  -1074 <= e <= 971 ∧ Zpos m < 2 ^ 53 ∧ (-1074 < e → 2 ^ 52 <= Zpos m).
Proof.
  unfold bounded, canonical_mantissa.
  intros [Hc He]%andb_true_iff. apply Z.eqb_eq in Hc. apply Z.leb_le in He.
  rewrite fexp_eq in Hc. change (emax - prec) with 971 in He.
  destruct (digits2_pos_bounds m) as [Hlo Hhi].
  assert (Zpos (digits2_pos m) <= 53) as Hd by lia.
  split_and!; [lia|lia| |].
  - eapply Z.lt_le_trans; [exact Hhi|]. apply Z.pow_le_mono_r; lia.
  - intros Hnormal. assert (Zpos (digits2_pos m) = 53) as Heq by lia.
    rewrite Heq in Hlo. exact Hlo.
Qed.

Lemma pow2_split (a b : Z) : 0 <= a <= b → 2 ^ b = 2 ^ a * 2 ^ (b - a).
Proof. intros H. rewrite <- Z.pow_add_r by lia. f_equal. lia. Qed.

(** Finite numbers of one sign are ordered as their scaled mantissas. *)
Lemma finite_compare (m1 m2 : positive) (e1 e2 : Z) :
  bounded prec emax m1 e1 = true → bounded prec emax m2 e2 = true →
  match e1 ?= e2 with
  | Lt => Lt
  | Gt => Gt
  | Eq => Pos.compare_cont Eq m1 m2
  end
  = (Zpos m1 * 2 ^ (e1 + 1074) ?= Zpos m2 * 2 ^ (e2 + 1074)).
Proof.
  intros (He1 & Hm1 & Hn1)%bounded_inv (He2 & Hm2 & Hn2)%bounded_inv.
  destruct (Z.compare_spec e1 e2) as [->|Hlt|Hgt].
  - change (Pos.compare_cont Eq m1 m2) with (Zpos m1 ?= Zpos m2).
    assert (0 < 2 ^ (e2 + 1074)) by (apply Z.pow_pos_nonneg; lia).
    destruct (Z.compare_spec (Zpos m1) (Zpos m2)) as [Heq|Hlt|Hgt]; symmetry.
    + apply Z.compare_eq_iff. by rewrite Heq.
    + apply Z.compare_lt_iff. nia.
    + apply Z.compare_gt_iff. nia.
  - symmetry. apply Z.compare_lt_iff.
    rewrite (pow2_split (e1 + 1074) (e2 + 1074)) by lia.
    assert (0 < 2 ^ (e1 + 1074)) by (apply Z.pow_pos_nonneg; lia).
    assert (2 ^ 1 <= 2 ^ (e2 + 1074 - (e1 + 1074)))
      by (apply Z.pow_le_mono_r; lia).
    specialize (Hn2 ltac:(lia)). change (2 ^ 52) with 4503599627370496 in *.
    change (2 ^ 53) with 9007199254740992 in *. change (2 ^ 1) with 2 in *.
    set (P := 2 ^ (e1 + 1074)) in *.
    set (Q := 2 ^ (e2 + 1074 - (e1 + 1074))) in *.
    assert (Zpos m1 * P < 9007199254740992 * P) by nia.
    assert (9007199254740992 * P <= Zpos m2 * P * 2) by nia.
    assert (Zpos m2 * P * 2 <= Zpos m2 * P * Q)
      by (apply Z.mul_le_mono_nonneg_l; nia).
    lia.
  - symmetry. apply Z.compare_gt_iff.
    rewrite (pow2_split (e2 + 1074) (e1 + 1074)) by lia.
    assert (0 < 2 ^ (e2 + 1074)) by (apply Z.pow_pos_nonneg; lia).
    assert (2 ^ 1 <= 2 ^ (e1 + 1074 - (e2 + 1074)))
      by (apply Z.pow_le_mono_r; lia).
    specialize (Hn1 ltac:(lia)). change (2 ^ 52) with 4503599627370496 in *.
    change (2 ^ 53) with 9007199254740992 in *. change (2 ^ 1) with 2 in *.
    set (P := 2 ^ (e2 + 1074)) in *.
    set (Q := 2 ^ (e1 + 1074 - (e2 + 1074))) in *.
    assert (Zpos m2 * P < 9007199254740992 * P) by nia.
    assert (9007199254740992 * P <= Zpos m1 * P * 2) by nia.
    assert (Zpos m1 * P * 2 <= Zpos m1 * P * Q)
      by (apply Z.mul_le_mono_nonneg_l; nia).
    lia.
Qed.

Lemma finite_rank_bound (s : bool) (m : positive) (e : Z) :
  bounded prec emax m e = true →
  - 2 ^ 2200 < SFrank (S754_finite s m e) < 2 ^ 2200 ∧
  (if s then SFrank (S754_finite s m e) < 0
   else 0 < SFrank (S754_finite s m e)).
Proof.
  intros (He & Hm & _)%bounded_inv. cbn [SFrank].
  assert (0 < 2 ^ (e + 1074)) by (apply Z.pow_pos_nonneg; lia).
  assert (2 ^ (e + 1074) <= 2 ^ 2045) by (apply Z.pow_le_mono_r; lia).
  assert (2 ^ 2200 = 2 ^ 53 * 2 ^ 2045 * 2 ^ 102) as ->
    by (rewrite <- !Z.pow_add_r by lia; reflexivity).
  assert (0 < 2 ^ 2045) by (apply Z.pow_pos_nonneg; lia).
  assert (1 <= 2 ^ 102) by (apply (Z.pow_le_mono_r 2 0 102); lia).
  assert (0 < 2 ^ 53) by (apply Z.pow_pos_nonneg; lia).
  assert (Zpos m * 2 ^ (e + 1074) < 2 ^ 53 * 2 ^ 2045) by nia.
  assert (2 ^ 53 * 2 ^ 2045 <= 2 ^ 53 * 2 ^ 2045 * 2 ^ 102) by nia.
  destruct s; cbn [cond_Zopp]; lia.
Qed.

Ltac rank_order :=
  cbn [SFrank cond_Zopp] in *; apply (f_equal Some); symmetry;
  first [apply Z.compare_eq_iff; lia | apply Z.compare_lt_iff; lia
        | apply Z.compare_gt_iff; lia].

(** Numbers are ordered as their ranks. *)
Lemma SFcompare_rank (f1 f2 : spec_float) :
  valid_binary f1 = true → valid_binary f2 = true →
  f1 ≠ S754_nan → f2 ≠ S754_nan →
  SFcompare f1 f2 = Some (SFrank f1 ?= SFrank f2).
Proof.
  intros Hv1 Hv2 Hn1 Hn2.
  assert (0 < 2 ^ 2200) as Hinf by (apply Z.pow_pos_nonneg; lia).
  destruct f1 as [s1|s1| |s1 m1 e1], f2 as [s2|s2| |s2 m2 e2]; try done;
    unfold valid_binary in Hv1, Hv2; cbn [SpecFloat.valid_binary] in Hv1, Hv2;
    try (pose proof (finite_rank_bound s1 m1 e1 Hv1) as [Hb1 Hs1]);
    try (pose proof (finite_rank_bound s2 m2 e2 Hv2) as [Hb2 Hs2]);
    cbn [SFcompare].
  - destruct s2; rank_order.
  - destruct s2; rank_order.
  - destruct s1; rank_order.
  - destruct s1, s2; rank_order.
  - destruct s1; rank_order.
  - destruct s1; rank_order.
  - destruct s2; rank_order.
  - destruct s1, s2; apply (f_equal Some).
    + pose proof (finite_compare m1 m2 e1 e2 Hv1 Hv2) as Hcmp.
      cbn [SFrank cond_Zopp].
      destruct (Z.compare_spec (Zpos m1 * 2 ^ (e1 + 1074))
                  (Zpos m2 * 2 ^ (e2 + 1074))) as [Heq|Hlt|Hgt];
        destruct (e1 ?= e2); try discriminate;
        try rewrite Hcmp; cbn [CompOpp]; symmetry;
        first [apply Z.compare_eq_iff; lia | apply Z.compare_lt_iff; lia
              | apply Z.compare_gt_iff; lia].
    + cbn [SFrank cond_Zopp] in *. symmetry. apply Z.compare_lt_iff. lia.
    + cbn [SFrank cond_Zopp] in *. symmetry. apply Z.compare_gt_iff. lia.
    + by rewrite (finite_compare m1 m2 e1 e2 Hv1 Hv2).
Qed.


(** *** Subtraction and division *)

Lemma binary_round_sign (s : bool) (m : positive) (e : Z) :
  -1074 <= e →
  binary_round prec emax s m e = S754_infinity s ∨
  ∃ m' e', binary_round prec emax s m e = S754_finite s m' e'.
Proof.
  intros He. destruct (binary_round_spec s m e He) as (m' & e' & _ & _ & ->).
  destruct (e' <=? 971); [right; by exists m', e'|by left].
Qed.

Lemma SFltb_zero (f : spec_float) (s : bool) :
  (f = S754_infinity s ∨ ∃ m e, f = S754_finite s m e) →
  SFltb (S754_zero false) f = negb s.
Proof. intros [->|(m & e & ->)]; by destruct s. Qed.

(** The sign of a difference is the order of its operands. *)
Lemma SFsub_sign (x y : spec_float) :
  valid_binary x = true → valid_binary y = true →
  x ≠ S754_nan → y ≠ S754_nan →
  SFltb (S754_zero false) (SFsub prec emax y x) = (SFrank x <? SFrank y).
Proof.
  intros Hvx Hvy Hnx Hny.
  assert (0 < 2 ^ 2200) as Hinf by (apply Z.pow_pos_nonneg; lia).
  unfold valid_binary in Hvx, Hvy.
  destruct x as [sx|sx| |sx mx ex], y as [sy|sy| |sy my ey]; try done;
    cbn [SpecFloat.valid_binary] in Hvx, Hvy;
    try (pose proof (finite_rank_bound sx mx ex Hvx) as [Hbx Hsx]);
    try (pose proof (finite_rank_bound sy my ey Hvy) as [Hby Hsy]).
  - by destruct sx, sy.
  - destruct sx, sy; cbn [SFsub SFltb SFcompare SFrank cond_Zopp];
      symmetry; first [apply Z.ltb_lt; lia | apply Z.ltb_ge; lia].
  - destruct sx, sy; cbn [SFsub SFltb SFcompare negb] in *;
      symmetry; first [apply Z.ltb_lt; cbn [SFrank] in *; lia
                      | apply Z.ltb_ge; cbn [SFrank] in *; lia].
  - destruct sx, sy; cbn [SFsub SFltb SFcompare SFrank cond_Zopp negb];
      symmetry; first [apply Z.ltb_lt; lia | apply Z.ltb_ge; lia].
  - destruct sx, sy; cbn [SFsub SFltb SFcompare SFrank cond_Zopp negb];
      symmetry; first [apply Z.ltb_lt; lia | apply Z.ltb_ge; lia].
  - destruct sx, sy; cbn [SFsub SFltb SFcompare negb] in *;
      symmetry; first [apply Z.ltb_lt; cbn [SFrank cond_Zopp] in *; lia
                      | apply Z.ltb_ge; cbn [SFrank cond_Zopp] in *; lia].
  - destruct sx, sy; cbn [SFsub SFltb SFcompare negb] in *;
      symmetry; first [apply Z.ltb_lt; cbn [SFrank] in *; lia
                      | apply Z.ltb_ge; cbn [SFrank] in *; lia].
  - destruct sx, sy; cbn [SFsub SFltb SFcompare negb] in *;
      symmetry; first [apply Z.ltb_lt; cbn [SFrank cond_Zopp] in *; lia
                      | apply Z.ltb_ge; cbn [SFrank cond_Zopp] in *; lia].
  - destruct (bounded_inv mx ex Hvx) as (Hex & _ & _).
    destruct (bounded_inv my ey Hvy) as (Hey & _ & _).
    cbn [SFsub]. set (ez := Z.min ey ex).
    destruct (shl_align_m my ey ez ltac:(lia)) as [Hmy _].
    destruct (shl_align_m mx ex ez ltac:(lia)) as [Hmx _].
    set (D := cond_Zopp sy (Zpos (fst (shl_align my ey ez)))
              - cond_Zopp sx (Zpos (fst (shl_align mx ex ez)))).
    assert (SFrank (S754_finite sy my ey) - SFrank (S754_finite sx mx ex)
            = D * 2 ^ (ez + 1074)) as Hdiff.
    { unfold D. rewrite Hmy, Hmx. cbn [SFrank].
      rewrite (pow2_split (ez + 1074) (ey + 1074)) by lia.
      rewrite (pow2_split (ez + 1074) (ex + 1074)) by lia.
      replace (ey + 1074 - (ez + 1074)) with (ey - ez) by lia.
      replace (ex + 1074 - (ez + 1074)) with (ex - ez) by lia.
      destruct sx, sy; cbn [cond_Zopp]; ring. }
    assert (0 < 2 ^ (ez + 1074)) as Hpow by (apply Z.pow_pos_nonneg; lia).
    destruct D as [|p|p] eqn:HD; cbn [binary_normalize].
    + symmetry. apply Z.ltb_ge. lia.
    + rewrite (SFltb_zero _ false) by (apply binary_round_sign; lia).
      symmetry. apply Z.ltb_lt. nia.
    + rewrite (SFltb_zero _ true) by (apply binary_round_sign; lia).
      symmetry. apply Z.ltb_ge. nia.
Qed.

Lemma shr_m_nonneg (mrs : shr_record) (e n : Z) :
  0 <= shr_m mrs → 0 <= shr_m (fst (shr mrs e n)).
Proof.
  intros Hm. destruct n as [|p|p]; cbn [shr fst]; [done| |done].
  rewrite iter_shr_1_m by done.
  apply Z.div_pos; [done|apply Z.pow_pos_nonneg; lia].
Qed.

Lemma binary_round_aux_not_nan (s : bool) (m e : Z) (l : location) :
  0 <= m → binary_round_aux prec emax s m e l ≠ S754_nan.
Proof.
  intros Hm. unfold binary_round_aux, shr_fexp.
  pose proof (shr_m_nonneg (shr_record_of_loc m l) e
                (fexp prec emax (Zdigits2 m + e) - e)
                ltac:(by rewrite shr_record_of_loc_m)) as H1.
  destruct (shr (shr_record_of_loc m l) e _) as [mrs1 e1]. cbn [fst] in H1.
  set (m2 := round_nearest_even (shr_m mrs1) (loc_of_shr_record mrs1)).
  assert (0 <= m2) as H2
    by (destruct (round_nearest_even_cases (shr_m mrs1)
                    (loc_of_shr_record mrs1)); lia).
  pose proof (shr_m_nonneg (shr_record_of_loc m2 loc_Exact) e1
                (fexp prec emax (Zdigits2 m2 + e1) - e1) H2) as H3.
  destruct (shr (shr_record_of_loc m2 loc_Exact) e1 _) as [mrs3 e3].
  cbn [fst] in H3.
  destruct (shr_m mrs3) as [|p|p]; [done| |lia].
  by destruct (e3 <=? emax - prec).
Qed.

Lemma SFdiv_core_binary_nonneg (m1 m2 : positive) (e1 e2 : Z) :
  0 <= (SFdiv_core_binary prec emax (Zpos m1) e1 (Zpos m2) e2).1.1.
Proof.
  unfold SFdiv_core_binary.
  set (s := e1 - e2 - _).
  set (m' := match s with Z0 => Zpos m1 | Zpos _ => Z.shiftl (Zpos m1) s
             | Zneg _ => 0 end).
  assert (0 <= m') as Hm'.
  { unfold m'. destruct s; [lia| |lia]. apply Z.shiftl_nonneg. lia. }
  pose proof (Z_div_mod m' (Zpos m2) ltac:(lia)) as Hdiv.
  destruct (Z.div_eucl m' (Zpos m2)) as [q r]. cbn [fst].
  destruct Hdiv as [Heq Hr]. nia.
Qed.

(** A quotient is a number unless it is 0/0 or of two infinities. *)
Lemma SFdiv_not_nan (x y : spec_float) :
  x ≠ S754_nan → y ≠ S754_nan →
  (∀ s, x ≠ S754_infinity s) →
  (∀ s, y ≠ S754_zero s) →
  SFdiv prec emax x y ≠ S754_nan.
Proof.
  intros Hx Hy Hfin Hnz.
  destruct x as [sx|sx| |sx mx ex], y as [sy|sy| |sy my ey]; try done;
    try (by destruct (Hnz sy)); try (by destruct (Hfin sx)).
  cbn [SFdiv].
  pose proof (SFdiv_core_binary_nonneg mx my ex ey) as Hq.
  destruct (SFdiv_core_binary prec emax (Zpos mx) ex (Zpos my) ey)
    as [[mz ez] lz].
  by apply binary_round_aux_not_nan.
Qed.

(** A difference is a number unless it is of two equal infinities. *)
Lemma SFsub_not_nan (x y : spec_float) :
  valid_binary x = true → valid_binary y = true →
  x ≠ S754_nan → y ≠ S754_nan →
  (∀ s, x ≠ S754_infinity s) →
  SFsub prec emax x y ≠ S754_nan.
Proof.
  intros Hvx Hvy Hx Hy Hfin. unfold valid_binary in Hvx, Hvy.
  destruct x as [sx|sx| |sx mx ex], y as [sy|sy| |sy my ey]; try done;
    cbn [SpecFloat.valid_binary] in Hvx, Hvy;
    try (by destruct (Hfin sx)); try (by destruct sx, sy).
  destruct (bounded_inv mx ex Hvx) as (Hex & _ & _).
  destruct (bounded_inv my ey Hvy) as (Hey & _ & _).
  cbn [SFsub]. destruct (_ - _) as [|p|p]; cbn [binary_normalize]; [done| |].
  - destruct (binary_round_sign false p (Z.min ex ey) ltac:(lia))
      as [->|(m & e & ->)]; done.
  - destruct (binary_round_sign true p (Z.min ex ey) ltac:(lia))
      as [->|(m & e & ->)]; done.
Qed.


(** *** Numbers *)

Lemma is_nan_spec (x : float) : is_nan x = true ↔ Prim2SF x = S754_nan.
Proof.
  unfold is_nan. rewrite FloatAxioms.eqb_spec. unfold SFeqb.
  destruct (Prim2SF x) as [s|s| |s m e] eqn:Hx; try (by destruct s).
  - done.
  - rewrite SFcompare_rank; try done; [by rewrite Z.compare_refl|..];
      rewrite <- Hx; apply Prim2SF_valid.
Qed.

Lemma is_nan_false (x : float) : is_nan x = false ↔ Prim2SF x ≠ S754_nan.
Proof. rewrite <- is_nan_spec. by destruct (is_nan x). Qed.

Lemma ltb_rank (x y : float) :
  is_nan x = false → is_nan y = false → (x <? y)%float = (rank x <? rank y).
Proof.
  intros Hx%is_nan_false Hy%is_nan_false. rewrite FloatAxioms.ltb_spec. unfold SFltb.
  rewrite SFcompare_rank by (try apply Prim2SF_valid; done).
  unfold rank, Z.ltb. by destruct (_ ?= _).
Qed.

Lemma leb_rank (x y : float) :
  is_nan x = false → is_nan y = false → (x <=? y)%float = (rank x <=? rank y).
Proof.
  intros Hx%is_nan_false Hy%is_nan_false. rewrite FloatAxioms.leb_spec. unfold SFleb.
  rewrite SFcompare_rank by (try apply Prim2SF_valid; done).
  unfold rank, Z.leb. by destruct (_ ?= _).
Qed.

(** The comparator [b - a] of a descending sort is positive exactly when
    [a < b]. *)
Lemma sub_positive (x y : float) :
  is_nan x = false → is_nan y = false →
  (0 <? y - x)%float = (rank x <? rank y).
Proof.
  intros Hx%is_nan_false Hy%is_nan_false. rewrite FloatAxioms.ltb_spec, sub_spec.
  change (Prim2SF 0) with (S754_zero false).
  by apply SFsub_sign; try apply Prim2SF_valid.
Qed.

(** The score [1 - index / fullTextLimit] is a number. *)
Lemma positional_score_number (index limit : Z) :
  0 <= index < 2 ^ 63 → limit ≠ 0 →
  is_nan (1 - to_number index / to_number limit) = false.
Proof.
  intros Hi Hl. apply is_nan_false. rewrite sub_spec, div_spec.
  assert (SFdiv prec emax (Prim2SF (to_number index))
            (Prim2SF (to_number limit)) ≠ S754_nan) as Hq.
  { assert (index = 0 ∨ 0 < index < 2 ^ 63) as [->|Hpos] by lia.
    - rewrite (Prim2SF_to_number 0). cbn [binary_normalize].
      destruct (to_number_cases limit Hl) as [->|(m & e & ->)]; done.
    - destruct (to_number_finite index Hpos) as (mi & ei & ->).
      destruct (to_number_cases limit Hl) as [->|(m & e & ->)]; [done|].
      by apply SFdiv_not_nan. }
  change (Prim2SF 1) with (S754_finite false 4503599627370496 (-52)).
  apply SFsub_not_nan; try done.
  rewrite <- div_spec. apply Prim2SF_valid.
Qed.

(** *** The range of a positional score *)

Lemma shr_fexp_value (m e : Z) (l : location) :
  0 < m → e <= fexp prec emax (Zdigits2 m + e) →
  shr_m (fst (shr_fexp prec emax m e l))
  = m / 2 ^ (fexp prec emax (Zdigits2 m + e) - e) ∧
  snd (shr_fexp prec emax m e l) = fexp prec emax (Zdigits2 m + e).
Proof.
  intros Hm Ht. unfold shr_fexp, shr.
  destruct (fexp prec emax (Zdigits2 m + e) - e) as [|p|p] eqn:Hn; [| |lia];
    cbn [fst snd].
  - rewrite shr_record_of_loc_m, Z.pow_0_r, Z.div_1_r. lia.
  - rewrite iter_shr_1_m, shr_record_of_loc_m
      by (rewrite shr_record_of_loc_m; lia). lia.
Qed.

Lemma scaled_floor (m k a : Z) :
  0 <= m → 0 <= k → 0 <= a →
  m / 2 ^ k * 2 ^ (k + a) <= m * 2 ^ a.
Proof.
  intros Hm Hk Ha. rewrite Z.pow_add_r by lia.
  assert (0 < 2 ^ k) by (apply Z.pow_pos_nonneg; lia).
  assert (0 < 2 ^ a) by (apply Z.pow_pos_nonneg; lia).
  pose proof (Z.mul_div_le m (2 ^ k) ltac:(lia)). nia.
Qed.

(** Rounding to nearest does not pass a bound above the value that is a
    multiple of the unit of the result. *)
Lemma binary_round_aux_upper (m e : Z) (l : location) (bound : Z) :
  0 < m → -1074 <= e → e <= fexp prec emax (Zdigits2 m + e) →
  m * 2 ^ (e + 1074) < bound →
  (2 ^ (fexp prec emax (Zdigits2 m + e) + 1074) | bound) →
  bound <= 2 ^ 2045 →
  ∃ (m' : positive) (e' : Z),
    binary_round_aux prec emax false m e l = S754_finite false m' e' ∧
    Zpos m' * 2 ^ (e' + 1074) <= bound.
Proof.
  intros Hm He Ht Hlt [N HN] Hmax. unfold binary_round_aux.
  destruct (shr_fexp_value m e l Hm Ht) as [Hv1 He1].
  destruct (shr_fexp_canonical m e l Hm He Ht) as (Hm1 & _ & Hc1).
  destruct (shr_fexp prec emax m e l) as [mrs1 e1]. cbn [fst snd] in *.
  set (t := fexp prec emax (Zdigits2 m + e)) in *. subst e1.
  assert (-1074 <= t) as Ht' by (unfold t; rewrite fexp_eq; lia).
  assert (0 < 2 ^ (t + 1074)) as Hpt by (apply Z.pow_pos_nonneg; lia).
  assert (shr_m mrs1 * 2 ^ (t + 1074) <= m * 2 ^ (e + 1074)) as Hfloor.
  { rewrite Hv1. replace (t + 1074) with (t - e + (e + 1074)) by lia.
    apply scaled_floor; lia. }
  assert (shr_m mrs1 < N) as HltN by nia.
  set (m2 := round_nearest_even (shr_m mrs1) (loc_of_shr_record mrs1)).
  assert (shr_m mrs1 <= m2 <= shr_m mrs1 + 1) as Hm2
    by (destruct (round_nearest_even_cases (shr_m mrs1)
                    (loc_of_shr_record mrs1)); lia).
  assert (Zdigits2 (shr_m mrs1) <= Zdigits2 m2) as Hd2
    by (apply Zdigits2_le; lia).
  assert (t <= fexp prec emax (Zdigits2 m2 + t)) as Ht2
    by (rewrite fexp_eq in Hc1 |- *; lia).
  destruct (shr_fexp_value m2 t loc_Exact ltac:(lia) Ht2) as [Hv3 He3].
  destruct (shr_fexp_canonical m2 t loc_Exact ltac:(lia) Ht' Ht2)
    as (Hm3 & _ & _).
  destruct (shr_fexp prec emax m2 t loc_Exact) as [mrs3 e3].
  cbn [fst snd] in *.
  set (t2 := fexp prec emax (Zdigits2 m2 + t)) in *. subst e3.
  assert (shr_m mrs3 * 2 ^ (t2 + 1074) <= m2 * 2 ^ (t + 1074)) as Hfloor3.
  { rewrite Hv3. replace (t2 + 1074) with (t2 - t + (t + 1074)) by lia.
    apply scaled_floor; lia. }
  assert (shr_m mrs3 * 2 ^ (t2 + 1074) <= bound) as Hbound by nia.
  destruct (shr_m mrs3) as [|m'|] eqn:Hm'; [lia| |lia].
  assert (0 < 2 ^ (t2 + 1074)) as Hpt2 by (apply Z.pow_pos_nonneg; lia).
  assert (2 ^ (t2 + 1074) <= 2 ^ 2045) as Hexp by nia.
  apply Z.pow_le_mono_r_iff in Hexp; [|lia..].
  exists m', t2. split; [|done].
  change (emax - prec) with 971.
  by rewrite (proj2 (Z.leb_le t2 971)) by lia.
Qed.

(** A mantissa in canonical form is not changed by rounding. *)
Lemma binary_round_aux_canonical (s : bool) (m : positive) (e : Z) :
  fexp prec emax (Zpos (digits2_pos m) + e) = e → e <= 971 →
  binary_round_aux prec emax s (Zpos m) e loc_Exact = S754_finite s m e.
Proof.
  intros Hc He. unfold binary_round_aux, shr_fexp. cbn [Zdigits2].
  rewrite Hc, Z.sub_diag. cbn [shr shr_record_of_loc fst snd shr_m
    loc_of_shr_record shr_r shr_s round_nearest_even Zdigits2].
  rewrite Hc, Z.sub_diag. cbn [shr shr_record_of_loc fst snd shr_m].
  change (emax - prec) with 971.
  by rewrite (proj2 (Z.leb_le e 971)) by lia.
Qed.

(** An integer below [2^53] is a double. *)
Lemma to_number_exact (z : Z) :
  0 < z < 2 ^ 53 →
  ∃ (m : positive) (e : Z),
    Prim2SF (to_number z) = S754_finite false m e ∧
    Zpos m = z * 2 ^ (- e) ∧ -52 <= e <= 0 ∧ Zpos (digits2_pos m) = 53.
Proof.
  intros Hz. rewrite Prim2SF_to_number.
  destruct z as [|p|p]; [lia| |lia]. cbn [binary_normalize Z.ltb Z.compare].
  cbn [Zdigits2].
  destruct (digits2_pos_bounds p) as [Hlo Hhi].
  assert (Zpos (digits2_pos p) <= 53) as Hd.
  { destruct (Z.le_gt_cases (Zpos (digits2_pos p)) 53) as [|Hgt]; [done|].
    assert (2 ^ 53 <= 2 ^ (Zpos (digits2_pos p) - 1))
      by (apply Z.pow_le_mono_r; lia). lia. }
  unfold binary_round.
  set (t := fexp prec emax (Zpos (digits2_pos p) + 0)).
  assert (t = Zpos (digits2_pos p) - 53) as Ht
    by (unfold t; rewrite fexp_eq; lia).
  destruct (shl_align_m p 0 t ltac:(lia)) as [Hmz Hez].
  destruct (shl_align p 0 t) as [mz ez]. cbn [fst snd] in *. subst ez.
  assert (Zpos (digits2_pos mz) = 53) as Hdz.
  { change (Zpos (digits2_pos mz)) with (Zdigits2 (Zpos mz)).
    rewrite Hmz, Zdigits2_shiftl by lia. cbn [Zdigits2]. lia. }
  rewrite binary_round_aux_canonical.
  - exists mz, t. split_and!; try done; lia.
  - rewrite Hdz, fexp_eq. lia.
  - lia.
Qed.

Lemma Zdigits2_below (q k : Z) : 0 < q < 2 ^ k → 0 <= k → Zdigits2 q <= k.
Proof.
  intros [Hq Hlt] Hk. destruct (Zdigits2_bounds q Hq) as [Hlo _].
  destruct (Z.le_gt_cases (Zdigits2 q) k) as [|Hgt]; [done|].
  assert (2 ^ k <= 2 ^ (Zdigits2 q - 1)) by (apply Z.pow_le_mono_r; lia).
  lia.
Qed.

(** The quotient of an integer by a greater one, both below [2^53],
    rounds to a double below 1. *)
Lemma SFdiv_below_one (m1 m2 : positive) (e1 e2 i limit : Z) :
  0 < i < limit → limit < 2 ^ 53 →
  Zpos m1 = i * 2 ^ (- e1) → -52 <= e1 <= 0 → Zpos (digits2_pos m1) = 53 →
  Zpos m2 = limit * 2 ^ (- e2) → -52 <= e2 <= 0 → Zpos (digits2_pos m2) = 53 →
  ∃ (m : positive) (e : Z),
    SFdiv prec emax (S754_finite false m1 e1) (S754_finite false m2 e2)
    = S754_finite false m e ∧
    Zpos m * 2 ^ (e + 1074) <= (2 ^ 53 - 1) * 2 ^ 1021.
Proof.
  intros Hi Hl Hm1 He1 Hd1 Hm2 He2 Hd2.
  cbn [SFdiv xorb]. unfold SFdiv_core_binary. cbn [Zdigits2].
  rewrite Hd1, Hd2.
  set (e' := e1 - e2 - 53).
  assert (Z.min (fexp prec emax (53 + e1 - (53 + e2))) (e1 - e2) = e') as ->
    by (rewrite fexp_eq; lia).
  replace (e1 - e2 - e') with 53 by lia.
  rewrite Z.shiftl_mul_pow2 by lia.
  destruct (digits2_pos_bounds m1) as [Hlo1 Hhi1].
  destruct (digits2_pos_bounds m2) as [Hlo2 Hhi2].
  rewrite Hd1 in Hlo1, Hhi1. rewrite Hd2 in Hlo2, Hhi2.
  change (53 - 1) with 52 in *.
  pose proof (Z_div_mod (Zpos m1 * 2 ^ 53) (Zpos m2) ltac:(lia)) as Hdiv.
  destruct (Z.div_eucl (Zpos m1 * 2 ^ 53) (Zpos m2)) as [q r].
  destruct Hdiv as [Hq Hr].
  assert (2 ^ 52 <= q) as Hq52.
  { change (2 ^ 52) with 4503599627370496 in *.
    change (2 ^ 53) with 9007199254740992 in *. nia. }
  assert (53 <= Zdigits2 q) as Hdq.
  { change 53 with (Zdigits2 (2 ^ 52)). apply Zdigits2_le; [done|lia]. }
  set (K := 2 ^ (- e')).
  set (P := 2 ^ (e' + 1074)).
  assert (0 < K) as HK by (apply Z.pow_pos_nonneg; lia).
  assert (0 < P) as HP by (apply Z.pow_pos_nonneg; lia).
  assert (K * P = 2 ^ 1021 * 2 ^ 53) as HKP.
  { unfold K, P. rewrite <- !Z.pow_add_r by lia. f_equal. lia. }
  assert (q * limit <= i * K) as Hql.
  { assert (0 < 2 ^ (- e2)) as H2 by (apply Z.pow_pos_nonneg; lia).
    assert (2 ^ (- e1) * 2 ^ 53 = K * 2 ^ (- e2)) as HK2.
    { unfold K. rewrite <- !Z.pow_add_r by lia. f_equal. lia. }
    assert (q * limit * 2 ^ (- e2) <= i * K * 2 ^ (- e2)) by nia.
    nia. }
  assert (i * 2 ^ 53 < limit * (2 ^ 53 - 1)) as Hil by nia.
  assert (q * 2 ^ 53 < (2 ^ 53 - 1) * K) as HqK.
  { assert (q * limit * 2 ^ 53 < limit * ((2 ^ 53 - 1) * K)) by nia. nia. }
  assert (q * P < (2 ^ 53 - 1) * 2 ^ 1021) as Hbound.
  { assert (q * P * 2 ^ 53 < (2 ^ 53 - 1) * 2 ^ 1021 * 2 ^ 53); [|lia].
    rewrite <- (Z.mul_assoc _ (2 ^ 1021)), <- HKP. nia. }
  assert (Zdigits2 q + e' <= 0) as Hsmall.
  { assert (Zdigits2 q <= - e'); [|lia].
    apply Zdigits2_below; [|lia]. split; [lia|]. fold K.
    change (2 ^ 53) with 9007199254740992 in HqK. lia. }
  apply binary_round_aux_upper.
  - lia.
  - unfold e'. lia.
  - rewrite fexp_eq. lia.
  - exact Hbound.
  - rewrite fexp_eq.
    exists ((2 ^ 53 - 1) * 2 ^ (1021 - (Z.max (Zdigits2 q + e' - 53) (-1074) + 1074))).
    rewrite <- Z.mul_assoc, <- Z.pow_add_r by lia. do 2 f_equal. lia.
  - assert (2 ^ 53 * 2 ^ 1021 <= 2 ^ 2045)
      by (rewrite <- Z.pow_add_r by lia; apply Z.pow_le_mono_r; lia).
    assert (0 < 2 ^ 1021) by (apply Z.pow_pos_nonneg; lia). nia.
Qed.

(** The alignment that precedes rounding keeps the value and leaves an
    exponent not above the one the size of the mantissa asks for. *)
Lemma shl_align_fexp_spec (m : positive) (e : Z) :
  -1074 <= e →
  ∃ (mz : positive) (ez : Z),
    shl_align m e (fexp prec emax (Zpos (digits2_pos m) + e)) = (mz, ez) ∧
    Zpos mz * 2 ^ (ez + 1074) = Zpos m * 2 ^ (e + 1074) ∧
    -1074 <= ez ∧
    Zdigits2 (Zpos mz) + ez = Zpos (digits2_pos m) + e ∧
    ez <= fexp prec emax (Zdigits2 (Zpos mz) + ez).
Proof.
  intros He. set (t := fexp prec emax (Zpos (digits2_pos m) + e)).
  destruct (Z.le_gt_cases e t) as [Hle|Hgt].
  - rewrite shl_align_id by done. exists m, e. by split_and!.
  - destruct (shl_align_m m e t ltac:(lia)) as [Hmz Hez].
    destruct (shl_align m e t) as [mz ez]. cbn [fst snd] in *. subst ez.
    assert (-1074 <= t) by (unfold t; rewrite fexp_eq; lia).
    assert (Zdigits2 (Zpos mz) + t = Zpos (digits2_pos m) + e) as Hd.
    { rewrite Hmz, Zdigits2_shiftl by lia. simpl. lia. }
    exists mz, t. split_and!; [done| |done|done|].
    + rewrite Hmz, <- Z.mul_assoc, <- Z.pow_add_r by lia. do 2 f_equal. lia.
    + rewrite Hd. fold t. lia.
Qed.

(** [1 - y] for a double [0 < y < 1] rounds to a double not above 1. *)
Lemma SFsub_one_upper (m : positive) (e : Z) :
  bounded prec emax m e = true →
  Zpos m * 2 ^ (e + 1074) < 2 ^ 1074 →
  ∃ (m' : positive) (e' : Z),
    SFsub prec emax (S754_finite false 4503599627370496 (-52))
      (S754_finite false m e)
    = S754_finite false m' e' ∧
    Zpos m' * 2 ^ (e' + 1074) <= 2 ^ 1074.
Proof.
  intros (He & Hm & Hn)%bounded_inv Hlt.
  assert (e <= -53) as He53.
  { destruct (Z.le_gt_cases e (-53)) as [|Hgt]; [done|].
    specialize (Hn ltac:(lia)).
    assert (2 ^ 1022 <= 2 ^ (e + 1074)) by (apply Z.pow_le_mono_r; lia).
    assert (2 ^ 1074 = 2 ^ 52 * 2 ^ 1022) as Heq
      by (rewrite <- Z.pow_add_r by lia; reflexivity).
    assert (0 < 2 ^ 1022) by (apply Z.pow_pos_nonneg; lia).
    assert (0 < 2 ^ 52) by (apply Z.pow_pos_nonneg; lia).
    nia. }
  cbn [SFsub cond_Zopp]. rewrite Z.min_r by lia.
  destruct (shl_align_m 4503599627370496 (-52) e ltac:(lia)) as [Hone _].
  rewrite Hone, (shl_align_id m e e) by lia. cbn [fst].
  assert (0 < 2 ^ (e + 1074)) as HP by (apply Z.pow_pos_nonneg; lia).
  assert (4503599627370496 * 2 ^ (-52 - e) = 2 ^ (- e)) as ->.
  { change 4503599627370496 with (2 ^ 52).
    rewrite <- Z.pow_add_r by lia. f_equal. lia. }
  assert (2 ^ (- e) * 2 ^ (e + 1074) = 2 ^ 1074) as Hunit
    by (rewrite <- Z.pow_add_r by lia; f_equal; lia).
  assert (Zpos m < 2 ^ (- e)) as Hsmall by nia.
  destruct (2 ^ (- e) - Zpos m) as [|p|p] eqn:Hp; [lia| |lia].
  cbn [binary_normalize]. unfold binary_round.
  destruct (shl_align_fexp_spec p e ltac:(lia))
    as (mz & ez & -> & Hval & Hez & Hd & Hcan).
  assert (0 < 2 ^ (- e)) by (apply Z.pow_pos_nonneg; lia).
  assert (Zpos (digits2_pos p) <= - e) as Hdp.
  { change (Zpos (digits2_pos p)) with (Zdigits2 (Zpos p)).
    apply Zdigits2_below; lia. }
  apply binary_round_aux_upper; try done.
  - rewrite Hval. nia.
  - rewrite Hd, fexp_eq.
    exists (2 ^ (- (Z.max (Zpos (digits2_pos p) + e - 53) (-1074)))).
    rewrite <- Z.pow_add_r by lia. f_equal. lia.
Qed.

Lemma rank_one : rank 1 = 2 ^ 1074.
Proof. reflexivity. Qed.

Lemma ltb_leb (x y : float) : (x <? y)%float = true → (x <=? y)%float = true.
Proof.
  rewrite FloatAxioms.ltb_spec, FloatAxioms.leb_spec. unfold SFltb, SFleb.
  by destruct (SFcompare _ _) as [[]|].
Qed.

(** The score of a row ranked under a positive limit is above 0 and not
    above 1. *)
Lemma positional_score_range (index limit : Z) :
  0 <= index < limit → limit < 2 ^ 53 →
  (0 <? 1 - to_number index / to_number limit)%float = true ∧
  (1 - to_number index / to_number limit <=? 1)%float = true.
Proof.
  intros Hi Hl.
  assert (∃ (m : positive) (e : Z),
            Prim2SF (1 - to_number index / to_number limit)
            = S754_finite false m e ∧
            Zpos m * 2 ^ (e + 1074) <= 2 ^ 1074) as (m & e & Hscore & Hle).
  { pose proof (Prim2SF_valid (to_number index / to_number limit)) as Hv.
    rewrite div_spec in Hv. rewrite sub_spec, div_spec.
    unfold SF64sub, SF64div in *.
    change (Prim2SF 1) with (S754_finite false 4503599627370496 (-52)).
    destruct (to_number_exact limit ltac:(lia))
      as (ml & el & Hpl & Hml & Hel & Hdl).
    rewrite Hpl in Hv |- *.
    assert (index = 0 ∨ 0 < index) as [->|Hpos] by lia.
    - rewrite (Prim2SF_to_number 0). cbn [binary_normalize SFdiv SFsub xorb].
      exists 4503599627370496%positive, (-52). split; [done|].
      by change (4503599627370496 * 2 ^ (-52 + 1074)) with (2 ^ 1074).
    - destruct (to_number_exact index ltac:(lia))
        as (mi & ei & Hpi & Hmi & Hei & Hdi).
      rewrite Hpi in Hv |- *.
      destruct (SFdiv_below_one mi ml ei el index limit)
        as (mq & eq & Hq & Hqle); [lia|lia|done|lia|done|done|lia|done|].
      rewrite Hq in Hv |- *. unfold valid_binary in Hv.
      cbn [SpecFloat.valid_binary] in Hv.
      apply SFsub_one_upper; [done|].
      assert (0 < 2 ^ 1021) by (apply Z.pow_pos_nonneg; lia).
      assert (2 ^ 1074 = 2 ^ 53 * 2 ^ 1021)
        by (rewrite <- Z.pow_add_r by lia; reflexivity).
      lia. }
  assert (is_nan (1 - to_number index / to_number limit) = false) as Hnum
    by (apply is_nan_false; by rewrite Hscore).
  assert (rank (1 - to_number index / to_number limit)
          = Zpos m * 2 ^ (e + 1074)) as Hrank
    by (unfold rank; by rewrite Hscore).
  pose proof (Prim2SF_valid (1 - to_number index / to_number limit)) as Hv.
  rewrite Hscore in Hv. unfold valid_binary in Hv.
  cbn [SpecFloat.valid_binary] in Hv.
  apply bounded_inv in Hv as (He & _ & _).
  assert (0 < 2 ^ (e + 1074)) by (apply Z.pow_pos_nonneg; lia).
  split.
  - rewrite ltb_rank by done. rewrite Hrank. apply Z.ltb_lt.
    change (rank 0) with 0. lia.
  - rewrite leb_rank by done. rewrite Hrank, rank_one. by apply Z.leb_le.
Qed.

End Doubles.

Section SortFacts.

Lemma relevance_cmp_positive a b :
  is_nan (relevanceScore a) = false → is_nan (relevanceScore b) = false →
  (0 <? relevance_cmp a b)%float
  = (rank (relevanceScore a) <? rank (relevanceScore b))%Z.
Proof. apply sub_positive. Qed.

Lemma by_relevance_rank a b :
  is_nan (relevanceScore a) = false → is_nan (relevanceScore b) = false →
  by_relevance a b ↔ (rank (relevanceScore b) <= rank (relevanceScore a))%Z.
Proof.
  intros Ha Hb. unfold by_relevance. rewrite leb_rank by done.
  apply Z.leb_le.
Qed.

Lemma sort_insert_perm x (l : list SearchResult) :
  sort_insert relevance_cmp x l ≡ₚ x :: l.
Proof.
  induction l as [|y l IH]; simpl; [done|].
  destruct (0 <? _)%float; [|done]. by rewrite IH, Permutation_swap.
Qed.

Lemma Array_sort_perm (l : list SearchResult) :
  Array_sort relevance_cmp l ≡ₚ l.
Proof.
  induction l as [|x l IH]; simpl; [done|].
  unfold Array_sort in IH. by rewrite sort_insert_perm, IH.
Qed.

Lemma sort_insert_sorted x l :
  scores_are_numbers (x :: l) →
  StronglySorted by_relevance l →
  StronglySorted by_relevance (sort_insert relevance_cmp x l).
Proof.
  intros [Hx Hl]%Forall_cons. induction 1 as [|y l Hsorted IH Hy]; simpl.
  - repeat constructor.
  - apply Forall_cons in Hl as [Hy' Hl].
    rewrite relevance_cmp_positive by done.
    destruct (_ <? _)%Z eqn:Hlt.
    + apply Z.ltb_lt in Hlt. constructor; [by apply IH|].
      rewrite sort_insert_perm. constructor; [|done].
      apply by_relevance_rank; [done..|lia].
    + apply Z.ltb_ge in Hlt.
      constructor; [by constructor|]. constructor.
      { apply by_relevance_rank; [done..|lia]. }
      apply Forall_forall. intros z Hz.
      pose proof (proj1 (Forall_forall _ _) Hy z Hz) as Hyz.
      pose proof (proj1 (Forall_forall _ _) Hl z Hz) as Hnum. simpl in Hnum.
      apply by_relevance_rank in Hyz; [|done..].
      apply by_relevance_rank; [done..|lia].
Qed.

Lemma Array_sort_sorted l :
  scores_are_numbers l →
  StronglySorted by_relevance (Array_sort relevance_cmp l).
Proof.
  induction l as [|x l IH]; simpl; [constructor|].
  intros [Hx Hl]%Forall_cons. apply sort_insert_sorted; [|by apply IH].
  constructor; [done|]. unfold scores_are_numbers.
  fold (Array_sort relevance_cmp l). by rewrite Array_sort_perm.
Qed.

End SortFacts.

Section HybridFacts.

Variables (fullTextLimit : Z) (sem : list SemanticHit) (ft : list Capture).

Let combined : Map :=
  fold_left (add_fulltext fullTextLimit) (ranked fullTextLimit ft)
    (fold_left add_semantic sem []).

Lemma merge_unfold :
  merge fullTextLimit sem ft = Array_sort relevance_cmp (map snd combined).
Proof. reflexivity. Qed.

Lemma combined_wf : Map_wf combined.
Proof.
  apply fold_fulltext_wf, fold_semantic_wf. split; [constructor|].
  by intros k v ?%elem_of_nil.
Qed.

Lemma combined_get key :
  Map_get key combined = merged_entry fullTextLimit sem ft key.
Proof.
  unfold combined, merged_entry.
  rewrite fold_fulltext_get, fold_semantic_get.
  by destruct (last _).
Qed.

Lemma merge_elem_of e :
  e ∈ merge fullTextLimit sem ft ↔
  merged_entry fullTextLimit sem ft (id (capture e)) = Some e.
Proof.
  rewrite merge_unfold, Array_sort_perm, <- combined_get.
  destruct combined_wf as [Hnd Hid].
  rewrite <- Map_get_elem by done. rewrite list_elem_of_fmap. split.
  - intros [[k v] [-> Hin]]. simpl. by rewrite (Hid _ _ Hin).
  - intros Hin. by exists (id (capture e), e).
Qed.

Lemma merge_ids :
  map (λ e, id (capture e)) (merge fullTextLimit sem ft) ≡ₚ map fst combined.
Proof.
  rewrite merge_unfold, Array_sort_perm.
  destruct combined_wf as [_ Hid].
  rewrite <- list_fmap_compose.
  erewrite list_fmap_ext; [done|]. intros i [k v] Hi. simpl.
  apply Hid. by eapply list_elem_of_lookup_2.
Qed.

Lemma merge_NoDup :
  NoDup (map (λ e, id (capture e)) (merge fullTextLimit sem ft)).
Proof. rewrite merge_ids. apply combined_wf. Qed.

Lemma merge_length :
  length (merge fullTextLimit sem ft)
  ≤ length sem + length (slice_to fullTextLimit ft).
Proof.
  rewrite <- (length_map (λ e, id (capture e))), merge_ids, length_map.
  unfold combined. etrans; [apply fold_fulltext_length|].
  unfold ranked. rewrite length_imap.
  pose proof (fold_semantic_length sem []). simpl in *. lia.
Qed.

Lemma merge_sorted :
  scores_are_numbers (merge fullTextLimit sem ft) →
  StronglySorted by_relevance (merge fullTextLimit sem ft).
Proof.
  rewrite merge_unfold. intros Hnum. apply Array_sort_sorted.
  unfold scores_are_numbers in *. by rewrite Array_sort_perm in Hnum.
Qed.

End HybridFacts.

Lemma slice_to_length {A} (n : Z) (l : list A) :
  (0 <= n)%Z → length (slice_to n l) ≤ Z.to_nat n.
Proof.
  intros Hn. unfold slice_to. rewrite (proj2 (Z.ltb_ge n 0)) by done.
  rewrite length_take. lia.
Qed.

Lemma slice_to_lookup {A} (n : Z) (l : list A) i x :
  slice_to n l !! i = Some x → l !! i = Some x ∧ ((0 <= n)%Z → (Z.of_nat i < n)%Z).
Proof.
  unfold slice_to. destruct (n <? 0)%Z eqn:Hn.
  - intros [? ?]%lookup_take_Some. apply Z.ltb_lt in Hn. split; [done | lia].
  - intros [? ?]%lookup_take_Some. split; [done | lia].
Qed.

Lemma lookup_slice_to {A} (n : Z) (l : list A) i x :
  l !! i = Some x → (Z.of_nat i < n)%Z → slice_to n l !! i = Some x.
Proof.
  intros Hl Hi. unfold slice_to. rewrite (proj2 (Z.ltb_ge n 0)) by lia.
  rewrite lookup_take_lt by lia. done.
Qed.

(** Every score of the merged list is a number when every similarity is
    and the full-text answer is an array: no index is then large enough
    for [index / fullTextLimit] to be a quotient of two infinities, and
    no row is ranked under a limit of zero. *)
Lemma merge_scores_numbers (fullTextLimit : Z) sem (ft : list Capture) :
  similarities_are_numbers sem →
  (Z.of_nat (length ft) < 2 ^ 32)%Z →
  scores_are_numbers (merge fullTextLimit sem ft).
Proof.
  intros Hsem Hlen. apply Forall_forall. intros e He.
  apply merge_elem_of in He. unfold merged_entry in He.
  destruct (last (filter _ sem)) as [r|] eqn:Hlast.
  - apply last_Some in Hlast as [l' Hl'].
    assert (r ∈ filter (λ r, id (hit r) = id (capture e)) sem) as Hin
      by (rewrite Hl'; set_solver).
    apply list_elem_of_filter in Hin as [_ Hin].
    injection He as <-. simpl.
    by apply (proj1 (Forall_forall _ _) Hsem).
  - destruct (head _) as [[i c]|] eqn:Hhead; [|done].
    injection He as <-. simpl.
    apply head_Some_elem_of, list_elem_of_filter in Hhead as [_ Hin].
    unfold ranked in Hin.
    apply elem_of_lookup_imap in Hin as (j & y & [= -> ->] & Hj).
    apply slice_to_lookup in Hj as [Hj Hlt].
    apply lookup_lt_Some in Hj.
    apply positional_score_number.
    + assert (2 ^ 32 < 2 ^ 63)%Z by done. lia.
    + intros ->. specialize (Hlt ltac:(done)). lia.
Qed.

(** The first pair of an indexed list that satisfies a predicate on its
    row is the pair of the first such row. *)
Lemma head_filter_imap {A} (P : A → Prop)
    (dec : ∀ e : nat * A, Decision (P e.2)) (l : list A) (off i : nat) (x : A) :
  l !! i = Some x → P x → (∀ j y, j < i → l !! j = Some y → ¬ P y) →
  head (@filter _ _ _ (λ e : nat * A, P e.2) dec (imap (λ j y, (off + j, y)) l))
  = Some (off + i, x).
Proof.
  revert off i. induction l as [|y l IH]; intros off i Hi HP Hfirst; [done|].
  simpl. rewrite filter_cons. destruct i as [|i]; simpl in *.
  - injection Hi as ->. destruct (decide (P x)) as [_|Hn]; [done | by destruct Hn].
  - destruct (decide (P y)) as [Hy|_].
    { destruct (Hfirst 0 y); [lia | done | done]. }
    rewrite (imap_ext _ (λ j y, (S off + j, y)))
      by (intros; simpl; f_equal; lia).
    rewrite (IH (S off) i Hi HP).
    + do 2 f_equal. lia.
    + intros j z Hj Hz. apply (Hfirst (S j)); [lia | done].
Qed.

Lemma head_filter_indexed {A} (P : A → Prop)
    (dec : ∀ e : nat * A, Decision (P e.2)) (l : list A) (i : nat) (x : A) :
  l !! i = Some x → P x → (∀ j y, j < i → l !! j = Some y → ¬ P y) →
  head (@filter _ _ _ (λ e : nat * A, P e.2) dec (imap (λ j y, (j, y)) l))
  = Some (i, x).
Proof.
  intros Hi HP Hfirst. exact (head_filter_imap P dec l 0 i x Hi HP Hfirst).
Qed.

Section HybridSearch.

Variables (env : SearchEnv) (query userId : jsstring) (options : Options).
Variables (sem : list SemanticHit) (ft : list Capture).

Let limit : Z := default 5%Z (fullTextLimit options).
Let semantic_limit : Z := default 5%Z (semanticLimit options).

Hypothesis semantic_answer :
  semanticSearch env query userId semantic_limit
    (default 0.7%float (semanticThreshold options)) = Ok sem.
Hypothesis fulltext_answer : fullTextSearch env query userId = Ok ft.

Lemma hybridSearch_Ok :
  hybridSearch env query userId options = Ok (merge limit sem ft).
Proof using semantic_answer fulltext_answer.
  unfold hybridSearch. fold limit semantic_limit.
  by rewrite semantic_answer, fulltext_answer.
Qed.

(** C4. When both searches answer, every capture id found among the
    semantic rows (so in particular every id found by both searches) has
    exactly one entry in the merged list; that entry has
    [searchType = semantic], is spread from the semantic row with that id
    (the last one, should the procedure answer an id twice) and its
    [relevanceScore] is that row's [similarity]. No full-text entry with
    that id is left. *)
Theorem hybrid_semantic_priority (key : jsstring) :
  key ∈ map (λ r, id (hit r)) sem →
  key ∈ map id ft →
  ∃ results r e,
    hybridSearch env query userId options = Ok results ∧
    last (filter (λ r, id (hit r) = key) sem) = Some r ∧
    e ∈ results ∧ id (capture e) = key ∧
    searchType e = semantic ∧
    relevanceScore e = similarity r ∧
    capture e = hit r ∧
    ∀ e', e' ∈ results → id (capture e') = key → e' = e.
Proof using semantic_answer fulltext_answer.
  intros Hsem _.
  destruct (last (filter (λ r, id (hit r) = key) sem)) as [r|] eqn:Hlast.
  - assert (id (hit r) = key) as Hr.
    { apply last_Some in Hlast as [l' Hl'].
      assert (r ∈ filter (λ r, id (hit r) = key) sem) as Hin
        by (rewrite Hl'; set_solver).
      by apply list_elem_of_filter in Hin as [? _]. }
    exists (merge limit sem ft), r, (semantic_entry r).
    split_and!; try done.
    + apply hybridSearch_Ok.
    + apply merge_elem_of. unfold merged_entry. simpl.
      by rewrite Hr, Hlast.
    + intros e' He' Hid. apply merge_elem_of in He'.
      unfold merged_entry in He'. rewrite Hid, Hlast in He'. congruence.
  - apply last_None in Hlast.
    apply list_elem_of_fmap in Hsem as [r [-> Hr]].
    assert (r ∈ filter (λ r0, id (hit r0) = id (hit r)) sem) as Hin
      by by apply list_elem_of_filter.
    rewrite Hlast in Hin. by apply elem_of_nil in Hin.
Qed.

(** C5. When both searches answer, a full-text row of 0-based rank
    [i < fullTextLimit] that enters the merged list (its id is not among
    the semantic rows nor carried by an earlier full-text row) gets
    [relevanceScore = 1 - i / fullTextLimit], the double that the division
    and the subtraction of the language give; every full-text entry of
    the merged list has such a score; and the merged list is in
    descending order of [relevanceScore] as the language compares
    doubles, whatever rows the two searches answered. The rows are those
    of the interface of the two searches: each similarity is a number
    (the answer is JSON, in which no number is NaN) and the full-text
    rows are an array (fewer than [2^32] of them). *)
Theorem hybrid_fulltext_scores_sorted :
  ∃ results,
    hybridSearch env query userId options = Ok results ∧
    (∀ i c,
       ft !! i = Some c → (Z.of_nat i < limit)%Z →
       id c ∉ map (λ r, id (hit r)) sem →
       (∀ j c', j < i → ft !! j = Some c' → id c' ≠ id c) →
       ∃ e, e ∈ results ∧ capture e = c ∧ searchType e = fulltext ∧
            relevanceScore e
            = (1 - to_number (Z.of_nat i) / to_number limit)%float) ∧
    (∀ e, e ∈ results → searchType e = fulltext →
       ∃ i, ft !! i = Some (capture e) ∧
            relevanceScore e
            = (1 - to_number (Z.of_nat i) / to_number limit)%float ∧
            ((0 <= limit)%Z → (Z.of_nat i < limit)%Z)) ∧
    (similarities_are_numbers sem → (Z.of_nat (length ft) < 2 ^ 32)%Z →
     StronglySorted by_relevance results).
Proof using semantic_answer fulltext_answer.
  exists (merge limit sem ft). split_and!.
  - apply hybridSearch_Ok.
  - intros i c Hi Hlt Hfresh Hfirst.
    exists (fulltext_entry limit i c). split_and!; try done.
    apply merge_elem_of. unfold merged_entry. simpl.
    destruct (last (filter _ sem)) as [r|] eqn:Hlast.
    + apply last_Some in Hlast as [l' Hl'].
      assert (r ∈ filter (λ r, id (hit r) = id c) sem) as Hin
        by (rewrite Hl'; set_solver).
      apply list_elem_of_filter in Hin as [Hr Hin]. destruct Hfresh.
      apply list_elem_of_fmap. by exists r.
    + assert (head (filter (λ e : nat * Capture, id e.2 = id c)
                      (ranked limit ft)) = Some (i, c)) as ->; [|done].
      unfold ranked.
      apply (head_filter_indexed (λ x, id x = id c)); [|done|].
      * by apply lookup_slice_to.
      * intros j y Hj [Hy _]%slice_to_lookup. by apply (Hfirst j).
  - intros e He Hty. apply merge_elem_of in He. unfold merged_entry in He.
    destruct (last (filter _ sem)) as [r|].
    { injection He as <-. discriminate. }
    destruct (head _) as [[i c]|] eqn:Hhead; [|done].
    injection He as <-. simpl.
    apply head_Some_elem_of, list_elem_of_filter in Hhead as [_ Hin].
    unfold ranked in Hin.
    apply elem_of_lookup_imap in Hin as (j & y & [= -> ->] & Hj).
    apply slice_to_lookup in Hj as [Hj Hlt]. by exists j.
  - intros Hsem Hlen. by apply merge_sorted, merge_scores_numbers.
Qed.

(** C10 (as the code has it). When both searches answer, no capture id
    occurs twice in the merged list, whatever the limits; and for a
    [fullTextLimit] that is not negative the list is no longer than the
    number of semantic rows plus [fullTextLimit], hence no longer than
    [semanticLimit + fullTextLimit] when the semantic search honours its
    limit. A negative [fullTextLimit] makes [slice] count from the end of
    the rows, and the bound fails. *)
Theorem hybrid_unique_bounded :
  ∃ results,
    hybridSearch env query userId options = Ok results ∧
    NoDup (map (λ e, id (capture e)) results) ∧
    ((0 <= limit)%Z →
     (Z.of_nat (length results) <= Z.of_nat (length sem) + limit)%Z ∧
     ((Z.of_nat (length sem) <= semantic_limit)%Z →
      (Z.of_nat (length results) <= semantic_limit + limit)%Z)).
Proof using semantic_answer fulltext_answer.
  exists (merge limit sem ft). split_and!.
  - apply hybridSearch_Ok.
  - apply merge_NoDup.
  - intros Hlimit.
    pose proof (merge_length limit sem ft) as Hlen.
    pose proof (slice_to_length limit ft Hlimit) as Hslice.
    split; lia.
Qed.

End HybridSearch.

(* ===================================================================== *)
(** ** Processing state machine: proofs *)
(* ===================================================================== *)

Section TemporalFacts.

(** A result of [extractTemporalInfo] carries a valid datetime: an
    invalid one makes [toISOString] throw inside the extractor. *)
Lemma extractTemporalInfo_datetime chrono text info d :
  extractTemporalInfo chrono text = Some info →
  extractedDatetime info = Some d →
  is_Some (toISOString d).
Proof.
  unfold extractTemporalInfo. destruct text as [|c text]; [done|].
  destruct (chrono (c :: text)) as [results|]; [|done].
  destruct results as [|best rest].
  - simpl. case_match; [|done]. intros [= <-]. done.
  - unfold with_best_match.
    destruct (toISOString (start_date best)) as [iso|] eqn:Hiso; [|done].
    simpl. case_match; [|done]. intros [= <-]. simpl. intros [= <-].
    by rewrite Hiso.
Qed.

Lemma lookup_set_if cond column v (data : gmap string value) k :
  set_if cond column v data !! k =
  if cond && bool_decide (column = k) then Some v else data !! k.
Proof.
  unfold set_if. destruct cond; simpl; [|done].
  case_bool_decide as Hk; [subst; apply lookup_insert_eq|].
  by apply lookup_insert_ne.
Qed.

End TemporalFacts.

Section ProcessCapture.

Variables (env : Env) (imageUrl note : option jsstring).
Variables (tags : option (list jsstring)) (w : World).

Let first_call : nat := length (updates w).

#[local] Arguments filter_Boolean : simpl never.
#[local] Arguments extractTemporalInfo : simpl never.
#[local] Arguments combineTextForEmbedding : simpl never.
#[local] Arguments join : simpl never.
#[local] Arguments trim : simpl never.
#[local] Arguments lit : simpl never.

Lemma update_accepted patch (w0 : World) :
  db_update env (length (updates w0)) = Accepted →
  update env patch w0 =
  (Ok None, {| row := patch ∪ row w0; updates := updates w0 ++ [patch];
               dates := dates w0 |}).
Proof. intros H. unfold update. by rewrite H. Qed.

Lemma lookup_failed_patch ts column :
  failed_patch ts !! column =
  if decide (column = "processing_status") then Some (VStr (lit "failed"))
  else if decide (column = "processed_at") then Some (VStr ts)
  else None.
Proof.
  unfold failed_patch. repeat case_decide; simplify_map_eq; done.
Qed.

Lemma lookup_processing_patch column :
  processing_patch !! column =
  if decide (column = "processing_status")
  then Some (VStr (lit "processing")) else None.
Proof. unfold processing_patch. case_decide; simplify_map_eq; done. Qed.

Lemma ocr_step :
  (if truthy imageUrl
   then lift (extractTextFromImage (textDetection env) imageUrl)
   else ret []) = lift (ocr_text env imageUrl).
Proof. unfold ocr_text. by destruct (truthy imageUrl). Qed.

(** When the embedding service fails, step 4 ends without an embedding
    and without an error. *)
Lemma embedding_step_fails combinedText (w0 : World) :
  (∀ t, ∃ e, embeddings_create env t = Throw e) →
  (if (0 <? length (trim combinedText))%nat
   then try_catch
          (let! e := lift (generateEmbedding (embeddings_create env)
                             combinedText) in
           ret (Some e))
          (fun _ => ret None)
   else ret None) w0 = (Ok None, w0).
Proof.
  intros Hfail. destruct (0 <? _)%nat; [|done].
  unfold try_catch, bind, lift, generateEmbedding.
  destruct (length (trim combinedText) =? 0)%nat; [done|].
  destruct (Hfail (take (N.to_nat 8000) combinedText)) as [e ->]. done.
Qed.

Lemma add_temporal_ok info data (w0 : World) :
  (∀ i d, info = Some i → extractedDatetime i = Some d →
          is_Some (toISOString d)) →
  ∃ data',
    add_temporal info data w0 = (Ok data', w0) ∧
    ∀ column,
      data' !! column =
      match temporal_value info column with
      | Some v => Some v
      | None => data !! column
      end.
Proof.
  intros Hvalid. destruct info as [i|]; simpl; [|by exists data].
  unfold bind.
  destruct (extractedDatetime i) as [d|] eqn:Hd.
  - destruct (Hvalid i d eq_refl Hd) as [iso Hiso]. rewrite Hiso.
    eexists. split; [reflexivity|]. intros column.
    rewrite !lookup_set_if. unfold produced_text, truthy.
    repeat case_decide; subst; simpl;
      rewrite ?lookup_insert_eq, ?lookup_insert_ne, ?lookup_set_if by done;
      rewrite ?bool_decide_eq_false_2 by done;
      rewrite ?andb_false_r, ?andb_true_r;
      repeat case_match; simplify_eq/=; try done.
  - eexists. split; [reflexivity|]. intros column.
    rewrite !lookup_set_if. unfold produced_text, truthy.
    repeat case_decide; subst; simpl;
      rewrite ?lookup_insert_eq, ?lookup_insert_ne, ?lookup_set_if by done;
      rewrite ?bool_decide_eq_false_2 by done;
      rewrite ?andb_false_r, ?andb_true_r;
      repeat case_match; simplify_eq/=; try done.
Qed.

(** C9. If the first status write is accepted and OCR throws, the
    invocation issues exactly two writes (the [processing] status, then
    the [failed] status with the processed timestamp) and rethrows the
    OCR error; once the storage has accepted the second write the record
    has status [failed] and that timestamp, and every other column
    (extracted text, embedding, the temporal columns, ...) holds the value
    it had before the invocation. *)
Theorem ocr_failure_isolated (c : N) (url e : jsstring) :
  imageUrl = Some (c :: url) →
  db_update env first_call = Accepted →
  textDetection env (c :: url) = Throw e →
  db_update env (S first_call) = Accepted →
  ∃ w',
    processCapture env imageUrl note tags w
    = (Throw (lit "Google Vision OCR failed: " ++ e), w') ∧
    updates w'
    = updates w ++ [processing_patch; failed_patch (now env (dates w))] ∧
    row w' !! "processing_status" = Some (VStr (lit "failed")) ∧
    row w' !! "processed_at" = Some (VStr (now env (dates w))) ∧
    ∀ column,
      column ≠ "processing_status" → column ≠ "processed_at" →
      row w' !! column = row w !! column.
Proof.
  intros -> H1 Hocr H2. unfold first_call in *.
  eexists. split.
  { unfold processCapture, try_catch, bind.
    rewrite (update_accepted _ _ H1). simpl.
    unfold lift, extractTextFromImage. rewrite Hocr. simpl.
    unfold update. simpl. rewrite length_app. simpl.
    replace (length (updates w) + 1) with (S (length (updates w))) by lia.
    rewrite H2. reflexivity. }
  simpl. split_and!.
  - by rewrite <- app_assoc.
  - rewrite lookup_union, lookup_failed_patch. simpl.
    by destruct (_ !! _).
  - rewrite lookup_union, lookup_failed_patch. simpl.
    by destruct (_ !! _).
  - intros column Hs Hp.
    rewrite !lookup_union, lookup_failed_patch, lookup_processing_patch.
    rewrite !decide_False by done. by destruct (row w !! column).
Qed.

(** C3. If the storage accepts both writes, OCR yields [text] (the
    empty text when there is no image), and the embedding service throws,
    the invocation still succeeds: it returns without an embedding, the
    final write carries exactly the columns of step 6 other than
    [embedding] (the extracted text, the status [completed], the processed
    timestamp and the temporal columns the extractor produced), the
    record ends with status [completed], and its [embedding] column is
    not written. *)
Theorem embedding_failure_nonfatal (text : jsstring) :
  db_update env first_call = Accepted →
  ocr_text env imageUrl = Ok text →
  (∀ t, ∃ e, embeddings_create env t = Throw e) →
  db_update env (S first_call) = Accepted →
  ∃ w' updateData,
    processCapture env imageUrl note tags w
    = (Ok {| success := true; result_text := text; hasEmbedding := false;
             result_temporal := temporal_of env note text (now env (dates w)) |},
       w') ∧
    updates w' = updates w ++ [processing_patch; updateData] ∧
    row w' = updateData ∪ (processing_patch ∪ row w) ∧
    (∀ column,
       updateData !! column =
       step6_value text (now env (S (dates w))) None
         (temporal_of env note text (now env (dates w))) column) ∧
    row w' !! "processing_status" = Some (VStr (lit "completed")) ∧
    row w' !! "embedding" = row w !! "embedding".
Proof.
  intros H1 Hocr Hembed H2. unfold first_call in *.
  set (info := temporal_of env note text (now env (dates w))).
  set (w1 := {| row := processing_patch ∪ row w;
                updates := updates w ++ [processing_patch];
                dates := S (S (dates w)) |}).
  set (base := <["extracted_text" := VStr text]>
                 (<["processing_status" := VStr (lit "completed")]>
                    ({[ "processed_at" := VStr (now env (S (dates w))) ]}
                     : gmap string value))).
  destruct (add_temporal_ok info base w1) as (data' & Hadd & Hdata').
  { intros i d Hi Hd. unfold info, temporal_of in Hi.
    by eapply extractTemporalInfo_datetime. }
  assert (∀ column, data' !! column =
            step6_value text (now env (S (dates w))) None info column)
    as Hcolumns.
  { intros column. rewrite Hdata'. unfold step6_value, base.
    repeat case_decide; subst;
      rewrite ?lookup_insert_eq, ?lookup_insert_ne, ?lookup_singleton_eq,
        ?lookup_singleton_ne, ?lookup_empty by done;
      try (by destruct (temporal_value info _));
      try (by destruct info). }
  exists {| row := data' ∪ (processing_patch ∪ row w);
            updates := (updates w ++ [processing_patch]) ++ [data'];
            dates := S (S (dates w)) |}, data'.
  split_and!; simpl.
  - unfold processCapture, try_catch. unfold bind at 1.
    rewrite (update_accepted _ _ H1). simpl.
    unfold bind at 1. simpl. rewrite ocr_step, Hocr.
    unfold bind at 1. unfold lift at 1.
    unfold bind at 1. unfold new_Date at 1. simpl.
    fold (temporal_of env note text (now env (dates w))). fold info.
    unfold bind at 1. rewrite embedding_step_fails by done.
    unfold bind at 1. unfold new_Date at 1. simpl.
    unfold bind at 1. fold base. fold w1. rewrite Hadd.
    unfold bind at 1. unfold update. subst w1. simpl.
    rewrite length_app. simpl.
    replace (length (updates w) + 1) with (S (length (updates w))) by lia.
    rewrite H2. reflexivity.
  - by rewrite <- app_assoc.
  - done.
  - done.
  - rewrite lookup_union, Hcolumns. unfold step6_value.
    rewrite decide_False by done. rewrite decide_True by done.
    by destruct (_ !! _).
  - rewrite !lookup_union, Hcolumns, lookup_processing_patch.
    unfold step6_value. rewrite !decide_False by done.
    rewrite decide_True by done. simpl.
    by destruct (row w !! "embedding").
Qed.

(** C1 (as the code has it). If the storage does not accept the initial
    [processing] write, the whole operation fails, and the failure goes
    through the same handler as every other error: a second write, of
    the status [failed] with the processed timestamp, is attempted. When
    the storage accepts that write the record ends with status [failed];
    when it does not, the record is left as it was. *)
Theorem initial_write_failure :
  db_update env first_call ≠ Accepted →
  ∃ error w',
    processCapture env imageUrl note tags w = (Throw error, w') ∧
    updates w'
    = updates w ++ [processing_patch; failed_patch (now env (dates w))] ∧
    (db_update env (S first_call) = Accepted →
     row w' !! "processing_status" = Some (VStr (lit "failed")) ∧
     row w' !! "processed_at" = Some (VStr (now env (dates w)))) ∧
    (db_update env (S first_call) ≠ Accepted → row w' = row w).
Proof.
  intros H1. unfold first_call in *.
  unfold processCapture, try_catch. unfold bind at 1. unfold update at 1.
  destruct (db_update env (length (updates w))) as [|e|e] eqn:Hfirst;
    [done| |]; simpl; unfold bind, new_Date, update; simpl;
    rewrite length_app; simpl;
    replace (length (updates w) + 1) with (S (length (updates w))) by lia;
    destruct (db_update env (S (length (updates w)))) as [|e2|e2];
    simpl; eexists _, _; (split; [reflexivity|]); simpl;
    rewrite <- app_assoc; (split; [done|]);
    rewrite ?lookup_union, ?lookup_failed_patch; simpl;
    split; try done; intros _; split; by destruct (_ !! _).
Qed.

End ProcessCapture.

(* ===================================================================== *)
(** ** Sanitizer, temporal extractor and combiner: proofs *)
(* ===================================================================== *)

(** C2 (counterexample). The sanitized invoice text holds neither the
    date 03/14/2024 nor the invoice number. *)
Lemma invoice_date_removed :
  includes (lit "03/14/2024") (cleanExtractedText invoice_text) = false ∧
  includes (lit "2024") (cleanExtractedText invoice_text) = false ∧
  includes (lit "Invoice #1023") (cleanExtractedText invoice_text) = false.
Proof. by vm_compute. Qed.

(** C2 (as the code has it). The sanitizer turns the invoice text into
    the three lines ["Invoice #"], ["Date:"] and ["Total: $45.00"]: the
    labels and the total are kept, the slash-delimited date is removed as a
    numeric triple and 1023 as a four-digit number outside [1900, 2100]. *)
Theorem invoice_sanitized :
  cleanExtractedText invoice_text
  = lit "Invoice #" ++ [LF] ++ lit "Date:" ++ [LF] ++ lit "Total: $45.00".
Proof. by vm_compute. Qed.

(** C7 (counterexample). Sanitizing ["12 if foo\n\n34 x"] gives
    ["12\n\n34 x"], and sanitizing that gives ["x"]. *)
Lemma sanitizer_not_idempotent :
  cleanExtractedText number_pair_text = lit "12" ++ [LF; LF] ++ lit "34 x" ∧
  cleanExtractedText (cleanExtractedText number_pair_text) = lit "x" ∧
  cleanExtractedText (cleanExtractedText number_pair_text)
  ≠ cleanExtractedText number_pair_text.
Proof. by vm_compute. Qed.

(* ===================================================================== *)
(** ** Confidence: what the three patterns test *)
(* ===================================================================== *)

Section Matching.





(** *** Words under the i flag *)
















End Matching.

Section Confidence.




End Confidence.

Section CombinerFacts.

Lemma push_present_text s label parts :
  push_if (truthy s && truthy (trim <$> s))
    (lit label ++ trim (default [] s)) parts
  = parts ++ omap (λ s, s) [labeled label (present_text s)].
Proof.
  destruct s as [[|c s]|]; simpl; try by rewrite app_nil_r.
  unfold push_if, labeled, present_text. simpl.
  destruct (trim (c :: s)); simpl; [by rewrite app_nil_r | done].
Qed.

(** C8. For every note, extracted text, tag list and temporal context
    the combiner's output is the blank-line join of the sections
    [Note:], [Content:], [Tags:], [Temporal context:], in that order, each
    present exactly when its source is: a note or text that is absent or
    empty after trimming, an absent or empty tag list and an absent or
    empty temporal context give no section. *)
Theorem combiner_sections note extractedText tags temporalContext :
  combineTextForEmbedding note extractedText tags temporalContext
  = join [LF; LF]
      (omap (λ s, s) (spec_sections note extractedText tags temporalContext)).
Proof.
  unfold combineTextForEmbedding, spec_sections.
  rewrite !push_present_text. f_equal.
  destruct (omap (λ s, s) [labeled "Note: " (present_text note)]) eqn:Hn,
    (omap (λ s, s) [labeled "Content: " (present_text extractedText)]) eqn:Hc;
    simpl in *;
    destruct (present_text note), (present_text extractedText);
    simplify_eq/=;
    destruct tags as [[|t ts]|], temporalContext as [[|e ctx]|]; done.
Qed.

End CombinerFacts.

(* ===================================================================== *)
(** ** The theorems at concrete inputs *)
(* ===================================================================== *)

(** C4 at the sample searches: the id ["b"] is answered by both. *)
Lemma hybrid_semantic_priority_witness :
  (lit "b" ∈ map (λ r, id (hit r)) demo_semantic ∧
   lit "b" ∈ map id demo_fulltext) ∧
  ∃ results r e,
    hybridSearch demo_search (lit "notes") (lit "u1") demo_options = Ok results ∧
    last (filter (λ r, id (hit r) = lit "b") demo_semantic) = Some r ∧
    e ∈ results ∧ id (capture e) = lit "b" ∧
    searchType e = semantic ∧
    relevanceScore e = similarity r ∧
    capture e = hit r ∧
    ∀ e', e' ∈ results → id (capture e') = lit "b" → e' = e.
Proof.
  assert (lit "b" ∈ map (λ r, id (hit r)) demo_semantic) as H1
    by (apply (bool_decide_unpack _); vm_compute; exact I).
  assert (lit "b" ∈ map id demo_fulltext) as H2
    by (apply (bool_decide_unpack _); vm_compute; exact I).
  split; [by split|].
  apply (hybrid_semantic_priority demo_search (lit "notes") (lit "u1")
           demo_options demo_semantic demo_fulltext);
    [reflexivity | reflexivity | exact H1 | exact H2].
Defined.

(** C5 at the sample searches, with [fullTextLimit = 2]: the full-text
    row ["c"], of rank 1, enters the merged list with the score
    [1 - 1/2], and the merged list is in descending order. *)
Lemma hybrid_fulltext_scores_sorted_witness :
  (semanticSearch demo_search (lit "notes") (lit "u1")
     (default 5%Z (semanticLimit demo_options))
     (default 0.7%float (semanticThreshold demo_options)) = Ok demo_semantic ∧
   fullTextSearch demo_search (lit "notes") (lit "u1") = Ok demo_fulltext) ∧
  ∃ results,
    hybridSearch demo_search (lit "notes") (lit "u1") demo_options = Ok results ∧
    (∃ e, e ∈ results ∧ capture e = demo_capture "c" ∧
          searchType e = fulltext ∧
          relevanceScore e = (1 - to_number 1 / to_number 2)%float) ∧
    (∀ e, e ∈ results → searchType e = fulltext →
       ∃ i, demo_fulltext !! i = Some (capture e) ∧
            relevanceScore e
            = (1 - to_number (Z.of_nat i)
                   / to_number (default 5%Z (fullTextLimit demo_options)))%float ∧
            ((0 <= default 5%Z (fullTextLimit demo_options))%Z →
             (Z.of_nat i < default 5%Z (fullTextLimit demo_options))%Z)) ∧
    StronglySorted by_relevance results.
Proof.
  split; [split; reflexivity|].
  destruct (hybrid_fulltext_scores_sorted demo_search (lit "notes") (lit "u1")
              demo_options demo_semantic demo_fulltext eq_refl eq_refl)
    as (results & Hrun & Hscore & Hall & Hsorted).
  assert (similarities_are_numbers demo_semantic) as Hsem
    by (repeat constructor).
  assert (Z.of_nat (length demo_fulltext) < 2 ^ 32)%Z as Hlen
    by reflexivity.
  exists results.
  split_and!; [exact Hrun | | exact Hall | exact (Hsorted Hsem Hlen)].
  apply (Hscore 1 (demo_capture "c")).
  - reflexivity.
  - simpl. lia.
  - apply (bool_decide_unpack _). vm_compute. exact I.
  - intros j c' Hj Hc'. destruct j as [|j]; [|lia].
    injection Hc' as <-. discriminate.
Defined.

(** C10 at the sample searches: two semantic rows and a limit of 2. *)
Lemma hybrid_unique_bounded_witness :
  (semanticSearch demo_search (lit "notes") (lit "u1")
     (default 5%Z (semanticLimit demo_options))
     (default 0.7%float (semanticThreshold demo_options)) = Ok demo_semantic ∧
   fullTextSearch demo_search (lit "notes") (lit "u1") = Ok demo_fulltext ∧
   (0 <= default 5%Z (fullTextLimit demo_options))%Z ∧
   (Z.of_nat (length demo_semantic)
    <= default 5%Z (semanticLimit demo_options))%Z) ∧
  ∃ results,
    hybridSearch demo_search (lit "notes") (lit "u1") demo_options = Ok results ∧
    NoDup (map (λ e, id (capture e)) results) ∧
    (Z.of_nat (length results)
     <= Z.of_nat (length demo_semantic)
        + default 5%Z (fullTextLimit demo_options))%Z ∧
    (Z.of_nat (length results)
     <= default 5%Z (semanticLimit demo_options)
        + default 5%Z (fullTextLimit demo_options))%Z.
Proof.
  assert (0 <= default 5%Z (fullTextLimit demo_options))%Z as Hlimit
    by (simpl; lia).
  assert (Z.of_nat (length demo_semantic)
          <= default 5%Z (semanticLimit demo_options))%Z as Hsem
    by (simpl; lia).
  split; [split_and!; [reflexivity | reflexivity | exact Hlimit | exact Hsem]|].
  destruct (hybrid_unique_bounded demo_search (lit "notes") (lit "u1")
              demo_options demo_semantic demo_fulltext eq_refl eq_refl)
    as (results & Hrun & Hnodup & Hbound).
  destruct (Hbound Hlimit) as [Hlen Hboth].
  exists results. split_and!; [exact Hrun | exact Hnodup | exact Hlen |].
  exact (Hboth Hsem).
Defined.

(** C10 (counterexample). With both limits [-1], no semantic row and
    three full-text rows, [slice(0, -1)] keeps two rows (scored
    [1 - 0/(-1) = 1] and [1 - 1/(-1) = 2]): the merged list holds 2
    entries, more than the [0 + (-1)] semantic rows plus [fullTextLimit],
    and more than [semanticLimit + fullTextLimit]. *)
Lemma hybrid_negative_limit_unbounded :
  semanticSearch text_only_search (lit "notes") (lit "u1") (-1) 0.7
  = Ok [] ∧
  fullTextSearch text_only_search (lit "notes") (lit "u1") = Ok three_rows ∧
  ∃ results,
    hybridSearch text_only_search (lit "notes") (lit "u1") negative_options
    = Ok results ∧
    map (λ e, id (capture e)) results = [lit "q"; lit "p"] ∧
    ¬ (Z.of_nat (length results)
       <= Z.of_nat (length (@nil SemanticHit)) + (-1))%Z ∧
    ¬ (Z.of_nat (length results) <= (-1) + (-1))%Z.
Proof.
  split; [reflexivity|]. split; [reflexivity|].
  eexists. split; [by vm_compute|]. split; [reflexivity|].
  split; simpl; lia.
Qed.

(** C9 at a capture that holds a text and an embedding: after the failed
    OCR both are what they were. *)
Lemma ocr_failure_isolated_witness :
  (db_update ocr_down (length (updates demo_world)) = Accepted ∧
   textDetection ocr_down (lit "https://cdn/img.png")
   = Throw (lit "quota exceeded") ∧
   db_update ocr_down (S (length (updates demo_world))) = Accepted) ∧
  ∃ w',
    processCapture ocr_down (Some (lit "https://cdn/img.png")) None None
      demo_world
    = (Throw (lit "Google Vision OCR failed: " ++ lit "quota exceeded"), w') ∧
    updates w'
    = updates demo_world
      ++ [processing_patch; failed_patch (now ocr_down (dates demo_world))] ∧
    row w' !! "processing_status" = Some (VStr (lit "failed")) ∧
    row w' !! "processed_at"
    = Some (VStr (now ocr_down (dates demo_world))) ∧
    row w' !! "extracted_text" = Some (VStr (lit "old text")) ∧
    row w' !! "embedding" = Some (VVector [0.5%float]).
Proof.
  split; [split_and!; reflexivity|].
  destruct (ocr_failure_isolated ocr_down (Some (lit "https://cdn/img.png"))
              None None demo_world 104%N (lit "ttps://cdn/img.png")
              (lit "quota exceeded") eq_refl eq_refl eq_refl eq_refl)
    as (w' & Hrun & Hupdates & Hstatus & Hat & Hframe).
  exists w'.
  split_and!; [exact Hrun | exact Hupdates | exact Hstatus | exact Hat | |].
  - rewrite (Hframe "extracted_text"); [reflexivity | discriminate | discriminate].
  - rewrite (Hframe "embedding"); [reflexivity | discriminate | discriminate].
Defined.

(** C3 at the invoice image, the embedding service being down. *)
Lemma embedding_failure_nonfatal_witness :
  (db_update embedding_down (length (updates demo_world)) = Accepted ∧
   ocr_text embedding_down (Some (lit "https://cdn/img.png"))
   = Ok (cleanExtractedText invoice_text) ∧
   (∀ t, ∃ e, embeddings_create embedding_down t = Throw e) ∧
   db_update embedding_down (S (length (updates demo_world))) = Accepted) ∧
  ∃ w' updateData,
    processCapture embedding_down (Some (lit "https://cdn/img.png"))
      (Some (lit "receipt")) None demo_world
    = (Ok {| success := true;
             result_text := cleanExtractedText invoice_text;
             hasEmbedding := false;
             result_temporal :=
               temporal_of embedding_down (Some (lit "receipt"))
                 (cleanExtractedText invoice_text)
                 (now embedding_down (dates demo_world)) |},
       w') ∧
    updates w' = updates demo_world ++ [processing_patch; updateData] ∧
    row w' = updateData ∪ (processing_patch ∪ row demo_world) ∧
    (∀ column,
       updateData !! column =
       step6_value (cleanExtractedText invoice_text)
         (now embedding_down (S (dates demo_world))) None
         (temporal_of embedding_down (Some (lit "receipt"))
            (cleanExtractedText invoice_text)
            (now embedding_down (dates demo_world))) column) ∧
    row w' !! "processing_status" = Some (VStr (lit "completed")) ∧
    row w' !! "embedding" = row demo_world !! "embedding".
Proof.
  assert (∀ t, ∃ e, embeddings_create embedding_down t = Throw e) as Hdown
    by (intros t; exists (lit "rate limited"); reflexivity).
  split; [split_and!; [reflexivity | reflexivity | exact Hdown | reflexivity]|].
  apply (embedding_failure_nonfatal embedding_down
           (Some (lit "https://cdn/img.png")) (Some (lit "receipt")) None
           demo_world (cleanExtractedText invoice_text));
    [reflexivity | reflexivity | exact Hdown | reflexivity].
Defined.

(** C1 at a storage that refuses the first write and accepts the second:
    the record ends in status [failed]. *)
Lemma initial_write_failure_witness :
  (db_update first_write_refused (length (updates demo_world)) ≠ Accepted ∧
   db_update first_write_refused (S (length (updates demo_world))) = Accepted) ∧
  ∃ error w',
    processCapture first_write_refused None (Some (lit "memo")) None demo_world
    = (Throw error, w') ∧
    updates w'
    = updates demo_world
      ++ [processing_patch;
          failed_patch (now first_write_refused (dates demo_world))] ∧
    row w' !! "processing_status" = Some (VStr (lit "failed")) ∧
    row w' !! "processed_at"
    = Some (VStr (now first_write_refused (dates demo_world))).
Proof.
  assert (db_update first_write_refused (length (updates demo_world))
          ≠ Accepted) as H by discriminate.
  split; [split; [exact H | reflexivity]|].
  destruct (initial_write_failure first_write_refused None (Some (lit "memo"))
              None demo_world H)
    as (error & w' & Hrun & Hupdates & Haccepted & _).
  destruct (Haccepted eq_refl) as [Hstatus Hat].
  exists error, w'. split_and!; assumption.
Defined.



(** C7 at the invoice text, on whose sanitized form no removal pattern
    matches. *)
Lemma sanitizer_idempotent_when_stable_witness :
  remove_content (cleanExtractedText invoice_text)
  = cleanExtractedText invoice_text ∧
  cleanExtractedText (cleanExtractedText invoice_text)
  = cleanExtractedText invoice_text.
Proof.
  assert (remove_content (cleanExtractedText invoice_text)
          = cleanExtractedText invoice_text) as H by (vm_compute; reflexivity).
  split; [exact H|].
  exact (sanitizer_idempotent_when_stable invoice_text H).
Defined.

(** C1 (counterexample). The storage refuses the initial write and accepts
    the next one: the invocation fails, yet it has issued the
    failed-status write and the record ends in status [failed]. *)
Lemma initial_write_failure_marks_failed :
  db_update first_write_refused 0 = Refused (lit "timeout") ∧
  ∃ w',
    processCapture first_write_refused None (Some (lit "memo")) None
      {| row := ∅; updates := []; dates := 0 |}
    = (Throw (lit "Failed to update processing status: timeout"), w') ∧
    updates w' = [processing_patch; failed_patch (demo_clock 0)] ∧
    row w' !! "processing_status" = Some (VStr (lit "failed")).
Proof.
  split; [reflexivity|].
  eexists. split; [reflexivity|]. split; reflexivity.
Qed.

(* ===================================================================== *)
(** ** Sanitizer: what the output is made of *)
(* ===================================================================== *)

Section Subsequence.

(** A replacement whose replacer answers a subsequence of each match
    answers a subsequence of the text. *)
Lemma replace_from_sublist r f :
  (∀ prev s len, match_here r prev s = Some len →
                 f (take len s) `sublist_of` take len s) →
  ∀ s k prev, replace_from r f k prev s `sublist_of` drop k s.
Proof.
  intros Hf s. induction s as [|c s IH]; intros k prev.
  - destruct k; simpl; [|done].
    destruct (match_here r prev []) as [len|] eqn:Hm; [|done].
    rewrite app_nil_r. specialize (Hf _ _ _ Hm). by rewrite take_nil in *.
  - destruct k as [|k]; simpl; [|apply IH].
    destruct (match_here r prev (c :: s)) as [len|] eqn:Hm.
    + specialize (Hf _ _ _ Hm). destruct len as [|n].
      * change (take 0 (c :: s)) with (@nil N) in *.
        apply sublist_nil_r in Hf as ->. simpl.
        apply sublist_skip. specialize (IH 0 (Some c)). by rewrite drop_0 in IH.
      * rewrite <- (take_drop (S n) (c :: s)) at 2.
        apply sublist_app; [done|]. simpl. apply IH.
    + apply sublist_skip. specialize (IH 0 (Some c)). by rewrite drop_0 in IH.
Qed.

Lemma replace_sublist r f s :
  (∀ prev s len, match_here r prev s = Some len →
                 f (take len s) `sublist_of` take len s) →
  replace r f s `sublist_of` s.
Proof.
  intros Hf. unfold replace.
  pose proof (replace_from_sublist r f Hf s 0 None) as H.
  by rewrite drop_0 in H.
Qed.

Lemma remove_sublist r s : replace_with r [] s `sublist_of` s.
Proof. apply replace_sublist. intros. apply sublist_nil_l. Qed.

Lemma keep_year_sublist m : keep_year m `sublist_of` m.
Proof. unfold keep_year. destruct (_ && _); [done | apply sublist_nil_l]. Qed.

Lemma remove_content_sublist s : remove_content s `sublist_of` s.
Proof.
  unfold remove_content. etrans.
  { apply replace_sublist. intros. apply keep_year_sublist. }
  generalize removal_rules. intros rules. revert s.
  induction rules as [|r rules IH]; intros s; simpl; [done|].
  etrans; [apply IH | apply remove_sublist].
Qed.

Lemma take_lead_LF s : take (lead is_LF s) s = replicate (lead is_LF s) LF.
Proof.
  induction s as [|c s IH]; simpl; [done|].
  destruct (is_LF c) eqn:Hc; simpl; [|done].
  unfold is_LF in Hc. cbn [accepts] in Hc. apply N.eqb_eq in Hc as <-.
  by rewrite IH.
Qed.

Lemma many_newlines_sublist prev s len :
  match_here many_newlines prev s = Some len →
  [LF; LF] `sublist_of` take len s.
Proof.
  rewrite match_many_newlines.
  destruct (3 <=? lead is_LF s) eqn:Hlead; [|done]. intros [= <-].
  apply Nat.leb_le in Hlead. rewrite take_lead_LF.
  destruct (lead is_LF s) as [|[|n]]; [lia | lia |]. simpl.
  do 2 apply sublist_skip. apply sublist_nil_l.
Qed.

Lemma last_lf_lookup s j : last_lf s = Some j → s !! j = Some LF.
Proof.
  revert j. induction s as [|c s IH]; intros j; simpl; [done|].
  destruct (is_space c); [|done].
  destruct (last_lf s) as [i|].
  - intros [= <-]. by apply IH.
  - destruct (is_LF c) eqn:Hc; [|done]. intros [= <-]. simpl.
    unfold is_LF in Hc. cbn [accepts] in Hc. by apply N.eqb_eq in Hc as <-.
Qed.

Lemma spaced_newlines_sublist prev s len :
  match_here spaced_newlines prev s = Some len →
  [LF; LF] `sublist_of` take len s.
Proof.
  rewrite match_spaced_newlines. destruct s as [|c s]; [done|].
  destruct (is_LF c && (2 <=? lf_count s)) eqn:Hcond; [|done].
  apply andb_true_iff in Hcond as [Hc _].
  destruct (last_lf s) as [j|] eqn:Hj; [|done]. simpl. intros [= <-].
  unfold is_LF in Hc. cbn [accepts] in Hc. apply N.eqb_eq in Hc as <-.
  replace (j + 2) with (S (S j)) by lia. cbn [take].
  apply sublist_skip.
  pose proof (last_lf_lookup s j Hj) as Hlook.
  rewrite (take_S_r s j LF Hlook).
  apply sublist_inserts_l. done.
Qed.

Lemma trimStart_sublist s : trimStart s `sublist_of` s.
Proof.
  induction s as [|c s IH]; simpl; [done|].
  destruct (is_space c); [by apply sublist_cons | done].
Qed.

Lemma trimEnd_sublist s : trimEnd s `sublist_of` s.
Proof.
  destruct (trimEnd_split s) as (w & Hw & _). rewrite Hw at 2.
  by apply sublist_inserts_r.
Qed.

Lemma normalize_whitespace_sublist s : normalize_whitespace s `sublist_of` s.
Proof.
  unfold normalize_whitespace, trim.
  etrans; [apply trimEnd_sublist|]. etrans; [apply trimStart_sublist|].
  etrans.
  { apply replace_sublist. intros prev t len. apply spaced_newlines_sublist. }
  etrans; [apply remove_sublist|]. etrans; [apply remove_sublist|].
  apply replace_sublist. intros prev t len. apply many_newlines_sublist.
Qed.

Lemma cleanExtractedText_sublist x : cleanExtractedText x `sublist_of` x.
Proof.
  destruct x as [|c x]; [done|]. unfold cleanExtractedText.
  etrans; [apply normalize_whitespace_sublist | apply remove_content_sublist].
Qed.

(** X1. The sanitizer never inserts, alters or reorders a character: its
    output is a subsequence of its input, for every input; in particular
    the output is never longer than the input. *)
Theorem sanitizer_output_subsequence x :
  cleanExtractedText x `sublist_of` x ∧
  length (cleanExtractedText x) ≤ length x.
Proof.
  split; [apply cleanExtractedText_sublist|].
  apply sublist_length, cleanExtractedText_sublist.
Qed.

End Subsequence.

Section NormalOutput.

Lemma starts_LF_LF_count s : starts_with [LF; LF] s = true → 2 ≤ lf_count s.
Proof.
  destruct s as [|a [|b s]]; cbn [starts_with]; try done.
  - by rewrite andb_false_r.
  - intros [Ha [Hb _]%andb_true_iff]%andb_true_iff.
    apply N.eqb_eq in Ha as <-, Hb as <-. cbn [lf_count].
    change (is_space LF) with true. change (is_LF LF) with true.
    cbv iota. lia.
Qed.

Lemma sparse_no_triple s :
  sparse s = true → includes [LF; LF; LF] s = false.
Proof.
  induction s as [|c s IH]; [done|]. cbn [sparse includes].
  intros [Hc Hs]%andb_true_iff. rewrite (IH Hs), orb_false_r.
  cbn [starts_with]. destruct (LF =? c)%N eqn:Heq; [|done]. cbn [andb].
  destruct (starts_with [LF; LF] s) eqn:Hstart; [|done].
  apply starts_LF_LF_count in Hstart.
  apply N.eqb_eq in Heq as <-.
  rewrite (proj2 (Nat.leb_le 2 (lf_count s))) in Hc by done. done.
Qed.

Lemma trail_free_no_blank_LF b s :
  is_blank b = true → trail_free s = true → includes [b; LF] s = false.
Proof.
  intros Hb. induction s as [|c s IH]; [done|]. cbn [trail_free includes].
  intros [Hc Hs]%andb_true_iff. rewrite (IH Hs), orb_false_r.
  cbn [starts_with]. destruct (b =? c)%N eqn:Heq; [|done]. cbn [andb].
  apply N.eqb_eq in Heq as <-. rewrite Hb in Hc.
  destruct s as [|d s]; [done|]. cbn [starts_with].
  destruct (LF =? d)%N eqn:Hd; [|done].
  apply N.eqb_eq in Hd as <-. done.
Qed.

Lemma cleanExtractedText_normal x :
  normal_text (cleanExtractedText x).
Proof.
  unfold normal_text.
  destruct x as [|c x]; [done|]. unfold cleanExtractedText.
  destruct (normalize_whitespace_normal (remove_content (c :: x)))
    as (Htrail & Hsparse & Htrim).
  split_and!; [done | by apply sparse_no_triple | |];
    by apply trail_free_no_blank_LF.
Qed.

(** X2. Whatever the input, the sanitized text has no white space at
    either end, never holds three line feeds in a row, and never holds a
    space or a tab right before a line feed. *)
Theorem sanitizer_output_normal x :
  trim (cleanExtractedText x) = cleanExtractedText x ∧
  includes [LF; LF; LF] (cleanExtractedText x) = false ∧
  includes [SP; LF] (cleanExtractedText x) = false ∧
  includes [TAB; LF] (cleanExtractedText x) = false.
Proof. apply cleanExtractedText_normal. Qed.

(** X3. The white-space passes that end the sanitizer (the collapse of
    three or more line feeds, the removal of trailing blanks and of blank
    lines, the collapse of spaced line feeds and the final trim) are
    idempotent as a whole: running them on their own output changes
    nothing, for every text. *)
Theorem whitespace_passes_idempotent s :
  trim
    (replace_with spaced_newlines [LF; LF]
       (replace_with blank_line []
          (replace_with trailing_blanks []
             (replace_with many_newlines [LF; LF]
                (normalize_whitespace s)))))
  = normalize_whitespace s.
Proof. apply normalize_whitespace_idempotent. Qed.

End NormalOutput.

(* ===================================================================== *)
(** ** Temporal extractor: the context object and the result *)
(* ===================================================================== *)

Section ContextFacts.

(** Every match reported by [matchAll] is the text found at its index. *)
Lemma matchAll_from_found r s :
  ∀ k i prev m j,
    (m, j) ∈ matchAll_from r k i prev s →
    ∃ d len, j = i + d ∧ m = take len (drop d s).
Proof.
  induction s as [|c s IH]; intros k i prev m j.
  - destruct k; simpl; [|by intros ?%elem_of_nil].
    destruct (match_here r prev []) as [len|]; [|by intros ?%elem_of_nil].
    intros [= -> ->]%list_elem_of_singleton. exists 0, len. split; [lia | done].
  - destruct k as [|k]; simpl.
    + destruct (match_here r prev (c :: s)) as [len|].
      * intros [[= -> ->]|Hin]%elem_of_cons.
        { exists 0, len. split; [lia | done]. }
        apply IH in Hin as (d & len' & -> & ->).
        exists (S d), len'. split; [lia | done].
      * intros Hin. apply IH in Hin as (d & len' & -> & ->).
        exists (S d), len'. split; [lia | done].
    + intros Hin. apply IH in Hin as (d & len' & -> & ->).
      exists (S d), len'. split; [lia | done].
Qed.

Lemma matchAll_found r s m i :
  (m, i) ∈ matchAll r s → take (length m) (drop i s) = m.
Proof.
  intros (d & len & -> & ->)%matchAll_from_found. simpl.
  rewrite length_take. destruct (decide (len ≤ length (drop d s))).
  - by rewrite Nat.min_l.
  - rewrite Nat.min_r by lia. by rewrite !take_ge by lia.
Qed.

Lemma context_set_keys key entry ctx :
  map fst (context_set key entry ctx) =
  if bool_decide (key ∈ map fst ctx) then map fst ctx else map fst ctx ++ [key].
Proof.
  induction ctx as [|[k e] ctx IH]; simpl; [done|].
  destruct (decide (k = key)) as [->|Hne]; simpl.
  - rewrite bool_decide_eq_true_2 by apply list_elem_of_here. done.
  - rewrite IH. case_bool_decide as Hin.
    + rewrite bool_decide_eq_true_2 by by apply list_elem_of_further. done.
    + rewrite bool_decide_eq_false_2; [done|].
      intros [?|?]%elem_of_cons; by simplify_eq.
Qed.

Lemma context_set_elem key entry ctx k e :
  (k, e) ∈ context_set key entry ctx → (k, e) = (key, entry) ∨ (k, e) ∈ ctx.
Proof.
  induction ctx as [|[k' e'] ctx IH]; simpl.
  - rewrite list_elem_of_singleton. by left.
  - destruct (decide (k' = key)); rewrite !elem_of_cons; naive_solver.
Qed.

Lemma context_set_ok text m i ctx :
  take (length m) (drop i text) = m →
  context_ok text ctx →
  context_ok text
    (context_set (context_key m) {| ctx_text := m; ctx_index := i |} ctx).
Proof.
  intros Hm [Hnd Hall]. split.
  - rewrite context_set_keys. case_bool_decide as Hin; [done|].
    apply NoDup_app. split_and!; [done| |apply NoDup_singleton].
    by intros k Hk ->%list_elem_of_singleton.
  - intros k e [[= -> ->]|Hin]%context_set_elem; [done | by apply Hall].
Qed.

Lemma context_set_keeps key entry ctx k :
  k ∈ map fst ctx → k ∈ map fst (context_set key entry ctx).
Proof.
  rewrite context_set_keys. case_bool_decide; [done|].
  intros ?. apply elem_of_app. by left.
Qed.

Lemma context_set_has key entry ctx :
  key ∈ map fst (context_set key entry ctx).
Proof.
  rewrite context_set_keys. case_bool_decide; [done|].
  apply elem_of_app. right. apply list_elem_of_here.
Qed.

Lemma add_matches_ok text matches ctx :
  (∀ m i, (m, i) ∈ matches → take (length m) (drop i text) = m) →
  context_ok text ctx → context_ok text (fold_left add_match matches ctx).
Proof.
  revert ctx. induction matches as [|[m i] matches IH]; intros ctx Hm Hok; [done|].
  simpl. apply IH.
  - intros m' i' Hin. apply Hm. by apply list_elem_of_further.
  - apply context_set_ok; [|done]. apply Hm. apply list_elem_of_here.
Qed.

Lemma add_matches_keeps matches ctx k :
  k ∈ map fst ctx → k ∈ map fst (fold_left add_match matches ctx).
Proof.
  revert ctx. induction matches as [|[m i] matches IH]; intros ctx Hk; [done|].
  simpl. by apply IH, context_set_keeps.
Qed.

Lemma add_matches_has matches ctx m i :
  (m, i) ∈ matches → context_key m ∈ map fst (fold_left add_match matches ctx).
Proof.
  revert ctx. induction matches as [|[m' i'] matches IH]; intros ctx.
  - by intros ?%elem_of_nil.
  - intros [[= <- <-]|Hin]%elem_of_cons; simpl.
    + apply add_matches_keeps, context_set_has.
    + by apply IH.
Qed.

Lemma extractTemporalContext_fold text :
  extractTemporalContext text
  = fold_left (add_pattern text) TEMPORAL_CONTEXT_PATTERNS [].
Proof. reflexivity. Qed.

Lemma add_patterns_ok text patterns ctx :
  context_ok text ctx →
  context_ok text (fold_left (add_pattern text) patterns ctx).
Proof.
  revert ctx. induction patterns as [|p patterns IH]; intros ctx Hok; [done|].
  simpl. apply IH. apply add_matches_ok; [|done].
  intros m i. apply matchAll_found.
Qed.

Lemma add_patterns_keeps text patterns ctx k :
  k ∈ map fst ctx → k ∈ map fst (fold_left (add_pattern text) patterns ctx).
Proof.
  revert ctx. induction patterns as [|p patterns IH]; intros ctx Hk; [done|].
  simpl. by apply IH, add_matches_keeps.
Qed.

Lemma add_patterns_has text patterns ctx pattern m i :
  pattern ∈ patterns → (m, i) ∈ matchAll pattern text →
  context_key m ∈ map fst (fold_left (add_pattern text) patterns ctx).
Proof.
  revert ctx. induction patterns as [|p patterns IH]; intros ctx.
  - by intros ?%elem_of_nil.
  - intros [<-|Hin]%elem_of_cons Hm; simpl.
    + by eapply add_patterns_keeps, add_matches_has.
    + by apply IH.
Qed.

Lemma extractTemporalContext_ok text :
  context_ok text (extractTemporalContext text).
Proof.
  rewrite extractTemporalContext_fold. apply add_patterns_ok.
  split; [constructor | by intros k e ?%elem_of_nil].
Qed.

(** X4. The temporal-context object of any text has no key twice; each
    entry is filed under the normalized form of its matched text, and that
    text is what the source text holds at the entry's index; and every
    match of every context pattern has its key in the object. *)
Theorem temporal_context_entries text :
  NoDup (map fst (extractTemporalContext text)) ∧
  (∀ k e, (k, e) ∈ extractTemporalContext text →
     k = context_key (ctx_text e) ∧
     take (length (ctx_text e)) (drop (ctx_index e) text) = ctx_text e) ∧
  (∀ pattern m i,
     pattern ∈ TEMPORAL_CONTEXT_PATTERNS → (m, i) ∈ matchAll pattern text →
     context_key m ∈ map fst (extractTemporalContext text)).
Proof.
  destruct (extractTemporalContext_ok text) as [Hnd Hall].
  split_and!; [done | done |].
  intros pattern m i. rewrite extractTemporalContext_fold.
  apply add_patterns_has.
Qed.

End ContextFacts.

Section ContextKeys.

(** What a replacement is made of: replacer output and the characters
    of the text at which the pattern finds nothing (or nothing but the
    empty match). *)
Lemma replace_from_Forall (P Q : N → Prop) r f :
  (∀ m, Forall P (f m)) →
  (∀ prev c s, Q c →
     match_here r prev (c :: s) = None ∨ match_here r prev (c :: s) = Some 0 →
     P c) →
  ∀ s k prev, Forall Q s → Forall P (replace_from r f k prev s).
Proof.
  intros Hf Hcopy s. induction s as [|c s IH]; intros k prev HQ.
  - destruct k; simpl; [|constructor].
    destruct (match_here r prev []); [|constructor].
    rewrite app_nil_r. apply Hf.
  - apply Forall_cons in HQ as [Hc HQ]. destruct k as [|k]; simpl; [|by apply IH].
    destruct (match_here r prev (c :: s)) as [[|n]|] eqn:Hm.
    + apply Forall_app. split; [apply Hf|].
      constructor; [|by apply IH]. eapply Hcopy; eauto.
    + apply Forall_app. split; [apply Hf | by apply IH].
    + constructor; [|by apply IH]. eapply Hcopy; eauto.
Qed.

Lemma match_spaces prev s :
  match_here (plus CSpace) prev s
  = if 1 <=? lead is_space s then Some (lead is_space s) else None.
Proof. apply (rep_greedy_total CSpace 1 0 prev s). Qed.

Lemma ascii_lower_not_upper c : is_upper (ascii_lower c) = false.
Proof.
  unfold ascii_lower. destruct (is_upper c) eqn:Hc; [|done].
  unfold is_upper, between in *.
  apply andb_true_iff in Hc as [H1%N.leb_le H2%N.leb_le].
  apply andb_false_iff. right. apply N.leb_gt. lia.
Qed.

Lemma context_key_normal m :
  Forall (λ c, is_space c = false ∧ is_upper c = false) (context_key m).
Proof.
  unfold context_key, replace_with, replace.
  apply (replace_from_Forall _ (λ c, is_upper c = false)).
  - intros _. by repeat constructor.
  - intros prev c s Hc. rewrite match_spaces. cbn [lead].
    destruct (is_space c); [|done]. simpl. by intros [|].
  - apply Forall_fmap, Forall_true. intros c. apply ascii_lower_not_upper.
Qed.

(** X5. Every key of the temporal-context object is in normalized form:
    it holds no white space (each run of white space of the matched text
    has become one underscore) and no upper-case ASCII letter. *)
Theorem temporal_context_keys_normal text k :
  k ∈ map fst (extractTemporalContext text) →
  Forall (λ c, is_space c = false ∧ is_upper c = false) k.
Proof.
  intros [[k' e] [-> Hin]]%list_elem_of_fmap.
  destruct (extractTemporalContext_ok text) as [_ Hall].
  destruct (Hall _ _ Hin) as [-> _]. apply context_key_normal.
Qed.

End ContextKeys.

Section TemporalResult.

Lemma calculateConfidence_half r text :
  (0.5 <=? calculateConfidence r text)%float = true ∧
  number_truthy (calculateConfidence r text) = true.
Proof.
  unfold calculateConfidence.
  destruct (has_year r), (has_month_name r), (has_hour r), (is_short r),
    (is_relative r); by vm_compute.
Qed.

(** The two shapes of a result of [extractTemporalInfo]. *)
Lemma extractTemporalInfo_shape chrono text info :
  extractTemporalInfo chrono text = Some info →
  temporalContext info = extractTemporalContext text ∧
  ((∃ best rest iso,
      chrono text = Ok (best :: rest) ∧
      toISOString (start_date best) = Some iso ∧
      extractedDatetime info = Some (start_date best) ∧
      extractedDate info = Some (before 84 iso) ∧
      extractedTime info
      = (if has_hour best
         then Some (before 32 (toTimeString (start_date best))) else None) ∧
      confidence info = calculateConfidence best text ∧
      rawMatches info = [(Temporal.text best, index best)]) ∨
   (chrono text = Ok [] ∧
    extractedDatetime info = None ∧ extractedDate info = None ∧
    extractedTime info = None ∧ confidence info = 0%float ∧
    rawMatches info = [] ∧ extractTemporalContext text ≠ [])).
Proof.
  unfold extractTemporalInfo. destruct text as [|c text]; [done|].
  destruct (chrono (c :: text)) as [results|]; [|done].
  destruct results as [|best rest].
  - simpl. destruct (extractTemporalContext (c :: text)) eqn:Hctx; [done|].
    intros [= <-]. split; [done|]. right. by split_and!.
  - unfold with_best_match.
    destruct (toISOString (start_date best)) as [iso|] eqn:Hiso; [|done].
    simpl. case_match; [|done]. intros [= <-]. split; [done|]. left.
    exists best, rest, iso. by split_and!.
Qed.

(** X6. In every result of the temporal extractor: the context is the one
    of the text; without a date there is no time, no datetime, no raw
    match, the confidence is 0 and the context is not empty; with a date
    there is a valid datetime whose ISO form starts with that date, and
    exactly one raw match. A time is never reported without a date. *)
Theorem temporal_result_consistent chrono text info :
  extractTemporalInfo chrono text = Some info →
  temporalContext info = extractTemporalContext text ∧
  (extractedDate info = None →
   extractedTime info = None ∧ extractedDatetime info = None ∧
   confidence info = 0%float ∧ rawMatches info = [] ∧
   temporalContext info ≠ []) ∧
  (∀ d, extractedDate info = Some d →
     ∃ date iso,
       extractedDatetime info = Some date ∧ toISOString date = Some iso ∧
       d = before 84 iso ∧ length (rawMatches info) = 1) ∧
  (is_Some (extractedTime info) → is_Some (extractedDate info)).
Proof.
  intros Hinfo.
  destruct (extractTemporalInfo_shape chrono text info Hinfo)
    as [Hctx [(best & rest & iso & _ & Hiso & Hdt & Hd & Ht & _ & Hraw)
             |(_ & Hdt & Hd & Ht & Hc & Hraw & Hne)]].
  - split_and!; [done | by rewrite Hd | | by rewrite Hd].
    intros d Hd'. exists (start_date best), iso.
    rewrite Hd in Hd'. injection Hd' as <-. by rewrite Hraw.
  - split_and!; [done | by rewrite Hctx | by rewrite Hd |].
    rewrite Ht. by intros [? ?].
Qed.

(** X7. Whenever the temporal extractor reports a date, its confidence is
    at least 0.5: the lower clamp at 0 never acts, and the confidence is a
    truthy number, so that [processCapture] stores [date_confidence]
    whenever it stores [extracted_date]. *)
Theorem temporal_date_confidence chrono text info :
  extractTemporalInfo chrono text = Some info →
  is_Some (extractedDate info) →
  (0.5 <=? confidence info)%float = true ∧
  number_truthy (confidence info) = true.
Proof.
  intros Hinfo Hdate.
  destruct (extractTemporalInfo_shape chrono text info Hinfo)
    as [_ [(best & rest & iso & _ & _ & _ & _ & _ & -> & _)
          |(_ & _ & Hd & _)]].
  - apply calculateConfidence_half.
  - rewrite Hd in Hdate. by destruct Hdate.
Qed.

End TemporalResult.

(* ===================================================================== *)
(** ** Text combiner: when there is something to embed *)
(* ===================================================================== *)

Section CombinerGuard.

Lemma combine_as_join note extractedText tags temporalContext :
  combineTextForEmbedding note extractedText tags temporalContext
  = join [LF; LF]
      (omap (λ s, s) (spec_sections note extractedText tags temporalContext)).
Proof.
  unfold combineTextForEmbedding, spec_sections.
  rewrite !push_present_text. f_equal.
  destruct (omap (λ s, s) [labeled "Note: " (present_text note)]) eqn:Hn,
    (omap (λ s, s) [labeled "Content: " (present_text extractedText)]) eqn:Hc;
    simpl in *;
    destruct (present_text note), (present_text extractedText);
    simplify_eq/=;
    destruct tags as [[|t ts]|], temporalContext as [[|e ctx]|]; done.
Qed.

Lemma trim_nonspace_head c s : is_space c = false → trim (c :: s) ≠ [].
Proof.
  intros Hc. unfold trim. rewrite (trimStart_nonspace _ _ Hc).
  by rewrite (trimEnd_cons_nonspace _ _ Hc).
Qed.

Lemma join_head sep p parts :
  ∃ rest, join sep (p :: parts) = p ++ rest.
Proof.
  destruct parts as [|q parts]; simpl; [exists []; by rewrite app_nil_r|].
  by eexists.
Qed.

Lemma labeled_letter label content s :
  (∃ c l, label = String c l ∧ is_space (N_of_ascii c) = false) →
  labeled label content = Some s → starts_with_letter s.
Proof.
  intros (c & l & -> & Hc). destruct content as [t|]; [|done].
  intros [= <-]. by eexists _, _.
Qed.

Lemma sections_letter note extractedText tags temporalContext s :
  Some s ∈ spec_sections note extractedText tags temporalContext →
  starts_with_letter s.
Proof.
  unfold spec_sections. rewrite !elem_of_cons, elem_of_nil.
  intros [H|[H|[H|[H|[]]]]]; symmetry in H;
    (eapply labeled_letter; [|exact H]); by eexists _, _.
Qed.

(** X8. The combined text is empty (also after trimming, which is what
    [processCapture] tests before it asks for an embedding) exactly when
    the note and the extracted text are absent or blank and the tag list
    and the temporal context are absent or empty. *)
Theorem combiner_empty_iff note extractedText tags temporalContext :
  (0 <? length (trim (combineTextForEmbedding note extractedText tags
                        temporalContext)))%nat = false
  ↔ present_text note = None ∧ present_text extractedText = None ∧
    present_list tags = None ∧ present_list temporalContext = None.
Proof.
  rewrite combine_as_join.
  destruct (omap (λ s, s) (spec_sections note extractedText tags temporalContext))
    as [|p parts] eqn:Hparts.
  - split; [intros _|done]. unfold spec_sections, labeled in Hparts.
    destruct (present_text note), (present_text extractedText),
      (present_list tags), (present_list temporalContext); done.
  - split.
    + intros Hempty. exfalso.
      assert (p ∈ omap (λ s, s)
                (spec_sections note extractedText tags temporalContext)) as Hin
        by (rewrite Hparts; apply list_elem_of_here).
      apply list_elem_of_omap in Hin as (o & Ho & ->).
      apply sections_letter in Ho as (c & rest & -> & Hc).
      destruct (join_head [LF; LF] (c :: rest) parts) as [tail Htail].
      rewrite Htail in Hempty. simpl in Hempty.
      pose proof (trim_nonspace_head c (rest ++ tail) Hc) as Hne.
      destruct (trim (c :: rest ++ tail)); [done | discriminate].
    + intros (Hn & Ht & Htags & Hctx). exfalso.
      unfold spec_sections in Hparts. rewrite Hn, Ht, Htags, Hctx in Hparts.
      discriminate.
Qed.

End CombinerGuard.

(* ===================================================================== *)
(** ** Processing state machine: every run *)
(* ===================================================================== *)

Section Runs.

Variables (env : Env) (imageUrl note : option jsstring).
Variables (tags : option (list jsstring)) (w : World).

#[local] Arguments filter_Boolean : simpl never.
#[local] Arguments extractTemporalInfo : simpl never.
#[local] Arguments combineTextForEmbedding : simpl never.
#[local] Arguments join : simpl never.
#[local] Arguments trim : simpl never.
#[local] Arguments lit : simpl never.

(** The world after the first write was issued and answered. *)
Let issued : World :=
  {| row := row w; updates := updates w ++ [processing_patch];
     dates := dates w |}.
Let started : World :=
  {| row := processing_patch ∪ row w;
     updates := updates w ++ [processing_patch]; dates := dates w |}.

Lemma catch_block_run error (w0 : World) :
  catch_block env error w0
  = match db_update env (length (updates w0)) with
    | Accepted =>
        (Throw error,
         {| row := failed_patch (now env (dates w0)) ∪ row w0;
            updates := updates w0 ++ [failed_patch (now env (dates w0))];
            dates := S (dates w0) |})
    | Refused _ =>
        (Throw error,
         {| row := row w0;
            updates := updates w0 ++ [failed_patch (now env (dates w0))];
            dates := S (dates w0) |})
    | Rejected e =>
        (Throw e,
         {| row := row w0;
            updates := updates w0 ++ [failed_patch (now env (dates w0))];
            dates := S (dates w0) |})
    end.
Proof.
  unfold catch_block, bind, new_Date, update, throw. simpl.
  by destruct (db_update env (length (updates w0))).
Qed.

Lemma processCapture_first_refused :
  db_update env (length (updates w)) ≠ Accepted →
  ∃ error, processCapture env imageUrl note tags w = catch_block env error issued.
Proof.
  intros H. unfold processCapture, try_catch. unfold bind at 1.
  unfold update at 1. fold (catch_block env).
  destruct (db_update env (length (updates w))) as [|e|e]; [done| |]; simpl.
  - by eexists.
  - by eexists.
Qed.

Lemma processCapture_ocr_throws e :
  db_update env (length (updates w)) = Accepted →
  ocr_text env imageUrl = Throw e →
  processCapture env imageUrl note tags w = catch_block env e started.
Proof.
  intros H1 Hocr. unfold processCapture, try_catch. unfold bind at 1.
  rewrite (update_accepted _ _ _ H1). simpl.
  unfold bind at 1. simpl. rewrite ocr_step, Hocr. reflexivity.
Qed.

Lemma embedding_step combinedText (w0 : World) :
  (if (0 <? length (trim combinedText))%nat
   then try_catch
          (let! e := lift (generateEmbedding (embeddings_create env)
                             combinedText) in
           ret (Some e))
          (fun _ => ret None)
   else ret None) w0 = (Ok (embedding_of env combinedText), w0).
Proof.
  unfold embedding_of. destruct (0 <? _)%nat; [|done].
  unfold try_catch, bind, lift.
  by destruct (generateEmbedding (embeddings_create env) combinedText).
Qed.

(** The run once OCR has answered [text]: the second write carries the
    columns of step 6, and what follows depends on the storage only. *)
Lemma processCapture_after_ocr text :
  db_update env (length (updates w)) = Accepted →
  ocr_text env imageUrl = Ok text →
  ∃ data,
    (∀ column,
       data !! column =
       step6_value text (now env (S (dates w)))
         (embedding_of env (combined_of env note tags text (now env (dates w))))
         (temporal_of env note text (now env (dates w))) column) ∧
    processCapture env imageUrl note tags w
    = match db_update env (S (length (updates w))) with
      | Accepted =>
          (Ok {| success := true; result_text := text;
                 hasEmbedding :=
                   bool_decide
                     (is_Some
                        (embedding_of env
                           (combined_of env note tags text (now env (dates w)))));
                 result_temporal :=
                   temporal_of env note text (now env (dates w)) |},
           {| row := data ∪ (processing_patch ∪ row w);
              updates := updates w ++ [processing_patch; data];
              dates := S (S (dates w)) |})
      | Refused e | Rejected e =>
          catch_block env e
            {| row := processing_patch ∪ row w;
               updates := updates w ++ [processing_patch; data];
               dates := S (S (dates w)) |}
      end.
Proof.
  intros H1 Hocr.
  set (info := temporal_of env note text (now env (dates w))).
  set (emb := embedding_of env
                (combined_of env note tags text (now env (dates w)))).
  set (w1 := {| row := processing_patch ∪ row w;
                updates := updates w ++ [processing_patch];
                dates := S (S (dates w)) |}).
  set (base := <["extracted_text" := VStr text]>
                 (<["processing_status" := VStr (lit "completed")]>
                    ({[ "processed_at" := VStr (now env (S (dates w))) ]}
                     : gmap string value))).
  set (withemb := match emb with
                  | Some e => <["embedding" := VVector e]> base
                  | None => base
                  end).
  destruct (add_temporal_ok info withemb w1) as (data & Hadd & Hdata).
  { intros i d Hi Hd. unfold info, temporal_of in Hi.
    by eapply extractTemporalInfo_datetime. }
  exists data. split.
  { intros column. rewrite Hdata. unfold step6_value, withemb, base.
    destruct emb as [e|];
      repeat case_decide; subst;
      rewrite ?lookup_insert_eq, ?lookup_insert_ne, ?lookup_singleton_eq,
        ?lookup_singleton_ne, ?lookup_empty by done;
      try (by destruct (temporal_value info _));
      try (by destruct info). }
  unfold processCapture, try_catch. unfold bind at 1.
  rewrite (update_accepted _ _ _ H1). simpl.
  unfold bind at 1. simpl. rewrite ocr_step, Hocr.
  unfold bind at 1. unfold lift at 1.
  unfold bind at 1. unfold new_Date at 1. simpl.
  fold (temporal_of env note text (now env (dates w))). fold info.
  fold (combined_of env note tags text (now env (dates w))).
  unfold bind at 1. rewrite embedding_step.
  unfold bind at 1. unfold new_Date at 1. simpl.
  unfold bind at 1.
  change (add_temporal info _ _) with (add_temporal info withemb w1).
  rewrite Hadd.
  unfold bind at 1. unfold update. subst w1. simpl.
  rewrite length_app. simpl.
  replace (length (updates w) + 1) with (S (length (updates w))) by lia.
  rewrite <- !app_assoc. simpl.
  destruct (db_update env (S (length (updates w)))) as [|e|e]; simpl.
  - reflexivity.
  - reflexivity.
  - reflexivity.
Qed.

End Runs.

Section RunShapes.

Variables (env : Env) (imageUrl note : option jsstring).
Variables (tags : option (list jsstring)) (w : World).

Lemma step6_value_frame text ts emb info column :
  column ∉ pipeline_columns → step6_value text ts emb info column = None.
Proof.
  intros H. unfold pipeline_columns in H.
  rewrite !not_elem_of_cons in H. destruct_and!.
  unfold step6_value, temporal_value.
  rewrite !decide_False by done.
  destruct info; [|done]. by rewrite !decide_False by done.
Qed.

Lemma final_patch_frame text data column :
  final_patch env note tags w text data →
  column ∉ pipeline_columns → data !! column = None.
Proof. intros Hd Hc. rewrite Hd. by apply step6_value_frame. Qed.

Lemma later_writes_frame patches patch column :
  later_writes env imageUrl note tags w patches →
  patch ∈ patches → column ∉ pipeline_columns → patch !! column = None.
Proof.
  intros [->|(text & data & -> & _ & Hd)] Hin Hc.
  - by apply elem_of_nil in Hin.
  - apply list_elem_of_singleton in Hin as ->.
    by eapply final_patch_frame.
Qed.

Lemma later_writes_length patches :
  later_writes env imageUrl note tags w patches → length patches ≤ 1.
Proof. intros [->|(text & data & -> & _)]; simpl; lia. Qed.

Lemma processCapture_shape :
  run_shape env imageUrl note tags w
    (processCapture env imageUrl note tags w).1
    (processCapture env imageUrl note tags w).2.
Proof.
  destruct (db_update env (length (updates w))) as [|e1|e1] eqn:H1.
  - destruct (ocr_text env imageUrl) as [text|e] eqn:Hocr.
    + destruct (processCapture_after_ocr env imageUrl note tags w text H1 Hocr)
        as (data & Hdata & ->).
      assert (later_writes env imageUrl note tags w [data]) as Hlater.
      { right. by exists text, data. }
      destruct (db_update env (S (length (updates w)))) as [|e2|e2] eqn:H2.
      * simpl. by apply run_completed.
      * rewrite catch_block_run. simpl. rewrite length_app. simpl.
        replace (length (updates w) + 2) with (S (S (length (updates w)))) by lia.
        destruct (db_update env (S (S (length (updates w))))); simpl;
          rewrite <- app_assoc; simpl.
        -- apply (run_failed _ _ _ _ _ _ [data]); [done|by right].
        -- apply (run_failed_unrecorded _ _ _ _ _ _ [data]); [done|by right].
        -- apply (run_failed_unrecorded _ _ _ _ _ _ [data]); [done|by right].
      * rewrite catch_block_run. simpl. rewrite length_app. simpl.
        replace (length (updates w) + 2) with (S (S (length (updates w)))) by lia.
        destruct (db_update env (S (S (length (updates w))))); simpl;
          rewrite <- app_assoc; simpl.
        -- apply (run_failed _ _ _ _ _ _ [data]); [done|by right].
        -- apply (run_failed_unrecorded _ _ _ _ _ _ [data]); [done|by right].
        -- apply (run_failed_unrecorded _ _ _ _ _ _ [data]); [done|by right].
    + rewrite (processCapture_ocr_throws env imageUrl note tags w e H1 Hocr).
      rewrite catch_block_run. simpl. rewrite length_app. simpl.
      destruct (db_update env (length (updates w) + 1)); simpl;
        rewrite <- app_assoc; simpl.
      * apply (run_failed _ _ _ _ _ _ []); [by left|by right].
      * apply (run_failed_unrecorded _ _ _ _ _ _ []); [by left|by right].
      * apply (run_failed_unrecorded _ _ _ _ _ _ []); [by left|by right].
  - destruct (processCapture_first_refused env imageUrl note tags w)
      as [error ->]; [by rewrite H1|].
    rewrite catch_block_run. simpl. rewrite length_app. simpl.
    destruct (db_update env (length (updates w) + 1)); simpl;
      rewrite <- app_assoc; simpl.
    * apply (run_failed _ _ _ _ _ _ []); [by left|by left].
    * apply (run_failed_unrecorded _ _ _ _ _ _ []); [by left|by left].
    * apply (run_failed_unrecorded _ _ _ _ _ _ []); [by left|by left].
  - destruct (processCapture_first_refused env imageUrl note tags w)
      as [error ->]; [by rewrite H1|].
    rewrite catch_block_run. simpl. rewrite length_app. simpl.
    destruct (db_update env (length (updates w) + 1)); simpl;
      rewrite <- app_assoc; simpl.
    * apply (run_failed _ _ _ _ _ _ []); [by left|by left].
    * apply (run_failed_unrecorded _ _ _ _ _ _ []); [by left|by left].
    * apply (run_failed_unrecorded _ _ _ _ _ _ []); [by left|by left].
Qed.

End RunShapes.

Section RunProperties.

Variables (env : Env) (imageUrl note : option jsstring).
Variables (tags : option (list jsstring)) (w : World).

Let first_call : nat := length (updates w).

(** X9. When the storage accepts both writes and OCR yields [text] (the
    empty text when there is no image), the invocation succeeds after
    exactly two writes and two clock readings; it reports an embedding
    exactly when step 4 produced one; and afterwards every column of the
    record holds the value step 6 computed for it (the extracted text,
    the status [completed], the timestamp, the embedding and the temporal
    columns, each only when produced), and otherwise the value it had
    before the invocation. *)
Theorem process_success (text : jsstring) :
  db_update env first_call = Accepted →
  ocr_text env imageUrl = Ok text →
  db_update env (S first_call) = Accepted →
  ∃ w',
    processCapture env imageUrl note tags w
    = (Ok {| success := true; result_text := text;
             hasEmbedding :=
               bool_decide
                 (is_Some
                    (embedding_of env
                       (combined_of env note tags text (now env (dates w)))));
             result_temporal := temporal_of env note text (now env (dates w)) |},
       w') ∧
    length (updates w') = 2 + length (updates w) ∧
    dates w' = 2 + dates w ∧
    ∀ column,
      row w' !! column =
      match
        step6_value text (now env (S (dates w)))
          (embedding_of env (combined_of env note tags text (now env (dates w))))
          (temporal_of env note text (now env (dates w))) column
      with
      | Some v => Some v
      | None => row w !! column
      end.
Proof.
  intros H1 Hocr H2. unfold first_call in *.
  destruct (processCapture_after_ocr env imageUrl note tags w text H1 Hocr)
    as (data & Hdata & ->).
  rewrite H2. eexists. split; [reflexivity|]. simpl. split_and!.
  - rewrite length_app. simpl. lia.
  - done.
  - intros column. rewrite !lookup_union, Hdata, lookup_processing_patch.
    unfold step6_value. repeat case_decide; subst; simpl;
      try (by destruct (row w !! _)); try done;
      try (by destruct (embedding_of _ _), (row w !! _));
      try (by destruct (temporal_value _ _), (row w !! _)).
Qed.

(** X10. When OCR has yielded a text but the storage does not accept the
    final write, the invocation fails with the storage's own message, and
    the [failed] status is written third; once that write is accepted the
    record has status [failed] and the timestamp of the third clock
    reading, and every other column (the extracted text and the embedding
    among them) holds the value it had before the invocation: nothing of
    what was computed is kept. *)
Theorem final_write_failure (text e : jsstring) :
  db_update env first_call = Accepted →
  ocr_text env imageUrl = Ok text →
  db_update env (S first_call) = Refused e ∨
  db_update env (S first_call) = Rejected e →
  db_update env (S (S first_call)) = Accepted →
  ∃ w',
    processCapture env imageUrl note tags w = (Throw e, w') ∧
    length (updates w') = 3 + length (updates w) ∧
    last (updates w') = Some (failed_patch (now env (S (S (dates w))))) ∧
    row w' !! "processing_status" = Some (VStr (lit "failed")) ∧
    row w' !! "processed_at" = Some (VStr (now env (S (S (dates w))))) ∧
    ∀ column,
      column ≠ "processing_status" → column ≠ "processed_at" →
      row w' !! column = row w !! column.
Proof.
  intros H1 Hocr H2 H3. unfold first_call in *.
  destruct (processCapture_after_ocr env imageUrl note tags w text H1 Hocr)
    as (data & Hdata & ->).
  assert (match db_update env (S (length (updates w))) with
          | Accepted => False
          | Refused e' | Rejected e' => e' = e
          end) as He.
  { by destruct H2 as [-> | ->]. }
  destruct (db_update env (S (length (updates w)))) as [|e'|e'];
    [done| |]; subst e'; rewrite catch_block_run; simpl;
    rewrite length_app; simpl;
    replace (length (updates w) + 2) with (S (S (length (updates w)))) by lia;
    rewrite H3; (eexists; split; [reflexivity|]); simpl;
    rewrite !length_app, last_snoc; simpl;
    (split_and!; [lia|done| | |]);
    intros; rewrite !lookup_union, lookup_failed_patch,
      lookup_processing_patch;
    repeat case_decide; subst; simpl; try done;
    by destruct (row w !! _).
Qed.

(** X11. Every invocation, whatever the storage, the OCR service, the
    date parser and the embedding service do, issues two or three writes:
    the first sets the status [processing]; an invocation that returns
    issued exactly two, the second of which set the status [completed]
    and was accepted; an invocation that throws issued the [failed]
    status, with a timestamp, as its last write. *)
Theorem process_writes :
  ∃ new,
    updates (processCapture env imageUrl note tags w).2 = updates w ++ new ∧
    head new = Some processing_patch ∧
    (length new = 2 ∨ length new = 3) ∧
    match (processCapture env imageUrl note tags w).1 with
    | Ok r =>
        success r = true ∧ length new = 2 ∧
        ∃ data,
          last new = Some data ∧
          data !! "processing_status" = Some (VStr (lit "completed")) ∧
          row (processCapture env imageUrl note tags w).2 !! "processing_status"
          = Some (VStr (lit "completed"))
    | Throw _ => ∃ ts, last new = Some (failed_patch ts)
    end.
Proof.
  destruct (processCapture_shape env imageUrl note tags w)
    as [text data _ Hd|e patches base ts clock Hp _
        |e patches base ts clock Hp _].
  - exists [processing_patch; data]. simpl.
    assert (data !! "processing_status" = Some (VStr (lit "completed")))
      as Hstatus by (by rewrite Hd).
    split_and!; try done; [by left|].
    exists data. split_and!; try done.
    rewrite lookup_union, Hstatus.
    by destruct ((processing_patch ∪ row w) !! "processing_status").
  - exists ([processing_patch] ++ patches ++ [failed_patch ts]). simpl.
    split_and!; try done.
    + destruct Hp as [->|(text & data & -> & _)]; [by left|by right].
    + exists ts. destruct Hp as [->|(text & data & -> & _)]; done.
  - exists ([processing_patch] ++ patches ++ [failed_patch ts]). simpl.
    split_and!; try done.
    + destruct Hp as [->|(text & data & -> & _)]; [by left|by right].
    + exists ts. destruct Hp as [->|(text & data & -> & _)]; done.
Qed.

(** X12. The pipeline touches only its own nine columns: no write of an
    invocation mentions any other column (the note, the tags, the media
    URL, the owner, ...), and the record holds for it the value it had
    before, whether the invocation returns or throws. *)
Theorem process_frame (column : string) :
  column ∉ pipeline_columns →
  row (processCapture env imageUrl note tags w).2 !! column = row w !! column ∧
  ∀ patch,
    patch ∈ drop (length (updates w))
              (updates (processCapture env imageUrl note tags w).2) →
    patch !! column = None.
Proof.
  intros Hc.
  assert (processing_patch !! column = None) as Hproc.
  { rewrite lookup_processing_patch. rewrite decide_False; [done|].
    intros ->. apply Hc. unfold pipeline_columns. set_solver. }
  assert (∀ ts, failed_patch ts !! column = None) as Hfail.
  { intros ts. rewrite lookup_failed_patch.
    rewrite !decide_False; [done| |]; intros ->; apply Hc;
      unfold pipeline_columns; set_solver. }
  destruct (processCapture_shape env imageUrl note tags w)
    as [text data _ Hd|e patches base ts clock Hp Hb
        |e patches base ts clock Hp Hb]; simpl.
  - rewrite drop_app_length. split.
    + rewrite !lookup_union, (final_patch_frame _ _ _ _ _ _ _ Hd Hc), Hproc.
      by destruct (row w !! _).
    + intros patch. rewrite !elem_of_cons, elem_of_nil.
      intros [->|[->|[]]]; [done|by eapply final_patch_frame].
  - rewrite drop_app_length. split.
    + rewrite lookup_union, Hfail.
      destruct Hb as [->| ->]; rewrite ?lookup_union, ?Hproc;
        by destruct (row w !! _).
    + intros patch. rewrite elem_of_cons, elem_of_app.
      rewrite !elem_of_cons, !elem_of_nil.
      intros [->|[Hin|[->|[]]]]; [done| |done].
      by eapply later_writes_frame.
  - rewrite drop_app_length. split.
    + destruct Hb as [->| ->]; rewrite ?lookup_union, ?Hproc;
        by destruct (row w !! _).
    + intros patch. rewrite elem_of_cons, elem_of_app.
      rewrite !elem_of_cons, !elem_of_nil.
      intros [->|[Hin|[->|[]]]]; [done| |done].
      by eapply later_writes_frame.
Qed.

End RunProperties.

Section StoredValues.

Variables (env : Env) (imageUrl note : option jsstring).
Variables (tags : option (list jsstring)) (w : World).

#[local] Arguments lit : simpl never.
#[local] Arguments cleanExtractedText : simpl never.

Lemma ocr_text_normal text :
  ocr_text env imageUrl = Ok text → normal_text text.
Proof.
  unfold ocr_text, extractTextFromImage.
  destruct imageUrl as [[|c u]|]; simpl; try (by intros [= <-]).
  destruct (textDetection env (c :: u)) as [[|[fullText|] rest]|];
    try (by intros [= <-]); try done.
  intros [= <-]. apply cleanExtractedText_normal.
Qed.

Lemma new_writes_cases patch :
  patch ∈ drop (length (updates w))
            (updates (processCapture env imageUrl note tags w).2) →
  patch = processing_patch ∨ (∃ ts, patch = failed_patch ts) ∨
  ∃ text, ocr_text env imageUrl = Ok text ∧
          final_patch env note tags w text patch.
Proof.
  destruct (processCapture_shape env imageUrl note tags w)
    as [text data Hocr Hd|e patches base ts clock Hp Hb
        |e patches base ts clock Hp Hb]; simpl; rewrite drop_app_length.
  - rewrite !elem_of_cons, elem_of_nil. intros [->|[->|[]]]; [by left|].
    right; right. by exists text.
  - rewrite elem_of_cons, elem_of_app, !elem_of_cons, !elem_of_nil.
    intros [->|[Hin|[->|[]]]]; [by left| |right; left; by exists ts].
    destruct Hp as [->|(text & data & -> & Hocr & Hd)];
      [by apply elem_of_nil in Hin|].
    apply list_elem_of_singleton in Hin as ->. right; right. by exists text.
  - rewrite elem_of_cons, elem_of_app, !elem_of_cons, !elem_of_nil.
    intros [->|[Hin|[->|[]]]]; [by left| |right; left; by exists ts].
    destruct Hp as [->|(text & data & -> & Hocr & Hd)];
      [by apply elem_of_nil in Hin|].
    apply list_elem_of_singleton in Hin as ->. right; right. by exists text.
Qed.

(** X13. Whatever the OCR service answers, every value an invocation
    writes to [extracted_text] is a text in the sanitizer's normal form:
    no white space at either end, no three line feeds in a row, no space
    or tab right before a line feed. *)
Theorem stored_text_sanitized patch v :
  patch ∈ drop (length (updates w))
            (updates (processCapture env imageUrl note tags w).2) →
  patch !! "extracted_text" = Some v →
  ∃ text,
    v = VStr text ∧ trim text = text ∧
    includes [LF; LF; LF] text = false ∧
    includes [SP; LF] text = false ∧ includes [TAB; LF] text = false.
Proof.
  intros [->|[[ts ->]|(text & Hocr & Hd)]]%new_writes_cases.
  - by rewrite lookup_processing_patch.
  - by rewrite lookup_failed_patch.
  - rewrite Hd. unfold step6_value. rewrite decide_True by done.
    intros [= <-]. exists text. split; [done|].
    by apply ocr_text_normal.
Qed.

(** X14. No write of an invocation stores a date without its datetime and
    its confidence: a patch with [extracted_date] also carries
    [extracted_datetime] and a [date_confidence] of at least 0.5. *)
Theorem stored_date_complete patch :
  patch ∈ drop (length (updates w))
            (updates (processCapture env imageUrl note tags w).2) →
  is_Some (patch !! "extracted_date") →
  is_Some (patch !! "extracted_datetime") ∧
  ∃ c, patch !! "date_confidence" = Some (VNum c) ∧
       (0.5 <=? c)%float = true.
Proof.
  intros [->|[[ts ->]|(text & Hocr & Hd)]]%new_writes_cases.
  - rewrite lookup_processing_patch. by intros [? ?].
  - rewrite lookup_failed_patch. by intros [? ?].
  - rewrite !Hd. unfold step6_value, temporal_value.
    rewrite !decide_False by done.
    destruct (temporal_of env note text (now env (dates w))) as [info|] eqn:Hinfo;
      [|by intros [? ?]].
    repeat (case_decide; try done).
    destruct (extractTemporalInfo_shape _ _ _ Hinfo)
      as [_ [(best & rest & iso & _ & Hiso & Hdt & Hdate & _ & Hc & _)
            |(_ & _ & Hdate & _)]].
    + intros _. rewrite Hdt, Hiso, Hc.
      destruct (calculateConfidence_half best
                  (join [LF; LF] (filter_Boolean [note; Some text])))
        as [Hhalf ->].
      split; [done|]. by eexists.
    + rewrite Hdate. by intros [? ?].
Qed.

End StoredValues.

(* ===================================================================== *)
(** ** The processing endpoint *)
(* ===================================================================== *)

Section EndpointFacts.

Variables (api : ApiEnv) (req : Request) (w : World).

#[local] Arguments lit : simpl never.

(** The four ways the handler ends. *)
Lemma handler_cases :
  (* nothing read but the request, or the query did not find the capture *)
  (∃ code error details,
     handler api req w
     = (Ok {| statusCode := code;
              json :=
                {| json_success := None; json_error := Some error;
                   json_details := details; json_message := None;
                   json_status := None;
                   json_captureId :=
                     if (code =? 404)%nat then body_captureId req else None;
                   json_userId :=
                     if (code =? 404)%nat then body_userId req else None;
                   json_extractedText := None; json_hasEmbedding := None;
                   json_temporalInfo := None |} |}, w) ∧
     ((code = 405 ∧ error = lit "Method not allowed" ∧
       method req ≠ lit "POST") ∨
      (code = 400 ∧ method req = lit "POST" ∧
       ((error = lit "Capture ID is required" ∧
         truthy (body_captureId req) = false) ∨
        (error = lit "User ID is required" ∧
         truthy (body_userId req) = false))) ∨
      (code = 404 ∧ error = lit "Capture not found") ∨
      (code = 500 ∧ error = lit "Processing failed" ∧
       select_single api = Rejected (default [] details)))) ∨
  (* the capture is found, completed or in progress *)
  (∃ captureId userId,
     req = post captureId userId ∧ select_single api = Accepted ∧
     truthy (Some captureId) = true ∧ truthy (Some userId) = true ∧
     is_string (row w !! "id") captureId = true ∧
     is_string (row w !! "user_id") userId = true ∧
     ((is_string (row w !! "processing_status") (lit "completed") = true ∧
       handler api req w
       = (Ok {| statusCode := 200;
                json :=
                  {| json_success := Some true; json_error := None;
                     json_details := None;
                     json_message := Some (lit "Capture already processed");
                     json_status := None; json_captureId := Some captureId;
                     json_userId := None;
                     json_extractedText := row w !! "extracted_text";
                     json_hasEmbedding :=
                       Some (value_truthy (row w !! "embedding"));
                     json_temporalInfo := None |} |}, w)) ∨
      (is_string (row w !! "processing_status") (lit "completed") = false ∧
       is_string (row w !! "processing_status") (lit "processing") = true ∧
       handler api req w
       = (Ok {| statusCode := 202;
                json :=
                  {| json_success := Some false; json_error := None;
                     json_details := None;
                     json_message :=
                       Some (lit "Capture is currently being processed");
                     json_status := Some (lit "processing");
                     json_captureId := Some captureId; json_userId := None;
                     json_extractedText := None; json_hasEmbedding := None;
                     json_temporalInfo := None |} |}, w)) ∨
      (is_string (row w !! "processing_status") (lit "completed") = false ∧
       is_string (row w !! "processing_status") (lit "processing") = false ∧
       handler api req w
       = match
           processCapture (pipeline api) (text_column (row w) "media_url")
             (text_column (row w) "note") (tags_column (row w)) w
         with
         | (Ok result, w') =>
             (Ok {| statusCode := 200;
                    json :=
                      {| json_success := Some true; json_error := None;
                         json_details := None; json_message := None;
                         json_status := None;
                         json_captureId := Some captureId;
                         json_userId := None;
                         json_extractedText :=
                           Some (VStr (result_text result));
                         json_hasEmbedding := Some (hasEmbedding result);
                         json_temporalInfo := result_temporal result |} |},
              w')
         | (Throw error, w') =>
             (Ok {| statusCode := 500;
                    json :=
                      {| json_success := None;
                         json_error := Some (lit "Processing failed");
                         json_details := Some error; json_message := None;
                         json_status := None; json_captureId := None;
                         json_userId := None; json_extractedText := None;
                         json_hasEmbedding := None;
                         json_temporalInfo := None |} |}, w')
         end))).
Proof.
  destruct (handler api req w) as [o w1] eqn:Hh. unfold handler in Hh.
  case_bool_decide as Hmethod; cbn [negb] in Hh.
  2:{ injection Hh as <- <-. left. eexists 405, _, _.
      split; [reflexivity|]. by left. }
  unfold try_catch in Hh.
  destruct (truthy (body_captureId req)) eqn:Hc; cbn [negb] in Hh.
  2:{ injection Hh as <- <-. left. eexists 400, _, _.
      split; [reflexivity|]. right; left. by auto. }
  destruct (truthy (body_userId req)) eqn:Hu; cbn [negb] in Hh.
  2:{ injection Hh as <- <-. left. eexists 400, _, _.
      split; [reflexivity|]. right; left. by auto. }
  destruct req as [m [captureId|] [userId|]]; try done.
  cbn [method body_captureId body_userId default from_option Datatypes.id] in *.
  subst m. unfold bind at 1 in Hh. unfold single in Hh.
  destruct (select_single api) as [|e|e] eqn:Hselect.
  - destruct (is_string (row w !! "id") captureId) eqn:Hid; cbn [andb] in Hh.
    2:{ injection Hh as <- <-. left. eexists 404, _, _.
        split; [reflexivity|]. right; right; left. done. }
    destruct (is_string (row w !! "user_id") userId) eqn:Huser.
    2:{ injection Hh as <- <-. left. eexists 404, _, _.
        split; [reflexivity|]. right; right; left. done. }
    right. exists captureId, userId. split_and!; try done.
    cbn [fetchError data] in Hh.
    destruct (is_string (row w !! "processing_status") (lit "completed")).
    { injection Hh as <- <-. left. done. }
    destruct (is_string (row w !! "processing_status") (lit "processing")).
    { injection Hh as <- <-. right; left. done. }
    right; right. split_and!; try done.
    unfold bind in Hh.
    destruct (processCapture _ _ _ _ w) as [[result|error] w'];
      by injection Hh as <- <-.
  - injection Hh as <- <-. left. eexists 404, _, _.
    split; [reflexivity|]. right; right; left. done.
  - injection Hh as <- <-. left. eexists 500, _, (Some e).
    split; [reflexivity|]. right; right; right. done.
Qed.

(** X15. The handler never throws and always answers, with one of six
    status codes; the answer carries an [error] property exactly when its
    status is not a success status, and [success: true] exactly when the
    status is 200. *)
Theorem handler_responds :
  ∃ response w',
    handler api req w = (Ok response, w') ∧
    statusCode response ∈ [200; 202; 400; 404; 405; 500] ∧
    (ok response = true ↔ json_error (json response) = None) ∧
    (json_success (json response) = Some true ↔ statusCode response = 200).
Proof.
  destruct handler_cases
    as [(code & error & details & -> & Hcode)
       |(captureId & userId & _ & _ & _ & _ & _ & _ &
         [[_ ->]|[(_ & _ & ->)|(_ & _ & ->)]])].
  - eexists _, _. split; [reflexivity|]. cbn [statusCode json json_error
      json_success].
    destruct Hcode as [[-> _]|[[-> _]|[[-> _]|[-> _]]]];
      (split_and!; [set_solver|done|done]).
  - eexists _, _. split; [reflexivity|]. simpl.
    split_and!; [set_solver|done|done].
  - eexists _, _. split; [reflexivity|]. simpl.
    split_and!; [set_solver|done|done].
  - destruct (processCapture _ _ _ _ w) as [[result|error] w'];
      (eexists _, _; split; [reflexivity|]); simpl;
      (split_and!; [set_solver|done|done]).
Qed.

(** X16. The handler writes nothing unless it runs the pipeline: when it
    answers 202, 400, 404 or 405, or that the capture was already
    processed, the record, the writes issued and the clock are as they
    were before the request. *)
Theorem handler_readonly response w' :
  handler api req w = (Ok response, w') →
  statusCode response ∈ [202; 400; 404; 405] ∨
  json_message (json response) = Some (lit "Capture already processed") →
  w' = w.
Proof.
  destruct handler_cases
    as [(code & error & details & -> & Hcode)
       |(captureId & userId & _ & _ & _ & _ & _ & _ &
         [[_ ->]|[(_ & _ & ->)|(_ & _ & ->)]])].
  - by intros [= <- <-].
  - by intros [= <- <-].
  - by intros [= <- <-].
  - destruct (processCapture _ _ _ _ w) as [[result|error] w2];
      intros [= <- <-]; simpl; intros [Hin|?]; try done;
      set_solver.
Qed.

End EndpointFacts.

Section Reinvocation.

Variables (api : ApiEnv) (w : World).

#[local] Arguments lit : simpl never.

Lemma handler_found_completed captureId userId :
  truthy (Some captureId) = true → truthy (Some userId) = true →
  select_single api = Accepted →
  is_string (row w !! "id") captureId = true →
  is_string (row w !! "user_id") userId = true →
  is_string (row w !! "processing_status") (lit "completed") = true →
  handler api (post captureId userId) w
  = (Ok {| statusCode := 200;
           json :=
             {| json_success := Some true; json_error := None;
                json_details := None;
                json_message := Some (lit "Capture already processed");
                json_status := None; json_captureId := Some captureId;
                json_userId := None;
                json_extractedText := row w !! "extracted_text";
                json_hasEmbedding :=
                  Some (value_truthy (row w !! "embedding"));
                json_temporalInfo := None |} |}, w).
Proof.
  intros Hc Hu Hselect Hid Huser Hstatus.
  unfold handler, post. cbn [method body_captureId body_userId].
  rewrite bool_decide_eq_true_2 by done. cbn [negb].
  rewrite Hc, Hu. cbn [negb default from_option Datatypes.id].
  unfold try_catch, bind, single. rewrite Hselect, Hid, Huser.
  cbn [andb fetchError data]. by rewrite Hstatus.
Qed.

End Reinvocation.

Section SecondCall.

Variables (api api' : ApiEnv) (w : World).

#[local] Arguments lit : simpl never.

(** X17. Once a request has been answered 200, the same request again
    (the query being answered) is answered 200 with the message that the
    capture was already processed and with the same extracted text; it
    reports an embedding if the first answer did; and it writes
    nothing. *)
Theorem handler_idempotent captureId userId response w' :
  handler api (post captureId userId) w = (Ok response, w') →
  statusCode response = 200 →
  select_single api' = Accepted →
  ∃ response',
    handler api' (post captureId userId) w' = (Ok response', w') ∧
    statusCode response' = 200 ∧
    json_message (json response')
    = Some (lit "Capture already processed") ∧
    json_extractedText (json response')
    = json_extractedText (json response) ∧
    (json_hasEmbedding (json response) = Some true →
     json_hasEmbedding (json response') = Some true).
Proof.
  intros Hfirst Hcode Hselect.
  destruct (handler_cases api (post captureId userId) w)
    as [(code & error & details & Hrun & Hcase)
       |(c & u & [= <- <-] & _ & Hc & Hu & Hid & Huser &
         [[Hdone Hrun]|[(_ & _ & Hrun)|(Hdone & Hproc & Hrun)]])];
    rewrite Hrun in Hfirst.
  - injection Hfirst as <- <-. simpl in Hcode. subst code.
    by destruct Hcase as [[? _]|[[? _]|[[? _]|[? _]]]].
  - injection Hfirst as <- <-.
    eexists. split; [by apply handler_found_completed|]. done.
  - by injection Hfirst as <- <-.
  - pose proof (processCapture_shape (pipeline api)
                  (text_column (row w) "media_url")
                  (text_column (row w) "note") (tags_column (row w)) w)
      as Hshape.
    destruct (processCapture _ _ _ _ w) as [[result|error] w2];
      injection Hfirst as <- <-; [|done].
    simpl in Hshape. inversion Hshape as [text data Hocr Hd| |]; subst.
    pose proof (Hd "processing_status") as Hstatus.
    pose proof (Hd "extracted_text") as Htext.
    pose proof (Hd "embedding") as Hemb.
    unfold step6_value in Hstatus, Htext, Hemb.
    rewrite decide_False, decide_True in Hstatus by done.
    rewrite decide_True in Htext by done.
    rewrite !decide_False in Hemb by done. rewrite decide_True in Hemb by done.
    assert (∀ column, column ∉ pipeline_columns →
              (data ∪ (processing_patch ∪ row w)) !! column
              = row w !! column) as Hframe.
    { intros column Hcol.
      rewrite !lookup_union, (final_patch_frame _ _ _ _ _ _ _ Hd Hcol).
      rewrite lookup_processing_patch, decide_False;
        [by destruct (row w !! column)|].
      intros ->. apply Hcol. unfold pipeline_columns. set_solver. }
    eexists. split.
    { apply handler_found_completed; try done; cbn [row].
      - rewrite Hframe; [done|]. unfold pipeline_columns. set_solver.
      - rewrite Hframe; [done|]. unfold pipeline_columns. set_solver.
      - rewrite lookup_union, Hstatus.
        by destruct ((processing_patch ∪ row w) !! "processing_status"). }
    cbn [statusCode json json_message json_extractedText json_hasEmbedding row
         result_text hasEmbedding].
    split_and!; try done.
    + rewrite lookup_union, Htext.
      by destruct ((processing_patch ∪ row w) !! "extracted_text").
    + intros [= Hsome]. apply bool_decide_eq_true_1 in Hsome as [e He].
      rewrite lookup_union, Hemb, He. simpl.
      by destruct ((processing_patch ∪ row w) !! "embedding").
Qed.

End SecondCall.

(* ===================================================================== *)
(** ** The client of the endpoint *)
(* ===================================================================== *)

Section ClientFacts.

#[local] Arguments lit : simpl never.

(** X18. What [processCaptureAPI] makes of the endpoint's answer: it
    throws only one of four fixed messages, never the detail of an
    internal error; and what it returns is either a success or the notice
    that the capture is being processed. *)
Theorem client_outcome (api : ApiEnv) (w : World) (captureId userId : jsstring) :
  match
    processCaptureAPI (λ c u, (handler api (post c u) w).1) captureId userId
  with
  | Throw error =>
      error ∈ [lit "Capture ID is required"; lit "User ID is required";
               lit "Capture not found"; lit "Processing failed"]
  | Ok data =>
      json_success data = Some true ∨
      (json_success data = Some false ∧
       json_status data = Some (lit "processing"))
  end.
Proof.
  unfold processCaptureAPI.
  destruct (handler_cases api (post captureId userId) w)
    as [(code & error & details & -> & Hcase)
       |(c & u & _ & _ & _ & _ & _ & _ &
         [[_ ->]|[(_ & _ & ->)|(_ & _ & ->)]])]; cbn [fst].
  - unfold ok, or_else.
    destruct Hcase as [(_ & _ & Hm)|[(-> & _ & [[-> _]|[-> _]])
                      |[[-> ->]|(-> & -> & _)]]];
      [done|..]; cbn [statusCode json json_error negb andb Nat.leb truthy
                      default from_option Datatypes.id];
      set_solver.
  - by left.
  - by right.
  - destruct (processCapture _ _ _ _ w) as [[result|error] w2]; cbn [fst].
    + by left.
    + unfold ok, or_else. simpl. set_solver.
Qed.

Lemma filter_fulfilled_length {A} (settled : list (outcome A)) :
  length (filter (λ r, fulfilled r = true) settled)
  + length (filter (λ r, fulfilled r = false) settled) = length settled.
Proof.
  induction settled as [|[a|e] settled IH]; [done| |].
  - rewrite filter_cons_True by done.
    rewrite (filter_cons_False (λ r, fulfilled r = false)) by done.
    simpl. lia.
  - rewrite filter_cons_False by done.
    rewrite (filter_cons_True (λ r, fulfilled r = false)) by done.
    simpl. lia.
Qed.

(** X19. Once the query for the pending captures has answered a list that
    is not empty, the batch never throws, whatever the single calls do;
    the calls that returned and those that threw add up to the total,
    which is the number of pending captures; and the report lists the
    captures in the order of the query, each with the outcome of its own
    call: the error message of a call that threw, no error otherwise. *)
Theorem batch_report (call : jsstring → outcome Json)
    (first : jsstring) (others : list jsstring) :
  ∃ report failures,
    processAllPendingCaptures
      (Ok {| pendingCaptures := Some (first :: others);
             query_error := None |}) call
    = Ok report ∧
    failed report = Some failures ∧
    total report = Some (length (first :: others)) ∧
    processed report + failures = length (first :: others) ∧
    processed report
    = length (filter (λ captureId, fulfilled (call captureId) = true)
                (first :: others)) ∧
    results report
    = map (λ captureId,
             {| entry_captureId := captureId;
                entry_success := fulfilled (call captureId);
                entry_error :=
                  match call captureId with
                  | Throw reason => Some reason
                  | Ok _ => None
                  end |})
        (first :: others).
Proof.
  eexists _, _. split; [reflexivity|].
  cbn [failed total processed results]. split_and!; try done.
  - rewrite filter_fulfilled_length. by rewrite length_map.
  - generalize (first :: others). intros l.
    induction l as [|captureId l IH]; [done|].
    rewrite map_cons. destruct (fulfilled (call captureId)) eqn:Hc.
    + rewrite !filter_cons_True by done. simpl. by rewrite IH.
    + rewrite !filter_cons_False by (by rewrite Hc). done.
  - generalize (first :: others). intros l.
    apply list_eq. intros i.
    rewrite list_lookup_imap, !list_lookup_fmap.
    destruct (l !! i) as [captureId|] eqn:Hi; [|done]. done.
Qed.

End ClientFacts.

(* ===================================================================== *)
(** ** The tags of a new capture *)
(* ===================================================================== *)

Section Tags.

#[local] Arguments trim : simpl never.

Lemma split_no_sep sep s : Forall (λ piece, sep ∉ piece) (split sep s).
Proof.
  induction s as [|c s IH]; simpl.
  - constructor; [apply not_elem_of_nil|constructor].
  - destruct (c =? sep)%N eqn:Hc.
    + constructor; [apply not_elem_of_nil|done].
    + apply N.eqb_neq in Hc.
      destruct (split sep s) as [|piece pieces].
      * constructor; [|constructor]. set_solver.
      * inversion IH; subst. constructor; [|done]. set_solver.
Qed.

Lemma split_piece sep s : sep ∉ s → split sep s = [s].
Proof.
  induction s as [|c s IH]; [done|]. intros [Hc Hs]%not_elem_of_cons.
  simpl. rewrite (proj2 (N.eqb_neq c sep)) by done. by rewrite IH.
Qed.

Lemma split_app sep piece rest :
  sep ∉ piece →
  split sep (piece ++ sep :: rest) = piece :: split sep rest.
Proof.
  induction piece as [|c piece IH]; simpl.
  - intros _. by rewrite N.eqb_refl.
  - intros [Hc Hs]%not_elem_of_cons.
    rewrite (proj2 (N.eqb_neq c sep)) by done. by rewrite IH.
Qed.

Lemma trim_sublist s : trim s `sublist_of` s.
Proof.
  unfold trim. etrans; [apply trimEnd_sublist | apply trimStart_sublist].
Qed.

Lemma filter_Boolean_trimmed pieces tag :
  tag ∈ filter_Boolean (map (λ piece, Some (trim piece)) pieces) →
  tag ≠ [] ∧ ∃ piece, piece ∈ pieces ∧ tag = trim piece.
Proof.
  unfold filter_Boolean. rewrite list_elem_of_omap.
  intros (o & Ho & Htag). apply list_elem_of_fmap in Ho as (piece & -> & Hp).
  destruct (trim piece) as [|c t] eqn:Htrim; [done|].
  simpl in Htag. injection Htag as <-. split; [done|]. by exists piece.
Qed.

(** X20. The tags stored with a new capture, whatever was typed: none is
    empty, none has white space at either end, and none holds a comma. *)
Theorem parse_tags_wellformed (tags : jsstring) :
  Forall (λ tag, tag ≠ [] ∧ trim tag = tag ∧ COMMA ∉ tag) (parse_tags tags).
Proof.
  apply Forall_forall. intros tag (Hne & piece & Hp & ->)%filter_Boolean_trimmed.
  split_and!; [done | apply trim_idem |].
  intros Hin. pose proof (elem_of_sublist _ _ _ Hin (trim_sublist piece)) as Hin'.
  pose proof (split_no_sep COMMA tags) as Hall.
  rewrite Forall_forall in Hall. by apply (Hall piece).
Qed.

Lemma split_join tag tags :
  Forall (λ tag, COMMA ∉ tag) (tag :: tags) →
  split COMMA (join [COMMA; SP] (tag :: tags)) = tag :: map (cons SP) tags.
Proof.
  revert tag. induction tags as [|next tags IH]; intros tag Hall.
  - simpl. apply split_piece. by inversion Hall.
  - inversion Hall as [|? ? Htag Hrest]; subst.
    change (join [COMMA; SP] (tag :: next :: tags))
      with (tag ++ COMMA :: SP :: join [COMMA; SP] (next :: tags)).
    rewrite split_app by done. f_equal.
    change (split COMMA (SP :: ?s))
      with (match split COMMA s with
            | piece :: pieces => (SP :: piece) :: pieces
            | [] => [[SP]]
            end).
    by rewrite IH.
Qed.

Lemma filter_Boolean_cons c s parts :
  filter_Boolean (Some (c :: s) :: parts) = (c :: s) :: filter_Boolean parts.
Proof. done. Qed.

Lemma trim_after_space tag : trim (SP :: tag) = trim tag.
Proof. done. Qed.

(** X21. Tags that are well formed (not empty, trimmed, without a comma)
    are read back unchanged from the text the pipeline lists them in,
    their join with a comma and a space: parsing is a left inverse of
    that join. *)
Theorem parse_tags_join (tags : list jsstring) :
  Forall tag_ok tags →
  parse_tags (join [COMMA; SP] tags) = tags.
Proof.
  intros Hall. destruct tags as [|tag tags]; [done|].
  unfold parse_tags. rewrite split_join.
  2:{ eapply Forall_impl; [done|]. by intros t (_ & _ & ?). }
  assert (∀ l, Forall tag_ok l →
            filter_Boolean (map (λ piece, Some (trim piece)) (map (cons SP) l))
            = l) as Hrest.
  { intros l. induction 1 as [|t l (Hne & Htrim & _) _ IH]; [done|].
    rewrite !map_cons, trim_after_space, Htrim.
    destruct t as [|c t]; [done|]. rewrite filter_Boolean_cons. f_equal. apply IH. }
  inversion Hall as [|? ? (Hne & Htrim & _) Htags]; subst.
  rewrite map_cons, Htrim.
  destruct tag as [|c tag]; [done|]. rewrite filter_Boolean_cons. f_equal. by apply Hrest.
Qed.

End Tags.

(* ===================================================================== *)
(** ** Hybrid search: failures, completeness and the range of the scores *)
(* ===================================================================== *)

Section SearchFailures.

Variables (env : SearchEnv) (query userId : jsstring) (options : Options).

#[local] Arguments lit : simpl never.

(** X22. A blank query (empty, or white space only) makes the hybrid
    search fail, whatever the services would answer: the embedding
    service is not asked, and the full-text rows are not returned. *)
Theorem hybrid_blank_query :
  trim query = [] →
  hybridSearch env query userId options
  = Throw (lit "Hybrid search failed: " ++ lit "Semantic search failed: "
           ++ lit "No text provided for embedding generation").
Proof.
  intros Hblank. unfold hybridSearch, semanticSearch, generateEmbedding.
  rewrite Hblank. by destruct (fullTextSearch env query userId).
Qed.

End SearchFailures.

Lemma last_filter_elem {A} (P : A → Prop) `{!∀ x, Decision (P x)}
    (l : list A) (x : A) :
  last (filter P l) = Some x → x ∈ l ∧ P x.
Proof.
  intros [l' Hl']%last_Some.
  assert (x ∈ filter P l) as Hin by (rewrite Hl'; set_solver).
  apply list_elem_of_filter in Hin. tauto.
Qed.

Section SearchRange.

Variables (env : SearchEnv) (query userId : jsstring) (options : Options).
Variables (sem : list SemanticHit) (ft : list Capture).

Let limit : Z := default 5%Z (fullTextLimit options).

Hypothesis semantic_answer :
  semanticSearch env query userId (default 5%Z (semanticLimit options))
    (default 0.7%float (semanticThreshold options)) = Ok sem.
Hypothesis fulltext_answer : fullTextSearch env query userId = Ok ft.

Lemma merged_entry_id key e :
  merged_entry limit sem ft key = Some e → id (capture e) = key.
Proof.
  unfold merged_entry.
  destruct (last (filter _ sem)) as [r|] eqn:Hlast.
  - intros [= <-]. by apply last_filter_elem in Hlast as [_ ?].
  - destruct (head _) as [[i c]|] eqn:Hhead; [|done]. intros [= <-].
    by apply head_Some_elem_of, list_elem_of_filter in Hhead as [? _].
Qed.

(** X23. When both searches answer, the merged list holds exactly the
    captures found: an id occurs in it if and only if it is the id of a
    semantic row or of one of the full-text rows the merge looks at (the
    first [fullTextLimit] of them). *)
Theorem hybrid_complete :
  ∃ results,
    hybridSearch env query userId options = Ok results ∧
    ∀ key,
      key ∈ map (λ e, id (capture e)) results ↔
      key ∈ map (λ r, id (hit r)) sem ∨
      key ∈ map id (slice_to limit ft).
Proof using semantic_answer fulltext_answer.
  exists (merge limit sem ft). split.
  { by apply hybridSearch_Ok. }
  intros key. split.
  - intros (e & -> & He)%list_elem_of_fmap.
    apply merge_elem_of in He. unfold merged_entry in He.
    destruct (last (filter _ sem)) as [r|] eqn:Hlast.
    + left. apply last_filter_elem in Hlast as [Hin Hr].
      apply list_elem_of_fmap. by exists r.
    + right. destruct (head _) as [[i c]|] eqn:Hhead; [|done].
      apply head_Some_elem_of, list_elem_of_filter in Hhead as [Hc Hin].
      unfold ranked in Hin.
      apply elem_of_lookup_imap in Hin as (j & y & [= -> ->] & Hj).
      apply list_elem_of_fmap. exists y. simpl in Hc.
      split; [done|]. by eapply list_elem_of_lookup_2.
  - intros Hkey.
    assert (is_Some (merged_entry limit sem ft key)) as [e He].
    { unfold merged_entry.
      destruct (last (filter _ sem)) as [r|] eqn:Hlast; [done|].
      apply last_None in Hlast.
      destruct Hkey as [(r & -> & Hr)%list_elem_of_fmap
                       |(c & -> & Hc)%list_elem_of_fmap].
      + assert (r ∈ filter (λ r0, id (hit r0) = id (hit r)) sem) as Hin
          by by apply list_elem_of_filter.
        rewrite Hlast in Hin. by apply elem_of_nil in Hin.
      + apply list_elem_of_lookup_1 in Hc as [i Hi].
        destruct (filter _ (ranked limit ft)) as [|x l] eqn:Hf; [|done].
        assert ((i, c) ∈ filter (λ e : nat * Capture, id e.2 = id c)
                  (ranked limit ft)) as Hin.
        { apply list_elem_of_filter. split; [done|]. unfold ranked.
          apply elem_of_lookup_imap. by exists i, c. }
        rewrite Hf in Hin. by apply elem_of_nil in Hin. }
    apply list_elem_of_fmap. exists e.
    pose proof (merged_entry_id _ _ He) as Hid.
    split; [done|]. apply merge_elem_of. by rewrite Hid.
Qed.

(** X24. When both searches answer, the similarities lie between 0 and
    1 and [fullTextLimit] is not negative (and below [2^53], as an
    integer that a double holds), every score of the merged list lies
    between 0 and 1, and the score of a full-text entry is never 0: the
    quotient [index / fullTextLimit] of an index below the limit rounds
    to a double below 1, and its difference from 1 to a double above 0
    and not above 1. *)
Theorem hybrid_scores_in_range :
  (0 <= limit < 2 ^ 53)%Z →
  Forall (λ r, (0 <=? similarity r)%float = true ∧
               (similarity r <=? 1)%float = true) sem →
  ∃ results,
    hybridSearch env query userId options = Ok results ∧
    Forall (λ e, (0 <=? relevanceScore e)%float = true ∧
                 (relevanceScore e <=? 1)%float = true ∧
                 (searchType e = fulltext →
                  (0 <? relevanceScore e)%float = true))
      results.
Proof using semantic_answer fulltext_answer.
  intros Hlimit Hsem. exists (merge limit sem ft). split.
  { by apply hybridSearch_Ok. }
  apply Forall_forall. intros e He.
  apply merge_elem_of in He. unfold merged_entry in He.
  destruct (last (filter _ sem)) as [r|] eqn:Hlast.
  - injection He as <-. apply last_filter_elem in Hlast as [Hin _].
    rewrite Forall_forall in Hsem. destruct (Hsem r Hin). simpl.
    by split_and!.
  - destruct (head _) as [[i c]|] eqn:Hhead; [|done].
    injection He as <-. simpl.
    apply head_Some_elem_of, list_elem_of_filter in Hhead as [_ Hin].
    unfold ranked in Hin.
    apply elem_of_lookup_imap in Hin as (j & y & [= -> ->] & Hj).
    apply slice_to_lookup in Hj as [_ Hlt].
    destruct (positional_score_range (Z.of_nat j) limit) as [Hpos Hle];
      [lia|lia|].
    split_and!; [by apply ltb_leb|done|done].
Qed.

End SearchRange.

(* ===================================================================== *)
(** ** A failure that could not be recorded *)
(* ===================================================================== *)

Section Unrecorded.

Variables (env : Env) (imageUrl note : option jsstring).
Variables (tags : option (list jsstring)) (w : World).

#[local] Arguments lit : simpl never.

Lemma catch_block_unrecorded error (w0 : World) :
  db_update env (length (updates w0)) ≠ Accepted →
  ∃ e, catch_block env error w0
       = (Throw e,
          {| row := row w0;
             updates := updates w0 ++ [failed_patch (now env (dates w0))];
             dates := S (dates w0) |}).
Proof.
  intros H. rewrite catch_block_run.
  destruct (db_update env (length (updates w0))) as [|e|e]; [done| |];
    by eexists.
Qed.

Lemma handler_found_processing (api : ApiEnv) (w0 : World) captureId userId :
  truthy (Some captureId) = true → truthy (Some userId) = true →
  select_single api = Accepted →
  is_string (row w0 !! "id") captureId = true →
  is_string (row w0 !! "user_id") userId = true →
  row w0 !! "processing_status" = Some (VStr (lit "processing")) →
  ∃ response,
    handler api (post captureId userId) w0 = (Ok response, w0) ∧
    statusCode response = 202.
Proof.
  intros Hc Hu Hselect Hid Huser Hstatus.
  unfold handler, post. cbn [method body_captureId body_userId].
  rewrite bool_decide_eq_true_2 by done. cbn [negb].
  rewrite Hc, Hu. cbn [negb default from_option Datatypes.id].
  unfold try_catch, bind, single. rewrite Hselect, Hid, Huser.
  cbn [andb fetchError data]. rewrite Hstatus.
  eexists. split; reflexivity.
Qed.

(** X25. A failure that cannot be recorded leaves the capture in status
    [processing] for good: when the storage accepts the first write of an
    invocation and none of the later ones, the invocation throws, the
    record differs from what it was only by the status [processing], and
    every later request for the capture (its query being answered) is
    answered 202 without the pipeline being run again. *)
Theorem unrecorded_failure_blocks (captureId userId : jsstring) :
  db_update env (length (updates w)) = Accepted →
  (∀ n, length (updates w) < n → db_update env n ≠ Accepted) →
  truthy (Some captureId) = true → truthy (Some userId) = true →
  is_string (row w !! "id") captureId = true →
  is_string (row w !! "user_id") userId = true →
  ∃ error w',
    processCapture env imageUrl note tags w = (Throw error, w') ∧
    row w' = processing_patch ∪ row w ∧
    ∀ api, select_single api = Accepted →
      ∃ response,
        handler api (post captureId userId) w' = (Ok response, w') ∧
        statusCode response = 202.
Proof.
  intros H1 Hlater Hc Hu Hid Huser.
  assert (∃ error w',
            processCapture env imageUrl note tags w = (Throw error, w') ∧
            row w' = processing_patch ∪ row w) as (error & w' & Hrun & Hrow).
  { destruct (ocr_text env imageUrl) as [text|e] eqn:Hocr.
    - destruct (processCapture_after_ocr env imageUrl note tags w text H1 Hocr)
        as (data & _ & ->).
      pose proof (Hlater (S (length (updates w))) (Nat.lt_succ_diag_r _))
        as H2.
      destruct (db_update env (S (length (updates w)))) as [|e2|e2]; [done| |].
      + destruct (catch_block_unrecorded e2
                    {| row := processing_patch ∪ row w;
                       updates := updates w ++ [processing_patch; data];
                       dates := S (S (dates w)) |}) as [e ->].
        { apply Hlater. simpl. rewrite length_app. simpl. lia. }
        by eexists _, _.
      + destruct (catch_block_unrecorded e2
                    {| row := processing_patch ∪ row w;
                       updates := updates w ++ [processing_patch; data];
                       dates := S (S (dates w)) |}) as [e ->].
        { apply Hlater. simpl. rewrite length_app. simpl. lia. }
        by eexists _, _.
    - rewrite (processCapture_ocr_throws env imageUrl note tags w e H1 Hocr).
      destruct (catch_block_unrecorded e
                  {| row := processing_patch ∪ row w;
                     updates := updates w ++ [processing_patch];
                     dates := dates w |}) as [e' ->].
      { apply Hlater. simpl. rewrite length_app. simpl. lia. }
      by eexists _, _. }
  exists error, w'. split_and!; [done|done|].
  intros api Hselect.
  apply handler_found_processing; try done; rewrite Hrow.
  - rewrite lookup_union, lookup_processing_patch. rewrite decide_False by done.
    by rewrite (left_id None _).
  - rewrite lookup_union, lookup_processing_patch. rewrite decide_False by done.
    by rewrite (left_id None _).
  - rewrite lookup_union, lookup_processing_patch. rewrite decide_True by done.
    by destruct (row w !! "processing_status").
Qed.

End Unrecorded.

(* ===================================================================== *)
(** ** Further theorems at concrete inputs *)
(* ===================================================================== *)

(** X5 at ["Dentist Next Week"]: the key of the match ["Next Week"]. *)
Lemma temporal_context_keys_normal_witness :
  lit "next_week" ∈ map fst (extractTemporalContext (lit "Dentist Next Week")) ∧
  Forall (λ c, is_space c = false ∧ is_upper c = false) (lit "next_week").
Proof.
  assert (lit "next_week"
          ∈ map fst (extractTemporalContext (lit "Dentist Next Week"))) as H
    by (apply (bool_decide_unpack _); vm_compute; exact I).
  split; [exact H|].
  exact (temporal_context_keys_normal (lit "Dentist Next Week")
           (lit "next_week") H).
Defined.

(** X6 at the text ["Lunch on March 3, 2024"], the parser answering the
    match ["March 3, 2024"]. *)
Lemma temporal_result_consistent_witness :
  ∃ info,
    extractTemporalInfo (λ _, Ok [march_match]) (lit "Lunch on March 3, 2024")
    = Some info ∧
    extractedDate info = Some (lit "2024-03-03") ∧
    extractedDatetime info = Some march_date ∧
    length (rawMatches info) = 1 ∧
    temporalContext info
    = extractTemporalContext (lit "Lunch on March 3, 2024").
Proof.
  eexists. split; [vm_compute; reflexivity|].
  destruct (temporal_result_consistent (λ _, Ok [march_match])
              (lit "Lunch on March 3, 2024") _ eq_refl)
    as (Hctx & _ & Hdate & _).
  destruct (Hdate (lit "2024-03-03") eq_refl)
    as (date & iso & Hdt & _ & _ & Hraw).
  split_and!; [reflexivity | reflexivity | exact Hraw | exact Hctx].
Defined.

(** X7 at the same text and match. *)
Lemma temporal_date_confidence_witness :
  ∃ info,
    extractTemporalInfo (λ _, Ok [march_match]) (lit "Lunch on March 3, 2024")
    = Some info ∧
    is_Some (extractedDate info) ∧
    (0.5 <=? confidence info)%float = true ∧
    number_truthy (confidence info) = true.
Proof.
  eexists. split; [vm_compute; reflexivity|].
  assert (is_Some (Some (lit "2024-03-03"))) as H by (eexists; reflexivity).
  split; [exact H|].
  exact (temporal_date_confidence (λ _, Ok [march_match])
           (lit "Lunch on March 3, 2024") _ eq_refl H).
Defined.

(** X9 at the stored capture, every service answering. *)
Lemma process_success_witness :
  (db_update all_up (length (updates (stored_world "pending"))) = Accepted ∧
   ocr_text all_up (Some (lit "https://cdn/img.png"))
   = Ok (cleanExtractedText invoice_text) ∧
   db_update all_up (S (length (updates (stored_world "pending"))))
   = Accepted) ∧
  ∃ w' result,
    processCapture all_up (Some (lit "https://cdn/img.png"))
      (Some (lit "Lunch on March 3, 2024")) None (stored_world "pending")
    = (Ok result, w') ∧
    hasEmbedding result = true ∧
    length (updates w') = 2 ∧
    row w' !! "processing_status" = Some (VStr (lit "completed")) ∧
    row w' !! "extracted_text" = Some (VStr (cleanExtractedText invoice_text)) ∧
    row w' !! "embedding" = Some (VVector [0.25%float]) ∧
    row w' !! "extracted_date" = Some (VStr (lit "2024-03-03")) ∧
    row w' !! "note" = Some (VStr (lit "Lunch on March 3, 2024")).
Proof.
  split; [split_and!; reflexivity|].
  destruct (process_success all_up (Some (lit "https://cdn/img.png"))
              (Some (lit "Lunch on March 3, 2024")) None
              (stored_world "pending") (cleanExtractedText invoice_text)
              eq_refl eq_refl eq_refl)
    as (w' & Hrun & Hlen & _ & Hrow).
  exists w'. eexists. split; [exact Hrun|].
  split_and!; [reflexivity | exact Hlen | | | | |];
    rewrite Hrow; vm_compute; reflexivity.
Defined.

(** X10 at the stored capture, the storage refusing the final write. *)
Lemma final_write_failure_witness :
  (db_update final_write_refused (length (updates (stored_world "pending")))
   = Accepted ∧
   ocr_text final_write_refused (Some (lit "https://cdn/img.png"))
   = Ok (cleanExtractedText invoice_text) ∧
   db_update final_write_refused
     (S (length (updates (stored_world "pending"))))
   = Refused (lit "conflict") ∧
   db_update final_write_refused
     (S (S (length (updates (stored_world "pending"))))) = Accepted) ∧
  ∃ w',
    processCapture final_write_refused (Some (lit "https://cdn/img.png"))
      (Some (lit "Lunch on March 3, 2024")) None (stored_world "pending")
    = (Throw (lit "conflict"), w') ∧
    length (updates w') = 3 ∧
    row w' !! "processing_status" = Some (VStr (lit "failed")) ∧
    row w' !! "extracted_text" = None ∧
    row w' !! "embedding" = None.
Proof.
  split; [split_and!; reflexivity|].
  destruct (final_write_failure final_write_refused
              (Some (lit "https://cdn/img.png"))
              (Some (lit "Lunch on March 3, 2024")) None
              (stored_world "pending") (cleanExtractedText invoice_text)
              (lit "conflict") eq_refl eq_refl (or_introl eq_refl) eq_refl)
    as (w' & Hrun & Hlen & _ & Hstatus & _ & Hframe).
  exists w'. split_and!; [exact Hrun | exact Hlen | exact Hstatus | |].
  - rewrite (Hframe "extracted_text"); [reflexivity | discriminate | discriminate].
  - rewrite (Hframe "embedding"); [reflexivity | discriminate | discriminate].
Defined.

(** X12 at the stored capture: the note is not a column of the
    pipeline. *)
Lemma process_frame_witness :
  ("note" ∉ pipeline_columns) ∧
  row processed_world !! "note" = Some (VStr (lit "Lunch on March 3, 2024")) ∧
  ∀ patch,
    patch ∈ drop (length (updates (stored_world "pending")))
              (updates processed_world) →
    patch !! "note" = None.
Proof.
  assert ("note" ∉ pipeline_columns) as H
    by (apply (bool_decide_unpack _); vm_compute; exact I).
  split; [exact H|].
  destruct (process_frame all_up (Some (lit "https://cdn/img.png"))
              (Some (lit "Lunch on March 3, 2024")) None
              (stored_world "pending") "note" H) as [Hrow Hwrites].
  split; [|exact Hwrites].
  unfold processed_world. rewrite Hrow. reflexivity.
Defined.

(** X13 at the stored capture: the text of the last write. *)
Lemma stored_text_sanitized_witness :
  (last_patch ∈ drop (length (updates (stored_world "pending")))
                 (updates processed_world) ∧
   last_patch !! "extracted_text"
   = Some (VStr (cleanExtractedText invoice_text))) ∧
  ∃ text,
    VStr (cleanExtractedText invoice_text) = VStr text ∧ trim text = text ∧
    includes [LF; LF; LF] text = false ∧
    includes [SP; LF] text = false ∧ includes [TAB; LF] text = false.
Proof.
  assert (last_patch ∈ drop (length (updates (stored_world "pending")))
                        (updates processed_world)) as Hin.
  { apply (list_elem_of_lookup_2 _ 1). vm_compute. reflexivity. }
  assert (last_patch !! "extracted_text"
          = Some (VStr (cleanExtractedText invoice_text))) as Htext
    by (vm_compute; reflexivity).
  split; [by split|].
  exact (stored_text_sanitized all_up (Some (lit "https://cdn/img.png"))
           (Some (lit "Lunch on March 3, 2024")) None
           (stored_world "pending") last_patch _ Hin Htext).
Defined.

(** X14 at the stored capture: the last write carries a date. *)
Lemma stored_date_complete_witness :
  (last_patch ∈ drop (length (updates (stored_world "pending")))
                 (updates processed_world) ∧
   is_Some (last_patch !! "extracted_date")) ∧
  is_Some (last_patch !! "extracted_datetime") ∧
  ∃ c, last_patch !! "date_confidence" = Some (VNum c) ∧
       (0.5 <=? c)%float = true.
Proof.
  assert (last_patch ∈ drop (length (updates (stored_world "pending")))
                        (updates processed_world)) as Hin.
  { apply (list_elem_of_lookup_2 _ 1). vm_compute. reflexivity. }
  assert (is_Some (last_patch !! "extracted_date")) as Hdate.
  { exists (VStr (lit "2024-03-03")). vm_compute. reflexivity. }
  split; [by split|].
  exact (stored_date_complete all_up (Some (lit "https://cdn/img.png"))
           (Some (lit "Lunch on March 3, 2024")) None
           (stored_world "pending") last_patch Hin Hdate).
Defined.

(** X16 at a capture that is being processed: the answer is 202 and
    nothing changes. *)
Lemma handler_readonly_witness :
  ∃ response w',
    handler demo_api (post (lit "c1") (lit "u1")) (stored_world "processing")
    = (Ok response, w') ∧
    statusCode response ∈ [202; 400; 404; 405] ∧
    w' = stored_world "processing".
Proof.
  eexists _, _. split; [reflexivity|].
  assert (202 ∈ [202; 400; 404; 405]) as Hcode by apply list_elem_of_here.
  split; [exact Hcode|].
  exact (handler_readonly demo_api (post (lit "c1") (lit "u1"))
           (stored_world "processing") _ _ eq_refl (or_introl Hcode)).
Defined.

(** X17 at the stored capture: the first request processes it, the
    second finds it processed. *)
Lemma handler_idempotent_witness :
  ∃ response w' response',
    handler demo_api (post (lit "c1") (lit "u1")) (stored_world "pending")
    = (Ok response, w') ∧
    statusCode response = 200 ∧
    json_message (json response) = None ∧
    select_single demo_api = Accepted ∧
    handler demo_api (post (lit "c1") (lit "u1")) w' = (Ok response', w') ∧
    statusCode response' = 200 ∧
    json_message (json response') = Some (lit "Capture already processed") ∧
    json_extractedText (json response')
    = Some (VStr (cleanExtractedText invoice_text)) ∧
    json_hasEmbedding (json response') = Some true.
Proof.
  destruct (handler demo_api (post (lit "c1") (lit "u1"))
              (stored_world "pending")) as [[response|error] w'] eqn:Hrun;
    [|vm_compute in Hrun; discriminate].
  assert (statusCode response = 200 ∧ json_message (json response) = None ∧
          json_extractedText (json response)
          = Some (VStr (cleanExtractedText invoice_text)) ∧
          json_hasEmbedding (json response) = Some true)
    as (Hcode & Hmessage & Htext & Hemb).
  { vm_compute in Hrun. injection Hrun as <- _. vm_compute.
    split_and!; reflexivity. }
  destruct (handler_idempotent demo_api demo_api (stored_world "pending")
              (lit "c1") (lit "u1") response w' Hrun Hcode eq_refl)
    as (response' & Hagain & Hcode' & Hmessage' & Htext' & Hemb').
  exists response, w', response'.
  split_and!; [reflexivity | exact Hcode | exact Hmessage | reflexivity
              | exact Hagain | exact Hcode' | exact Hmessage' | | ].
  - rewrite Htext'. exact Htext.
  - exact (Hemb' Hemb).
Defined.

(** X21 at two tags. *)
Lemma parse_tags_join_witness :
  Forall tag_ok [lit "work"; lit "tax receipt"] ∧
  parse_tags (lit "work, tax receipt") = [lit "work"; lit "tax receipt"].
Proof.
  assert (Forall tag_ok [lit "work"; lit "tax receipt"]) as H.
  { repeat constructor; try discriminate; try reflexivity;
      apply (bool_decide_unpack _); vm_compute; exact I. }
  split; [exact H|].
  exact (parse_tags_join [lit "work"; lit "tax receipt"] H).
Defined.

(** X22 at a query of three spaces. *)
Lemma hybrid_blank_query_witness :
  trim (lit "   ") = [] ∧
  hybridSearch demo_search (lit "   ") (lit "u1") demo_options
  = Throw (lit "Hybrid search failed: " ++ lit "Semantic search failed: "
           ++ lit "No text provided for embedding generation").
Proof.
  split; [reflexivity|].
  exact (hybrid_blank_query demo_search (lit "   ") (lit "u1") demo_options
           eq_refl).
Defined.

(** X23 at the sample searches, with [fullTextLimit = 2]: the full-text
    row ["d"], of rank 2, is not looked at. *)
Lemma hybrid_complete_witness :
  (semanticSearch demo_search (lit "notes") (lit "u1")
     (default 5%Z (semanticLimit demo_options))
     (default 0.7%float (semanticThreshold demo_options)) = Ok demo_semantic ∧
   fullTextSearch demo_search (lit "notes") (lit "u1") = Ok demo_fulltext) ∧
  ∃ results,
    hybridSearch demo_search (lit "notes") (lit "u1") demo_options = Ok results ∧
    lit "c" ∈ map (λ e, id (capture e)) results ∧
    lit "d" ∉ map (λ e, id (capture e)) results.
Proof.
  split; [split; reflexivity|].
  destruct (hybrid_complete demo_search (lit "notes") (lit "u1")
              demo_options demo_semantic demo_fulltext eq_refl eq_refl)
    as (results & Hrun & Hids).
  exists results. split_and!; [exact Hrun | |].
  - apply Hids. right. apply (bool_decide_unpack _). vm_compute. exact I.
  - intros Hd. apply Hids in Hd.
    assert (¬ (lit "d" ∈ map (λ r, id (hit r)) demo_semantic ∨
               lit "d" ∈ map id
                 (slice_to (default 5%Z (fullTextLimit demo_options))
                    demo_fulltext))) as Hnot
      by (apply (bool_decide_unpack _); vm_compute; exact I).
    exact (Hnot Hd).
Defined.

(** X24 at the sample searches. *)
Lemma hybrid_scores_in_range_witness :
  (semanticSearch demo_search (lit "notes") (lit "u1")
     (default 5%Z (semanticLimit demo_options))
     (default 0.7%float (semanticThreshold demo_options)) = Ok demo_semantic ∧
   fullTextSearch demo_search (lit "notes") (lit "u1") = Ok demo_fulltext ∧
   (0 <= default 5%Z (fullTextLimit demo_options) < 2 ^ 53)%Z ∧
   Forall (λ r, (0 <=? similarity r)%float = true ∧
                (similarity r <=? 1)%float = true) demo_semantic) ∧
  ∃ results,
    hybridSearch demo_search (lit "notes") (lit "u1") demo_options = Ok results ∧
    Forall (λ e, (0 <=? relevanceScore e)%float = true ∧
                 (relevanceScore e <=? 1)%float = true ∧
                 (searchType e = fulltext →
                  (0 <? relevanceScore e)%float = true))
      results.
Proof.
  assert (0 <= default 5%Z (fullTextLimit demo_options) < 2 ^ 53)%Z as Hlimit
    by (split; reflexivity || (intros H; discriminate H)).
  assert (Forall (λ r, (0 <=? similarity r)%float = true ∧
                       (similarity r <=? 1)%float = true)
            demo_semantic) as Hsem
    by (repeat constructor).
  split; [exact (conj eq_refl (conj eq_refl (conj Hlimit Hsem)))|].
  exact (hybrid_scores_in_range demo_search (lit "notes") (lit "u1")
           demo_options demo_semantic demo_fulltext eq_refl eq_refl
           Hlimit Hsem).
Defined.

(** X25 at the stored capture, the storage being lost after the first
    write. *)
Lemma unrecorded_failure_blocks_witness :
  (db_update storage_lost (length (updates (stored_world "pending")))
   = Accepted ∧
   (∀ n, length (updates (stored_world "pending")) < n →
         db_update storage_lost n ≠ Accepted) ∧
   truthy (Some (lit "c1")) = true ∧ truthy (Some (lit "u1")) = true ∧
   is_string (row (stored_world "pending") !! "id") (lit "c1") = true ∧
   is_string (row (stored_world "pending") !! "user_id") (lit "u1") = true) ∧
  ∃ error w' response,
    processCapture storage_lost (Some (lit "https://cdn/img.png"))
      (Some (lit "Lunch on March 3, 2024")) None (stored_world "pending")
    = (Throw error, w') ∧
    row w' = processing_patch ∪ row (stored_world "pending") ∧
    handler demo_api (post (lit "c1") (lit "u1")) w' = (Ok response, w') ∧
    statusCode response = 202.
Proof.
  assert (∀ n, length (updates (stored_world "pending")) < n →
               db_update storage_lost n ≠ Accepted) as Hlater.
  { intros [|n] Hn; [simpl in Hn; lia | discriminate]. }
  split; [split_and!; [reflexivity | exact Hlater | reflexivity..]|].
  destruct (unrecorded_failure_blocks storage_lost
              (Some (lit "https://cdn/img.png"))
              (Some (lit "Lunch on March 3, 2024")) None
              (stored_world "pending") (lit "c1") (lit "u1")
              eq_refl Hlater eq_refl eq_refl eq_refl eq_refl)
    as (error & w' & Hrun & Hrow & Hlaterequests).
  destruct (Hlaterequests demo_api eq_refl) as (response & Hanswer & Hcode).
  exists error, w', response.
  split_and!; [exact Hrun | exact Hrow | exact Hanswer | exact Hcode].
Defined.
